(** * Day 8: shortest-distance clustering (src/day8/solution.py)

    A shallow embedding of the union-find structure, the pairwise distance
    enumeration and the two solvers of [src/day8/solution.py], together with
    the properties the repository's specification states about them.

    Python integers are modelled by [Z], Python lists by [list] with the
    interpreter's indexing rules (a negative index counts from the end, an
    index outside [-len, len) raises [IndexError]), and the methods of
    [UnionFind], which mutate [self], by a state-and-exception monad over the
    record of its three attributes.  The recursion of [UnionFind.find] is
    bounded by a fuel argument; running out of fuel is a separate outcome,
    and the theorems show that it does not occur with [size + 2] units.
    The interpreter's own recursion limit is not part of the model.
    [math.sqrt] and [list.sort] belong to the Python library and are
    parameters; the square root is partial, for the [OverflowError] of an
    integer beyond the float range.  Of the [debug] output only the list
    reads it performs are modelled, since they can raise. *)

From stdpp Require Import base relations list sorting strings.
From Stdlib Require Import ZArith Lia.

Local Open Scope Z_scope.

(** ** Python lists *)

(** [l[x]] resolves the index [x] against [len(l)]. *)
Definition py_index (len : nat) (x : Z) : option nat :=
  if decide (0 ≤ x < Z.of_nat len) then Some (Z.to_nat x)
  else if decide (- Z.of_nat len ≤ x < 0) then Some (Z.to_nat (x + Z.of_nat len))
  else None.

(** [l[x]] as an expression; [None] stands for [IndexError]. *)
Definition py_get {A} (l : list A) (x : Z) : option A :=
  i ← py_index (length l) x; l !! i.

(** [l[x] = v]; [None] stands for [IndexError]. *)
Definition py_set {A} (l : list A) (x : Z) (v : A) : option (list A) :=
  i ← py_index (length l) x; Some (<[i:=v]> l).

(** [range(a, b)] and [range(n)]. *)
Definition py_range (a b : Z) : list Z := seqZ a (b - a).

(** ** Dictionaries with insertion order

    [get_component_sizes] reads [size_map.values()], whose order is the order
    in which the keys were first stored, so the dictionary is an association
    list kept in insertion order with distinct keys. *)
Definition dict := list (Z * Z).

(** [d.get(k, dflt)] *)
Fixpoint dict_get (d : dict) (k dflt : Z) : Z :=
  match d with
  | [] => dflt
  | (k', v) :: d' => if decide (k' = k) then v else dict_get d' k dflt
  end.

(** [d[k] = v] *)
Fixpoint dict_set (d : dict) (k v : Z) : dict :=
  match d with
  | [] => [(k, v)]
  | (k', v') :: d' =>
      if decide (k' = k) then (k', v) :: d' else (k', v') :: dict_set d' k v
  end.

(** [list(d.values())] *)
Definition dict_values (d : dict) : list Z := d.*2.

(** ** Outcomes and the monad of the methods *)

Inductive exn := IndexError | ValueError | OverflowError.

Inductive outcome (A : Type) :=
| Ret (a : A)
| Raise (e : exn)
| OutOfFuel.
Arguments Ret {A} a.
Arguments Raise {A} e.
Arguments OutOfFuel {A}.

(** The attributes of a [UnionFind] object. *)
Record UF := mkUF {
  parent : list Z;
  rank : list Z;
  component_count : Z
}.

Definition M (A : Type) : Type := UF → outcome A * UF.

Definition ret {A} (a : A) : M A := λ s, (Ret a, s).
Definition raise {A} (e : exn) : M A := λ s, (Raise e, s).
Definition diverge {A} : M A := λ s, (OutOfFuel, s).
Definition bind {A B} (m : M A) (k : A → M B) : M B :=
  λ s, match m s with
       | (Ret a, s') => k a s'
       | (Raise e, s') => (Raise e, s')
       | (OutOfFuel, s') => (OutOfFuel, s')
       end.

#[global] Instance M_ret : MRet M := @ret.
#[global] Instance M_bind : MBind M := λ A B k m, bind m k.

(** An indexing result inside the monad. *)
Definition index_result {A} (o : option A) : M A :=
  match o with Some a => ret a | None => raise IndexError end.

(** [self.parent[x]], [self.parent[x] = v], [self.rank[x]], [self.rank[x] = v] *)
Definition get_parent (x : Z) : M Z := λ s, index_result (py_get (parent s) x) s.
Definition set_parent (x v : Z) : M unit := λ s,
  match py_set (parent s) x v with
  | Some p => (Ret (), mkUF p (rank s) (component_count s))
  | None => (Raise IndexError, s)
  end.
Definition get_rank (x : Z) : M Z := λ s, index_result (py_get (rank s) x) s.
Definition set_rank (x v : Z) : M unit := λ s,
  match py_set (rank s) x v with
  | Some r => (Ret (), mkUF (parent s) r (component_count s))
  | None => (Raise IndexError, s)
  end.
Definition get_count : M Z := λ s, (Ret (component_count s), s).
Definition set_count (c : Z) : M unit := λ s, (Ret (), mkUF (parent s) (rank s) c).
Definition len_parent : M Z := λ s, (Ret (Z.of_nat (length (parent s))), s).

(** ** class UnionFind *)

(** [UnionFind.__init__]: [list(range(size))], [[0] * size] and [size]; a
    negative [size] gives two empty lists. *)
Definition init (size : Z) : UF :=
  mkUF (py_range 0 size) (replicate (Z.to_nat size) 0) size.

(** [UnionFind.find]: the condition reads [self.parent[x]], the assignment
    reads it again for the recursive call and stores the result, and the
    [return] reads it a third time. *)
Fixpoint find (fuel : nat) (x : Z) : M Z :=
  match fuel with
  | O => diverge
  | S fuel' =>
      px ← get_parent x;
      if bool_decide (px ≠ x) then
        px' ← get_parent x;
        r ← find fuel' px';
        set_parent x r;;
        get_parent x
      else get_parent x
  end.

(** [UnionFind.union] *)
Definition union (fuel : nat) (x y : Z) : M bool :=
  root_x ← find fuel x;
  root_y ← find fuel y;
  if bool_decide (root_x = root_y) then ret false
  else
    rx ← get_rank root_x;
    ry ← get_rank root_y;
    (if bool_decide (rx < ry) then set_parent root_x root_y
     else
       rx' ← get_rank root_x;
       ry' ← get_rank root_y;
       if bool_decide (rx' > ry') then set_parent root_y root_x
       else
         set_parent root_y root_x;;
         r ← get_rank root_x;
         set_rank root_x (r + 1));;
    c ← get_count;
    set_count (c - 1);;
    ret true.

(** The loop of [get_component_sizes] over the remaining indices. *)
Fixpoint sizes_loop (fuel : nat) (idx : list Z) (size_map : dict) : M dict :=
  match idx with
  | [] => ret size_map
  | i :: idx' =>
      root ← find fuel i;
      sizes_loop fuel idx' (dict_set size_map root (dict_get size_map root 0 + 1))
  end.

(** [UnionFind.get_component_sizes] *)
Definition get_component_sizes (fuel : nat) : M (list Z) :=
  n ← len_parent;
  size_map ← sizes_loop fuel (py_range 0 n) [];
  ret (dict_values size_map).

(** ** Distances *)

(** [Coordinate = Tuple[int, int, int]] *)
Definition Coordinate : Type := Z * Z * Z.
Definition coord_x (c : Coordinate) : Z := c.1.1.
Definition coord_y (c : Coordinate) : Z := c.1.2.
Definition coord_z (c : Coordinate) : Z := c.2.

(** The loops of [calculate_all_distances] have no state: an outcome
    alone, with the first exception ending the computation. *)
#[global] Instance outcome_ret : MRet outcome := @Ret.
#[global] Instance outcome_bind : MBind outcome := λ A B k m,
  match m with
  | Ret a => k a
  | Raise e => Raise e
  | OutOfFuel => OutOfFuel
  end.

(** An indexing result as an outcome. *)
Definition index_outcome {A} (o : option A) : outcome A :=
  match o with Some a => Ret a | None => Raise IndexError end.

Section distances.
(** [math.sqrt] belongs to the Python library, not to the repository: the
    type of floats and the square root of an integer are parameters.
    [math.sqrt] converts its integer argument to a float first and raises
    [OverflowError] when the integer is too large for one; [None] stands
    for that error.  A negative argument would raise [ValueError]; the
    argument below is a sum of squares. *)
Context {float : Type} (math_sqrt : Z → option float).

(** [DistancePair = Tuple[float, int, int]] *)
Definition DistancePair : Type := float * Z * Z.

(** [calculate_distance] *)
Definition calculate_distance (coord1 coord2 : Coordinate) : outcome float :=
  let dx := coord_x coord2 - coord_x coord1 in
  let dy := coord_y coord2 - coord_y coord1 in
  let dz := coord_z coord2 - coord_z coord1 in
  match math_sqrt (dx * dx + dy * dy + dz * dz) with
  | Some d => Ret d
  | None => Raise OverflowError
  end.

(** The body of the inner loop of [calculate_all_distances]. *)
Definition distance_entry (coordinates : list Coordinate) (i j : Z)
    : outcome DistancePair :=
  ci ← index_outcome (py_get coordinates i);
  cj ← index_outcome (py_get coordinates j);
  dist ← calculate_distance ci cj;
  mret (dist, i, j).

(** [calculate_all_distances] *)
Definition calculate_all_distances (coordinates : list Coordinate)
    : outcome (list DistancePair) :=
  let n := Z.of_nat (length coordinates) in
  rows ← mapM (λ i, mapM (distance_entry coordinates i) (py_range (i + 1) n))
              (py_range 0 n);
  mret (mjoin rows).

(** The triple [t] holds the distance of the two points it names. *)
Definition distance_of (coordinates : list Coordinate) (t : DistancePair)
    : Prop :=
  ∃ ci cj, coordinates !! Z.to_nat t.1.2 = Some ci ∧
           coordinates !! Z.to_nat t.2 = Some cj ∧
           calculate_distance ci cj = Ret t.1.1.

(** [math.sqrt] overflows on the squared distance of some pair of points. *)
Definition overflowing (coordinates : list Coordinate) : Prop :=
  ∃ i j ci cj, 0 ≤ i < j ∧
    coordinates !! Z.to_nat i = Some ci ∧
    coordinates !! Z.to_nat j = Some cj ∧
    calculate_distance ci cj = Raise OverflowError.
End distances.

(** ** Solvers *)

(** [determine_part1_connections]; [//] is floor division, as [Z.div] is for
    the positive divisor 2. *)
Definition determine_part1_connections (num_coords : Z) : Z :=
  if bool_decide (num_coords = 20) then 10
  else if bool_decide (num_coords = 1000) then 1000
  else num_coords / 2.

(** The loop of [solve_part2] over the remaining pairs ([debug] only prints). *)
Fixpoint scan_pairs {float} (fuel : nat) (coordinates : list Coordinate)
    (pairs : list (float * Z * Z)) : M Z :=
  match pairs with
  | [] => raise ValueError
  | (_, idx1, idx2) :: rest =>
      unified ← union fuel idx1 idx2;
      c ← get_count;
      if unified && bool_decide (c = 1) then
        c1 ← index_result (py_get coordinates idx1);
        c2 ← index_result (py_get coordinates idx2);
        ret (coord_x c1 * coord_x c2)
      else scan_pairs fuel coordinates rest
  end.

(** [solve_part2] *)
Definition solve_part2 {float} (fuel : nat) (coordinates : list Coordinate)
    (sorted_distances : list (float * Z * Z)) : outcome Z :=
  let num_coords := Z.of_nat (length coordinates) in
  (scan_pairs fuel coordinates sorted_distances (init num_coords)).1.

(** The argument loop of [main]. *)
Fixpoint parse_args (args : list string) (filename : string) (debug : bool)
    : string * bool :=
  match args with
  | [] => (filename, debug)
  | arg :: args' =>
      if decide (arg = "--debug"%string) then parse_args args' filename true
      else parse_args args' arg debug
  end.

(** The part of [main] that fixes the number of connections of part 1;
    [parse_coordinates] is the parameter [read]. *)
Definition main_connections (read : string → list Coordinate) (argv : list string) : Z :=
  let '(filename, debug) := parse_args (tail argv) "input"%string false in
  let coordinates := read filename in
  determine_part1_connections (Z.of_nat (length coordinates)).

(** ** Sequences of operations on one structure *)

Inductive op :=
| Find (x : Z)
| Union (x y : Z)
| ComponentSizes.

Inductive result :=
| RFind (o : outcome Z)
| RUnion (o : outcome bool)
| RSizes (o : outcome (list Z)).

Definition run_op (fuel : nat) (o : op) (s : UF) : result * UF :=
  match o with
  | Find x => let '(r, s') := find fuel x s in (RFind r, s')
  | Union x y => let '(r, s') := union fuel x y s in (RUnion r, s')
  | ComponentSizes => let '(r, s') := get_component_sizes fuel s in (RSizes r, s')
  end.

(** A caller that keeps using the object whatever a call returned or raised. *)
Fixpoint run_ops (fuel : nat) (ops : list op) (s : UF) : list result * UF :=
  match ops with
  | [] => ([], s)
  | o :: ops' =>
      let '(r, s') := run_op fuel o s in
      let '(rs, s'') := run_ops fuel ops' s' in
      (r :: rs, s'')
  end.

Definition finished (r : result) : Prop :=
  match r with
  | RFind o => o ≠ OutOfFuel
  | RUnion o => o ≠ OutOfFuel
  | RSizes o => o ≠ OutOfFuel
  end.

(** The states a structure of [size] elements can be in. *)
Inductive reachable (size : Z) : UF → Prop :=
| reachable_init : reachable size (init size)
| reachable_step fuel o s r s' :
    reachable size s → run_op fuel o s = (r, s') → finished r →
    reachable size s'.

(** 1 for a [union] call that returned [True], 0 for every other result. *)
Definition merged (r : result) : Z :=
  match r with
  | RUnion (Ret true) => 1
  | _ => 0
  end.

(** The number of [union] calls of a run that returned [True]. *)
Fixpoint successful_unions (rs : list result) : Z :=
  match rs with
  | [] => 0
  | r :: rs' => merged r + successful_unions rs'
  end.

(** ** Notions of the specification *)

(** [y] is the parent of the element [x]. *)
Definition parent_of (p : list Z) (x y : Z) : Prop :=
  0 ≤ x ∧ p !! Z.to_nat x = Some y.

(** A root is its own parent. *)
Definition is_root (p : list Z) (r : Z) : Prop := parent_of p r r.

(** A parent pointer that leaves its element. *)
Definition edge (p : list Z) (x y : Z) : Prop := parent_of p x y ∧ y ≠ x.

(** [repr p x r]: following the parent pointers from [x] ends in the root
    [r] after finitely many steps. *)
Inductive repr (p : list Z) : Z → Z → Prop :=
| repr_root r : is_root p r → repr p r r
| repr_step x y r : edge p x y → repr p y r → repr p x r.

(** Every element lies in a tree, and no chain of parent pointers that
    leaves an element comes back to it. *)
Definition forest (p : list Z) : Prop :=
  (∀ x, 0 ≤ x < Z.of_nat (length p) → ∃ r, repr p x r) ∧
  (∀ x, ¬ tc (edge p) x x).

(** Two parent lists describe the same partition with the same
    representatives. *)
Definition same_partition (p p' : list Z) : Prop :=
  length p' = length p ∧ ∀ x r, repr p x r ↔ repr p' x r.

(** The number of roots. *)
Definition count_roots (p : list Z) : nat :=
  length (filter (λ i : nat, p !! i = Some (Z.of_nat i)) (seq 0 (length p))).

Definition Zsum (l : list Z) : Z := foldr Z.add 0 l.

(** The rank of an element, 0 outside the list. *)
Definition rk (s : UF) (x : Z) : Z := default 0 (rank s !! Z.to_nat x).

(** The invariant of the structure. *)
Record uf_inv (s : UF) : Prop := {
  inv_rank_len : length (rank s) = length (parent s);
  inv_parent_range : ∀ (i : nat) v,
    parent s !! i = Some v → 0 ≤ v < Z.of_nat (length (parent s));
  inv_rank_nonneg : Forall (λ v, 0 ≤ v) (rank s);
  inv_rank_edge : ∀ x y, edge (parent s) x y → rk s x < rk s y;
  inv_rank_sum :
    Zsum (rank s) + Z.of_nat (count_roots (parent s)) ≤ Z.of_nat (length (parent s));
  inv_count : component_count s = Z.of_nat (count_roots (parent s))
}.

(** Path compression: every entry is kept or replaced by the root of its
    own element. *)
Definition compressed (p p' : list Z) : Prop :=
  length p' = length p ∧
  ∀ (i : nat) v, p' !! i = Some v → p !! i = Some v ∨ repr p (Z.of_nat i) v.

(** The state after a successful [union] whose two [find] calls returned
    the distinct roots [root_x] and [root_y] in the state [s]. *)
Definition link (s : UF) (root_x root_y : Z) : UF :=
  if bool_decide (rk s root_x < rk s root_y) then
    mkUF (<[Z.to_nat root_x:=root_y]> (parent s)) (rank s) (component_count s - 1)
  else if bool_decide (rk s root_x > rk s root_y) then
    mkUF (<[Z.to_nat root_y:=root_x]> (parent s)) (rank s) (component_count s - 1)
  else
    mkUF (<[Z.to_nat root_y:=root_x]> (parent s))
         (<[Z.to_nat root_x:=rk s root_x + 1]> (rank s))
         (component_count s - 1).

(** The part of [union] that follows the comparison of the two roots. *)
Definition union_roots (root_x root_y : Z) : M bool :=
  rx ← get_rank root_x;
  ry ← get_rank root_y;
  (if bool_decide (rx < ry) then set_parent root_x root_y
   else
     rx' ← get_rank root_x;
     ry' ← get_rank root_y;
     if bool_decide (rx' > ry') then set_parent root_y root_x
     else
       set_parent root_y root_x;;
       r ← get_rank root_x;
       set_rank root_x (r + 1));;
  c ← get_count;
  set_count (c - 1);;
  ret true.

(** [scan_prefix fuel pairs s = Some s']: starting in [s], [union] was called
    on every pair of [pairs] in order, each call returned, none of them
    returned [True] with one component left, and the structure ended in
    [s']. *)
Fixpoint scan_prefix {float} (fuel : nat) (pairs : list (float * Z * Z)) (s : UF)
    : option UF :=
  match pairs with
  | [] => Some s
  | (_, idx1, idx2) :: rest =>
      match union fuel idx1 idx2 s with
      | (Ret unified, s') =>
          if unified && bool_decide (component_count s' = 1) then None
          else scan_prefix fuel rest s'
      | _ => None
      end
  end.

(** The [union] calls that [solve_part2] makes when nothing stops the scan. *)
Definition union_ops {float} (pairs : list (float * Z * Z)) : list op :=
  (λ t, Union t.1.2 t.2) <$> pairs.

(** A [union] call that returned a boolean. *)
Definition returned (r : result) : Prop := ∃ b, r = RUnion (Ret b).

(** The order of [calculate_all_distances] on the index pairs: first index
    ascending, then second index ascending. *)
Definition pair_lt (p q : Z * Z) : Prop :=
  p.1 < q.1 ∨ (p.1 = q.1 ∧ p.2 < q.2).

(** The two indices of a distance pair. *)
Definition pair_indices {float} (t : float * Z * Z) : Z * Z := (t.1.2, t.2).

(** The index pairs [(i, j)] with [0 <= i < j < n], listed row by row. *)
Definition index_pairs (n : Z) : list (Z * Z) :=
  py_range 0 n ≫= λ i, (λ j, (i, j)) <$> py_range (i + 1) n.

(** Two elements of the same component. *)
Definition joined (p : list Z) (a b : Z) : Prop :=
  ∃ r, repr p a r ∧ repr p b r.

(** ** Part 1 and the pipeline of [main] *)

(** The order of [sorted(..., reverse=True)] on integers. *)
Definition descending (a b : Z) : Prop := b ≤ a.

#[global] Instance descending_dec a b : Decision (descending a b) :=
  decide (b ≤ a).

(** [sorted(l, reverse=True)] for a list of integers: the descending
    arrangement of the list, computed here by merge sort (for integers the
    result does not depend on the sorting algorithm). *)
Definition sorted_reverse (l : list Z) : list Z := merge_sort descending l.

(** The loop [for i in range(n_connections)] of [solve_part1] over the
    remaining indices; the result of [union] is ignored. *)
Fixpoint connect_loop {float} (fuel : nat)
    (sorted_distances : list (float * Z * Z)) (idx : list Z) : M unit :=
  match idx with
  | [] => mret ()
  | i :: idx' =>
      t ← index_result (py_get sorted_distances i);
      union fuel t.1.2 t.2;;
      connect_loop fuel sorted_distances idx'
  end.

(** The body of [solve_part1] after [uf = UnionFind(num_coords)].  Of the
    debug output only the list accesses of the printed expressions are
    kept, since they can raise [IndexError]. *)
Definition solve_part1_body {float} (fuel : nat)
    (sorted_distances : list (float * Z * Z)) (n_connections : Z)
    (debug : bool) : M Z :=
  (if debug then
     index_result (py_get sorted_distances 0);;
     index_result (py_get sorted_distances (n_connections - 1));;
     mret ()
   else mret ());;
  connect_loop fuel sorted_distances (py_range 0 n_connections);;
  component_sizes ← get_component_sizes fuel;
  let sizes := sorted_reverse component_sizes in
  (if debug then
     index_result (py_get sizes 0);;
     index_result (py_get sizes 1);;
     index_result (py_get sizes 2);;
     mret ()
   else mret ());;
  a ← index_result (py_get sizes 0);
  b ← index_result (py_get sizes 1);
  c ← index_result (py_get sizes 2);
  mret (a * b * c).

(** [solve_part1] *)
Definition solve_part1 {float} (fuel : nat) (coordinates : list Coordinate)
    (sorted_distances : list (float * Z * Z)) (n_connections : Z)
    (debug : bool) : outcome Z :=
  let num_coords := Z.of_nat (length coordinates) in
  (solve_part1_body fuel sorted_distances n_connections debug
     (init num_coords)).1.

(** The computation of [main] from the parsed coordinates to the two
    results; [sort] stands for [sorted_distances.sort(key=lambda x: x[0])],
    the library's sort by the distance. *)
Definition main_results {float} (math_sqrt : Z → option float)
    (sort : list (float * Z * Z) → list (float * Z * Z))
    (fuel : nat) (coordinates : list Coordinate) (debug : bool)
    : outcome (Z * Z) :=
  let n_connections :=
    determine_part1_connections (Z.of_nat (length coordinates)) in
  match calculate_all_distances math_sqrt coordinates with
  | Raise e => Raise e
  | OutOfFuel => OutOfFuel
  | Ret distances =>
      let sorted_distances := sort distances in
      match solve_part1 fuel coordinates sorted_distances n_connections debug with
      | Ret part1_result =>
          match solve_part2 fuel coordinates sorted_distances with
          | Ret part2_result => Ret (part1_result, part2_result)
          | Raise e => Raise e
          | OutOfFuel => OutOfFuel
          end
      | Raise e => Raise e
      | OutOfFuel => OutOfFuel
      end
  end.

(** ** Instances for the examples

    In the examples a float is stood for by an integer.  [example_sqrt]
    rounds the root down, so it is [math.sqrt] on perfect squares only; as
    in Python, an integer that does not fit a float, from
    [2^1024 - 2^970] on, raises [OverflowError]. *)
Definition example_sqrt (n : Z) : option Z :=
  if bool_decide (n < 2 ^ 1024 - 2 ^ 970) then Some (Z.sqrt n) else None.

(** [list.sort(key=lambda x: x[0])] on such triples: ascending by the first
    component and stable, a triple staying in front of the later triples
    with the same key. *)
Fixpoint insert_by_distance (t : Z * Z * Z) (l : list (Z * Z * Z))
    : list (Z * Z * Z) :=
  match l with
  | [] => [t]
  | u :: l' =>
      if decide (t.1.1 ≤ u.1.1) then t :: u :: l'
      else u :: insert_by_distance t l'
  end.

Definition sort_by_distance (l : list (Z * Z * Z)) : list (Z * Z * Z) :=
  foldr insert_by_distance [] l.

(** ** A structure with a chain

    [UnionFind(5)] after [union(0, 1)], [union(2, 3)] and [union(1, 3)]:
    the third call hangs the root 2 below the root 0, so that element 3 is
    two steps away from its root, and element 4 is still alone.
    [flat_state] is the same structure after a further [find(3)], which
    compresses that path.  The examples of the properties of reachable
    states run on these two states. *)
Definition chain_ops : list op := [Union 0 1; Union 2 3; Union 1 3].
Definition chain_state : UF := (run_ops 7 chain_ops (init 5)).2.
Definition flat_state : UF := (run_ops 7 (chain_ops ++ [Find 3]) (init 5)).2.

(** ** Proofs *)

Example run_example :
  run_ops 6 [Union 0 1; Union 2 3; Union 1 3; Find 3; Find (-1); Find 4; ComponentSizes] (init 4)
  = ([RUnion (Ret true); RUnion (Ret true); RUnion (Ret true); RFind (Ret 0);
      RFind (Ret 0); RFind (Raise IndexError); RSizes (Ret [4])],
     mkUF [0; 0; 0; 0] [2; 0; 1; 0] 1).
Proof. reflexivity. Qed.

(** *** Indexing *)

Lemma py_index_nonneg len x :
  0 ≤ x < Z.of_nat len → py_index len x = Some (Z.to_nat x).
Proof. intros H. unfold py_index. by rewrite decide_True. Qed.

Lemma py_index_neg len x :
  - Z.of_nat len ≤ x < 0 → py_index len x = Some (Z.to_nat (x + Z.of_nat len)).
Proof.
  intros H. unfold py_index.
  rewrite decide_False by lia. by rewrite decide_True.
Qed.

Lemma py_index_out len x :
  x < - Z.of_nat len ∨ Z.of_nat len ≤ x → py_index len x = None.
Proof. intros H. unfold py_index. by rewrite !decide_False by lia. Qed.

Lemma py_index_Some len x i :
  py_index len x = Some i →
  (i < len)%nat ∧ (x = Z.of_nat i ∨ (x < 0 ∧ x + Z.of_nat len = Z.of_nat i)).
Proof.
  unfold py_index. intros H. repeat case_decide; simplify_eq; lia.
Qed.

Lemma py_get_nonneg {A} (l : list A) x :
  0 ≤ x < Z.of_nat (length l) → py_get l x = l !! Z.to_nat x.
Proof. intros H. unfold py_get. by rewrite py_index_nonneg. Qed.

Lemma py_get_out {A} (l : list A) x :
  x < - Z.of_nat (length l) ∨ Z.of_nat (length l) ≤ x → py_get l x = None.
Proof. intros H. unfold py_get. by rewrite py_index_out. Qed.

Lemma py_set_nonneg {A} (l : list A) x v :
  0 ≤ x < Z.of_nat (length l) → py_set l x v = Some (<[Z.to_nat x:=v]> l).
Proof. intros H. unfold py_set. by rewrite py_index_nonneg. Qed.

(** *** One step of [find] *)

Lemma find_unfold fuel x s :
  find (S fuel) x s =
  match py_get (parent s) x with
  | None => (Raise IndexError, s)
  | Some px =>
      if bool_decide (px ≠ x) then
        match find fuel px s with
        | (Ret r, s1) =>
            match py_set (parent s1) x r with
            | Some p2 =>
                let s2 := mkUF p2 (rank s1) (component_count s1) in
                match py_get p2 x with
                | Some v => (Ret v, s2)
                | None => (Raise IndexError, s2)
                end
            | None => (Raise IndexError, s1)
            end
        | (Raise e, s1) => (Raise e, s1)
        | (OutOfFuel, s1) => (OutOfFuel, s1)
        end
      else (Ret px, s)
  end.
Proof.
  cbn [find]. unfold mbind, M_bind, bind, get_parent, set_parent.
  destruct (py_get (parent s) x) as [px|] eqn:Hpx; cbn; [|done].
  case_bool_decide; cbn; [|by rewrite Hpx].
  rewrite Hpx; cbn.
  destruct (find fuel px s) as [[r| |] s1]; [|done..].
  destruct (py_set (parent s1) x r) as [p2|]; cbn; [|done].
  by destruct (py_get p2 x).
Qed.

(** [find] touches neither the ranks nor the count nor the length. *)
Lemma find_frame fuel x s o s' :
  find fuel x s = (o, s') →
  rank s' = rank s ∧ component_count s' = component_count s ∧
  length (parent s') = length (parent s).
Proof.
  revert x s o s'. induction fuel as [|fuel IH]; intros x s o s'.
  { cbn. unfold diverge. by intros [= <- <-]. }
  rewrite find_unfold.
  destruct (py_get (parent s) x) as [px|]; [|by intros [= <- <-]].
  case_bool_decide; [|by intros [= <- <-]].
  destruct (find fuel px s) as [[r| |] s1] eqn:Hrec;
    apply IH in Hrec as (Hr & Hc & Hl); [|by intros [= <- <-]..].
  unfold py_set. destruct (py_index (length (parent s1)) x) as [i|]; cbn;
    [|by intros [= <- <-]].
  destruct (py_get _ x); intros [= <- <-]; cbn; by rewrite length_insert.
Qed.

(** More fuel does not change a call that returned or raised. *)
Lemma find_fuel_S fuel x s o s' :
  find fuel x s = (o, s') → o ≠ OutOfFuel → find (S fuel) x s = (o, s').
Proof.
  revert x s o s'. induction fuel as [|fuel IH]; intros x s o s' Hf Ho.
  { cbn in Hf. unfold diverge in Hf. by simplify_eq. }
  rewrite find_unfold in Hf. rewrite find_unfold.
  destruct (py_get (parent s) x) as [px|]; [|done].
  case_bool_decide; [|done].
  destruct (find fuel px s) as [[r| |] s1] eqn:Hrec.
  - by rewrite (IH _ _ _ _ Hrec).
  - by rewrite (IH _ _ _ _ Hrec).
  - by simplify_eq.
Qed.

Lemma find_fuel_mono fuel fuel' x s o s' :
  find fuel x s = (o, s') → o ≠ OutOfFuel → (fuel ≤ fuel')%nat →
  find fuel' x s = (o, s').
Proof.
  intros Hf Ho Hle. induction Hle; [done|]. by apply find_fuel_S.
Qed.

(** *** Parent pointers and representatives *)

Lemma parent_of_lt p x y : parent_of p x y → 0 ≤ x < Z.of_nat (length p).
Proof. intros [H0 Hl]. apply lookup_lt_Some in Hl. lia. Qed.

Lemma parent_of_det p x y y' : parent_of p x y → parent_of p x y' → y = y'.
Proof. intros [_ H1] [_ H2]. congruence. Qed.

Lemma parent_of_nat p (i : nat) y : parent_of p (Z.of_nat i) y ↔ p !! i = Some y.
Proof. unfold parent_of. rewrite Nat2Z.id. intuition lia. Qed.

Lemma repr_is_root p x r : repr p x r → is_root p r.
Proof. induction 1; auto. Qed.

Lemma repr_lt p x r : repr p x r → 0 ≤ x < Z.of_nat (length p).
Proof. destruct 1 as [r H|x y r [H _] _]; eapply parent_of_lt, H. Qed.

Lemma repr_det p x r r' : repr p x r → repr p x r' → r = r'.
Proof.
  intros H. revert r'. induction H as [r Hr|x y r [Hxy Hne] _ IH]; intros r' H'.
  - destruct H' as [r' _|x y r' [Hxy Hne] _]; [done|].
    destruct Hne. eapply parent_of_det; eauto.
  - destruct H' as [r' Hr|x y' r' [Hxy' _] H'].
    + destruct Hne. eapply parent_of_det; eauto.
    + apply IH. by rewrite (parent_of_det _ _ _ _ Hxy Hxy').
Qed.

Lemma repr_root_inv p r r' : is_root p r → repr p r r' → r' = r.
Proof. intros Hr H. symmetry. eapply repr_det; [by apply repr_root|done]. Qed.

Lemma Zsum_lookup_le (l : list Z) i v :
  Forall (λ v, 0 ≤ v) l → l !! i = Some v → 0 ≤ v ≤ Zsum l.
Proof.
  intros Hl. revert i. induction Hl as [|w l Hw Hl IH]; intros [|i] Hi;
    simplify_eq/=.
  - assert (0 ≤ Zsum l); [|lia]. clear -Hl. induction Hl; simpl; lia.
  - apply IH in Hi. lia.
Qed.

Lemma Zsum_insert (l : list Z) i v w :
  l !! i = Some v → Zsum (<[i:=w]> l) = Zsum l - v + w.
Proof.
  revert i. induction l as [|u l IH]; intros [|i] Hi; simplify_eq/=; [lia|].
  rewrite (IH _ Hi). lia.
Qed.

Section invariant.
Context (s : UF) (Hinv : uf_inv s).

Lemma rk_bounds x : 0 ≤ rk s x ≤ Z.of_nat (length (parent s)).
Proof.
  unfold rk. destruct (rank s !! Z.to_nat x) as [v|] eqn:Hv; simpl; [|lia].
  pose proof (Zsum_lookup_le _ _ _ (inv_rank_nonneg _ Hinv) Hv).
  pose proof (inv_rank_sum _ Hinv). lia.
Qed.

Lemma parent_of_range x y :
  parent_of (parent s) x y → 0 ≤ y < Z.of_nat (length (parent s)).
Proof. intros [_ H]. eapply inv_parent_range; eauto. Qed.

Lemma repr_rank_le x r : repr (parent s) x r → rk s x ≤ rk s r.
Proof.
  induction 1 as [|x y r Hxy _ IH]; [lia|].
  pose proof (inv_rank_edge _ Hinv _ _ Hxy). lia.
Qed.

Lemma repr_rank_lt x r : repr (parent s) x r → x ≠ r → rk s x < rk s r.
Proof.
  destruct 1 as [|x y r Hxy Hy]; [done|]. intros _.
  pose proof (inv_rank_edge _ Hinv _ _ Hxy).
  pose proof (repr_rank_le _ _ Hy). lia.
Qed.

Lemma tc_edge_rank x y : tc (edge (parent s)) x y → rk s x < rk s y.
Proof.
  induction 1 as [x y H|x y z H _ IH].
  - by apply inv_rank_edge.
  - pose proof (inv_rank_edge _ Hinv _ _ H). lia.
Qed.

Lemma inv_acyclic x : ¬ tc (edge (parent s)) x x.
Proof. intros H%tc_edge_rank. lia. Qed.

(** Every element reaches a root; the number of steps is bounded by the
    distance of its rank from the largest possible rank. *)
Lemma inv_repr_exists (k : nat) x :
  0 ≤ x < Z.of_nat (length (parent s)) →
  Z.of_nat (length (parent s)) - rk s x < Z.of_nat k →
  ∃ r, repr (parent s) x r.
Proof.
  revert x. induction k as [|k IH]; intros x Hx Hk.
  { pose proof (rk_bounds x). lia. }
  destruct (lookup_lt_is_Some_2 (parent s) (Z.to_nat x)) as [y Hy]; [lia|].
  assert (Hxy : parent_of (parent s) x y) by (split; [lia|done]).
  destruct (decide (y = x)) as [->|Hne].
  { exists x. by apply repr_root. }
  pose proof (inv_rank_edge _ Hinv x y (conj Hxy Hne)).
  destruct (IH y) as [r Hr]; [by eapply parent_of_range|lia|].
  exists r. eapply repr_step; [split|]; eauto.
Qed.

Lemma inv_forest : forest (parent s).
Proof.
  split; [|apply inv_acyclic]. intros x Hx.
  apply (inv_repr_exists (S (length (parent s))) x Hx).
  pose proof (rk_bounds x). lia.
Qed.
End invariant.

(** *** Path compression keeps the partition *)

Lemma same_partition_refl p : same_partition p p.
Proof. by split. Qed.

Lemma same_partition_trans p1 p2 p3 :
  same_partition p1 p2 → same_partition p2 p3 → same_partition p1 p3.
Proof.
  intros [Hl1 H1] [Hl2 H2]. split; [congruence|].
  intros x r. by rewrite H1, H2.
Qed.

Lemma same_partition_root p p' r :
  same_partition p p' → is_root p r ↔ is_root p' r.
Proof.
  intros [_ H]. split; intros Hr.
  - eapply repr_is_root, H. by apply repr_root.
  - eapply repr_is_root, H. by apply repr_root.
Qed.

Lemma compressed_refl p : compressed p p.
Proof. split; auto. Qed.

Lemma compressed_root p p' r : compressed p p' → is_root p' r ↔ is_root p r.
Proof.
  intros [Hlen Hc]. split; intros [H0 Hr]; split; try done.
  - destruct (Hc _ _ Hr) as [H|H]; [done|].
    rewrite Z2Nat.id in H by done. by apply repr_is_root in H as [_ H].
  - destruct (lookup_lt_is_Some_2 p' (Z.to_nat r)) as [v Hv].
    { rewrite Hlen. by eapply lookup_lt_Some. }
    destruct (Hc _ _ Hv) as [H|H]; [congruence|].
    rewrite Z2Nat.id in H by done.
    by rewrite (repr_root_inv p r v) in Hv.
Qed.

Lemma compressed_repr p p' x r : compressed p p' → repr p x r → repr p' x r.
Proof.
  intros Hc. pose proof Hc as [Hlen Hc'].
  induction 1 as [r Hr|x y r [[H0 Hxy] Hne] Hy IH].
  { by apply repr_root, (compressed_root p). }
  destruct (lookup_lt_is_Some_2 p' (Z.to_nat x)) as [v Hv].
  { rewrite Hlen. by eapply lookup_lt_Some. }
  destruct (Hc' _ _ Hv) as [H|H].
  - assert (v = y) as -> by congruence.
    eapply repr_step; [|done]. by repeat split.
  - rewrite Z2Nat.id in H by done.
    assert (repr p x r) as Hx by (eapply repr_step; [by repeat split|done]).
    assert (v = r) as -> by eauto using repr_det.
    assert (r ≠ x).
    { intros ->. apply repr_is_root in Hx as [_ Hx]. congruence. }
    eapply repr_step; [by repeat split|].
    apply repr_root, (compressed_root p); [done|]. by eapply repr_is_root.
Qed.

Section compression.
Context (s : UF) (Hinv : uf_inv s).

Lemma compressed_same_partition p' :
  compressed (parent s) p' → same_partition (parent s) p'.
Proof.
  intros Hc. split; [apply Hc|]. intros x r. split.
  { by apply compressed_repr. }
  intros H'. destruct (proj1 (inv_forest s Hinv) x) as [r0 Hr0].
  { apply repr_lt in H'. by rewrite (proj1 Hc) in H'. }
  pose proof (compressed_repr _ _ _ _ Hc Hr0) as H0.
  by rewrite (repr_det _ _ _ _ H' H0).
Qed.

Lemma compressed_count_roots p' :
  compressed (parent s) p' → count_roots p' = count_roots (parent s).
Proof.
  intros Hc. unfold count_roots. rewrite (proj1 Hc). f_equal.
  apply list_filter_iff. intros i.
  rewrite <-!parent_of_nat. apply (compressed_root _ _ _ Hc).
Qed.

Lemma compressed_inv p' :
  compressed (parent s) p' → uf_inv (mkUF p' (rank s) (component_count s)).
Proof.
  intros Hc. pose proof Hc as [Hlen Hc'].
  split; simpl; rewrite ?compressed_count_roots, ?Hlen by done;
    try apply Hinv.
  - intros i v Hv. destruct (Hc' _ _ Hv) as [H|H].
    + by eapply inv_parent_range.
    + eapply parent_of_lt, repr_is_root, H.
  - intros x y [[H0 Hxy] Hne]. change (rk s x < rk s y).
    destruct (Hc' _ _ Hxy) as [H|H].
    + apply inv_rank_edge; [done|]. by repeat split.
    + rewrite Z2Nat.id in H by done. by apply repr_rank_lt.
Qed.

(** [find] on an index that is in range and not negative. *)
Lemma find_nonneg fuel x :
  0 ≤ x < Z.of_nat (length (parent s)) →
  Z.of_nat (length (parent s)) - rk s x < Z.of_nat fuel →
  ∃ r s', find fuel x s = (Ret r, s') ∧ repr (parent s) x r ∧
    compressed (parent s) (parent s') ∧ parent s' !! Z.to_nat x = Some r.
Proof.
  revert x. induction fuel as [|fuel IH]; intros x Hx Hfuel.
  { pose proof (rk_bounds s Hinv x). lia. }
  rewrite find_unfold, py_get_nonneg by done.
  destruct (lookup_lt_is_Some_2 (parent s) (Z.to_nat x)) as [y Hy]; [lia|].
  rewrite Hy. assert (Hxy : parent_of (parent s) x y) by (split; [lia|done]).
  case_bool_decide as Hne.
  - pose proof (inv_rank_edge _ Hinv x y (conj Hxy Hne)).
    destruct (IH y) as (r & s1 & -> & Hr & Hc & _);
      [by eapply parent_of_range|lia|].
    pose proof Hc as [Hlen Hc'].
    rewrite py_set_nonneg by lia.
    rewrite py_get_nonneg by (rewrite length_insert; lia).
    rewrite list_lookup_insert_eq by lia.
    assert (repr (parent s) x r) as Hxr by (eapply repr_step; [split|]; eauto).
    eexists _, _. split_and!; [done|done| |simpl].
    + split; simpl; [by rewrite length_insert|]. intros i v.
      destruct (decide (i = Z.to_nat x)) as [->|Hi].
      * rewrite list_lookup_insert_eq by lia. intros [= <-].
        right. by rewrite Z2Nat.id by lia.
      * rewrite list_lookup_insert_ne by done. apply Hc'.
    + by rewrite list_lookup_insert_eq by lia.
  - subst y.
    eexists _, _. split_and!; [done| |apply compressed_refl|done].
    by apply repr_root.
Qed.
End compression.

(** *** [find] in a state that satisfies the invariant *)

Lemma UF_eta s p : 
  rank s = rank p → component_count s = component_count p →
  s = mkUF (parent s) (rank p) (component_count p).
Proof. destruct s; simpl; by intros -> ->. Qed.

Lemma find_invalid fuel x s :
  py_index (length (parent s)) x = None →
  find (S fuel) x s = (Raise IndexError, s).
Proof. intros H. rewrite find_unfold. unfold py_get. by rewrite H. Qed.

Lemma find_valid s fuel x i :
  uf_inv s → py_index (length (parent s)) x = Some i →
  (length (parent s) + 2 ≤ fuel)%nat →
  ∃ r s', find fuel x s = (Ret r, s') ∧ repr (parent s) (Z.of_nat i) r ∧
    compressed (parent s) (parent s') ∧ parent s' !! i = Some r.
Proof.
  intros Hinv Hi Hfuel.
  destruct (py_index_Some _ _ _ Hi) as [Hlt [->|[Hneg Hx]]].
  { destruct (find_nonneg s Hinv fuel (Z.of_nat i)) as (r & s' & ? & ? & ? & Hr).
    - lia.
    - pose proof (rk_bounds s Hinv (Z.of_nat i)). lia.
    - rewrite Nat2Z.id in Hr. eauto 10. }
  destruct fuel as [|fuel]; [lia|]. rewrite find_unfold.
  unfold py_get at 1. rewrite Hi. simpl.
  destruct (lookup_lt_is_Some_2 (parent s) i) as [y Hy]; [done|]. rewrite Hy.
  pose proof (inv_parent_range _ Hinv _ _ Hy) as Hyr.
  rewrite bool_decide_true by lia.
  destruct (find_nonneg s Hinv fuel y) as (r & s1 & -> & Hr & Hc & _); [done|..].
  { pose proof (rk_bounds s Hinv y). lia. }
  pose proof Hc as [Hlen Hc'].
  unfold py_set. rewrite Hlen, Hi. simpl.
  unfold py_get. rewrite length_insert, Hlen, Hi. simpl.
  rewrite list_lookup_insert_eq by lia.
  assert (repr (parent s) (Z.of_nat i) r) as Hir.
  { destruct (decide (y = Z.of_nat i)) as [->|Hne]; [done|].
    eapply repr_step; [|done]. split; [|done]. by apply parent_of_nat. }
  eexists _, _. split_and!; [done|done| |simpl].
  - split; simpl; [by rewrite length_insert|]. intros k v.
    destruct (decide (k = i)) as [->|Hk].
    + rewrite list_lookup_insert_eq by lia. intros [= <-]. by right.
    + rewrite list_lookup_insert_ne by done. apply Hc'.
  - by rewrite list_lookup_insert_eq by lia.
Qed.

(** What a finished call of [find] did, whatever the index and the fuel. *)
Lemma find_spec s fuel x o s' :
  uf_inv s → find fuel x s = (o, s') → o ≠ OutOfFuel →
  uf_inv s' ∧ same_partition (parent s) (parent s') ∧
  rank s' = rank s ∧ component_count s' = component_count s ∧
  match o with
  | Ret r => ∃ i, py_index (length (parent s)) x = Some i ∧
                  repr (parent s) (Z.of_nat i) r ∧ parent s' !! i = Some r
  | Raise e => e = IndexError ∧ py_index (length (parent s)) x = None ∧ s' = s
  | OutOfFuel => False
  end.
Proof.
  intros Hinv Hf Ho.
  pose proof (find_frame _ _ _ _ _ Hf) as (Hrk & Hcc & _).
  apply (find_fuel_mono _ (fuel `max` (length (parent s) + 2))) in Hf;
    [|done|lia].
  destruct (py_index (length (parent s)) x) as [i|] eqn:Hi.
  - destruct (find_valid s (fuel `max` (length (parent s) + 2)) x i)
      as (r & s1 & Hf' & Hr & Hc & Hp); [done|done|lia|].
    rewrite Hf' in Hf. simplify_eq. split_and!; [|by apply compressed_same_partition|done..|by eauto].
    rewrite (UF_eta s' s) by done. by apply compressed_inv.
  - destruct (fuel `max` (length (parent s) + 2))%nat as [|fuel'] eqn:E; [lia|].
    rewrite find_invalid in Hf by done. simplify_eq.
    split_and!; [done|apply same_partition_refl|done..].
Qed.

(** *** Attaching one root under another *)

Lemma filter_ext_elem {A} (P Q : A → Prop)
    `{!∀ x, Decision (P x), !∀ x, Decision (Q x)} (l : list A) :
  (∀ x, x ∈ l → P x ↔ Q x) → filter P l = filter Q l.
Proof.
  induction l as [|x l IH]; intros Hext; [done|]. rewrite !filter_cons.
  rewrite IH by (intros y Hy; apply Hext; by right).
  destruct (decide (P x)) as [HP|HP].
  - rewrite decide_True; [done|]. apply Hext; [by left|done].
  - rewrite decide_False; [done|]. intros HQ. apply HP, Hext; [by left|done].
Qed.

Section attach.
Context (p : list Z) (a b : Z).
Context (Ha : is_root p a) (Hb : is_root p b) (Hab : a ≠ b).

Local Notation p' := (<[Z.to_nat a:=b]> p).

Lemma attach_lookup_ne x : 0 ≤ x → x ≠ a → p' !! Z.to_nat x = p !! Z.to_nat x.
Proof.
  intros Hx Hne. apply list_lookup_insert_ne. destruct Ha as [H0 _]. lia.
Qed.

Lemma attach_lookup_eq : p' !! Z.to_nat a = Some b.
Proof. apply list_lookup_insert_eq. destruct Ha as [_ H]. by eapply lookup_lt_Some. Qed.

Lemma attach_root r : is_root p' r ↔ is_root p r ∧ r ≠ a.
Proof.
  unfold is_root, parent_of. destruct (decide (r = a)) as [->|Hne].
  - rewrite attach_lookup_eq. naive_solver.
  - split.
    + intros [H0 H]. by rewrite attach_lookup_ne in H.
    + intros [[H0 H] _]. by rewrite attach_lookup_ne.
Qed.

Lemma attach_edge x y : edge p x y → edge p' x y.
Proof.
  intros [[H0 Hxy] Hne]. repeat split; try done.
  rewrite attach_lookup_ne; [done..|]. intros ->.
  destruct Ha as [_ Ha']. congruence.
Qed.

Lemma attach_repr x r :
  repr p x r → repr p' x (if decide (r = a) then b else r).
Proof.
  induction 1 as [r Hr|x y r Hxy _ IH].
  - case_decide as Hra.
    + subst r. eapply repr_step.
      * repeat split; [apply Ha|apply attach_lookup_eq|done].
      * apply repr_root, attach_root. by split.
    + apply repr_root, attach_root. by split.
  - eapply repr_step; [|done]. by apply attach_edge.
Qed.

Lemma attach_count_roots : S (count_roots p') = count_roots p.
Proof.
  unfold count_roots. rewrite length_insert.
  destruct Ha as [Ha0 Ha']. pose proof (lookup_lt_Some _ _ _ Ha') as Hlt.
  assert (∀ i : nat, <[Z.to_nat a:=b]> p !! i = Some (Z.of_nat i) ↔
            p !! i = Some (Z.of_nat i) ∧ i ≠ Z.to_nat a) as Hiff.
  { intros i. destruct (decide (i = Z.to_nat a)) as [->|Hne].
    - rewrite list_lookup_insert_eq by done. rewrite Z2Nat.id by done. naive_solver.
    - rewrite list_lookup_insert_ne by done. naive_solver. }
  rewrite (list_filter_iff _ _ _ Hiff).
  assert (Z.to_nat a ∈ seq 0 (length p)) as Hin by (apply elem_of_seq; lia).
  pose proof (NoDup_seq 0 (length p)) as Hnd.
  revert Hin Hnd. generalize (seq 0 (length p)). intros l.
  induction l as [|i l IH]; intros Hin Hnd; [by apply elem_of_nil in Hin|].
  apply NoDup_cons in Hnd as [Hi Hnd]. rewrite !filter_cons.
  destruct (decide (i = Z.to_nat a)) as [->|Hne].
  - rewrite decide_False by naive_solver.
    rewrite decide_True by (by rewrite Z2Nat.id). simpl. f_equal. f_equal.
    apply filter_ext_elem. intros j Hj.
    split; [by intros [? _]|]. intros ?. split; [done|]. by intros ->.
  - apply elem_of_cons in Hin as [?|Hin]; [done|].
    destruct (decide (p !! i = Some (Z.of_nat i))).
    + rewrite decide_True by done. simpl. by rewrite IH.
    + rewrite decide_False by naive_solver. by apply IH.
Qed.
End attach.

Lemma attach_edge_inv p a b x y :
  is_root p a → edge (<[Z.to_nat a:=b]> p) x y → (x = a ∧ y = b) ∨ edge p x y.
Proof.
  intros [Ha0 Ha] [[H0 Hxy] Hne]. destruct (decide (x = a)) as [->|Hxa].
  - rewrite list_lookup_insert_eq in Hxy by (by eapply lookup_lt_Some).
    left. by simplify_eq.
  - rewrite list_lookup_insert_ne in Hxy by lia. right. by repeat split.
Qed.

Lemma rk_lookup s x :
  0 ≤ x < Z.of_nat (length (rank s)) → rank s !! Z.to_nat x = Some (rk s x).
Proof.
  intros Hx. unfold rk.
  destruct (lookup_lt_is_Some_2 (rank s) (Z.to_nat x)) as [v ->]; [lia|done].
Qed.

Lemma rk_insert p r c p' c' b v z :
  0 ≤ z → 0 ≤ b < Z.of_nat (length r) →
  rk (mkUF p' (<[Z.to_nat b:=v]> r) c') z =
  if decide (z = b) then v else rk (mkUF p r c) z.
Proof.
  intros Hz Hb. unfold rk. simpl. case_decide as Hzb.
  - subst. by rewrite list_lookup_insert_eq by lia.
  - by rewrite list_lookup_insert_ne by lia.
Qed.

Lemma attach_inv s a b v :
  uf_inv s → is_root (parent s) a → is_root (parent s) b → a ≠ b →
  rk s a < v → rk s b ≤ v ≤ rk s b + 1 →
  uf_inv (mkUF (<[Z.to_nat a:=b]> (parent s)) (<[Z.to_nat b:=v]> (rank s))
               (component_count s - 1)).
Proof.
  intros Hinv Ha Hb Hab Hav Hbv.
  pose proof (parent_of_lt _ _ _ Ha) as Har.
  pose proof (parent_of_lt _ _ _ Hb) as Hbr.
  pose proof (inv_rank_len _ Hinv) as Hlen.
  pose proof (attach_count_roots _ a b Ha) as Hcnt.
  assert (∀ z, 0 ≤ z →
    rk (mkUF (<[Z.to_nat a:=b]> (parent s)) (<[Z.to_nat b:=v]> (rank s))
             (component_count s - 1)) z = if decide (z = b) then v else rk s z)
    as Hrk.
  { intros z Hz. destruct s as [p r c]. apply rk_insert; simpl in *; lia. }
  split; simpl; rewrite ?length_insert.
  - done.
  - intros i w Hw. destruct (decide (i = Z.to_nat a)) as [->|Hne].
    + rewrite list_lookup_insert_eq in Hw by lia. by simplify_eq.
    + rewrite list_lookup_insert_ne in Hw by done. by eapply inv_parent_range.
  - apply Forall_insert; [apply Hinv|]. pose proof (rk_bounds s Hinv b). lia.
  - intros x y He. pose proof He as [[Hx0 Hxy] _].
    assert (0 ≤ y).
    { destruct (attach_edge_inv _ _ _ _ _ Ha He) as [[_ ->]|[H _]]; [lia|].
      apply (parent_of_range s Hinv) in H. lia. }
    rewrite !Hrk by done.
    destruct (attach_edge_inv _ _ _ _ _ Ha He) as [[-> ->]|He'].
    + rewrite decide_False, decide_True by done. done.
    + pose proof (inv_rank_edge _ Hinv _ _ He').
      rewrite decide_False.
      2:{ intros ->. destruct He' as [Hp Hne]. apply Hne.
          eapply parent_of_det; eauto. }
      case_decide; [subst|]; lia.
  - rewrite (Zsum_insert _ _ (rk s b)) by (apply rk_lookup; lia).
    pose proof (inv_rank_sum _ Hinv). lia.
  - rewrite (inv_count _ Hinv). lia.
Qed.

Lemma link_inv s rx ry :
  uf_inv s → is_root (parent s) rx → is_root (parent s) ry → rx ≠ ry →
  uf_inv (link s rx ry).
Proof.
  intros Hinv Hx Hy Hne. unfold link.
  pose proof (inv_rank_len _ Hinv) as Hlen.
  pose proof (parent_of_lt _ _ _ Hx). pose proof (parent_of_lt _ _ _ Hy).
  repeat case_bool_decide.
  - rewrite <-(list_insert_id (rank s) (Z.to_nat ry) (rk s ry)) at 1
      by (apply rk_lookup; lia).
    apply attach_inv; [done..|lia].
  - rewrite <-(list_insert_id (rank s) (Z.to_nat rx) (rk s rx)) at 1
      by (apply rk_lookup; lia).
    apply attach_inv; [done..|lia|lia].
  - apply attach_inv; [done..|lia|lia].
Qed.

(** After the link every element of the two merged components has the same
    representative, and the other representatives are unchanged. *)
Lemma link_repr s rx ry :
  is_root (parent s) rx → is_root (parent s) ry → rx ≠ ry →
  ∃ w, (w = rx ∨ w = ry) ∧
    ∀ x r, repr (parent s) x r →
      repr (parent (link s rx ry)) x (if decide (r = rx ∨ r = ry) then w else r).
Proof.
  intros Hx Hy Hne. unfold link. repeat case_bool_decide; simpl.
  - exists ry. split; [by right|]. intros x r Hr.
    pose proof (attach_repr _ rx ry Hx Hy Hne x r Hr) as H'.
    repeat case_decide; naive_solver.
  - exists rx. split; [by left|]. intros x r Hr.
    pose proof (attach_repr _ ry rx Hy Hx (not_eq_sym Hne) x r Hr) as H'.
    repeat case_decide; naive_solver.
  - exists rx. split; [by left|]. intros x r Hr.
    pose proof (attach_repr _ ry rx Hy Hx (not_eq_sym Hne) x r Hr) as H'.
    repeat case_decide; naive_solver.
Qed.

(** *** [union] *)

Lemma union_unfold fuel x y s :
  union fuel x y s =
  match find fuel x s with
  | (Ret root_x, s1) =>
      match find fuel y s1 with
      | (Ret root_y, s2) =>
          if bool_decide (root_x = root_y) then (Ret false, s2)
          else union_roots root_x root_y s2
      | (Raise e, s2) => (Raise e, s2)
      | (OutOfFuel, s2) => (OutOfFuel, s2)
      end
  | (Raise e, s1) => (Raise e, s1)
  | (OutOfFuel, s1) => (OutOfFuel, s1)
  end.
Proof.
  unfold union, mbind, M_bind, bind.
  destruct (find fuel x s) as [[rx| |] s1]; [|done..].
  destruct (find fuel y s1) as [[ry| |] s2]; [|done..].
  by case_bool_decide.
Qed.

Ltac run_monad :=
  unfold union_roots, mbind, M_bind, bind, get_rank, set_rank, get_parent,
    set_parent, get_count, set_count, index_result, ret, raise; simpl.

(** With both roots in range the links are those of [link]. *)
Lemma union_roots_link s rx ry :
  length (rank s) = length (parent s) →
  0 ≤ rx < Z.of_nat (length (parent s)) →
  0 ≤ ry < Z.of_nat (length (parent s)) →
  union_roots rx ry s = (Ret true, link s rx ry).
Proof.
  intros Hlen Hx Hy. unfold link. run_monad.
  repeat first
    [ rewrite py_get_nonneg by (simpl; rewrite ?length_insert; lia)
    | rewrite py_set_nonneg by (simpl; rewrite ?length_insert; lia)
    | rewrite rk_lookup by (simpl; rewrite ?length_insert; lia)
    | progress simpl
    | case_bool_decide ];
    done.
Qed.

(** Only a call that returns [True] changes the count, by one; no call
    returns [False] after the roots were found different. *)
Lemma union_roots_count rx ry s o s' :
  union_roots rx ry s = (o, s') →
  (o = Ret true ∧ component_count s' = component_count s - 1) ∨
  (o = Raise IndexError ∧ component_count s' = component_count s).
Proof.
  run_monad. unfold py_set.
  repeat (first
    [ progress simplify_eq/=
    | match goal with
      | |- context [py_get ?l ?i] => destruct (py_get l i) eqn:?
      | |- context [py_index ?l ?i] => destruct (py_index l i) eqn:?
      | |- context [bool_decide ?P] => destruct (bool_decide P) eqn:?
      end ]);
    intros; simplify_eq/=; auto.
Qed.

Lemma union_count fuel x y s o s' :
  union fuel x y s = (o, s') →
  component_count s' = component_count s - merged (RUnion o).
Proof.
  rewrite union_unfold.
  destruct (find fuel x s) as [[rx| |] s1] eqn:H1;
    apply find_frame in H1 as (_ & Hc1 & _); [|intros; simplify_eq/=; lia..].
  destruct (find fuel y s1) as [[ry| |] s2] eqn:H2;
    apply find_frame in H2 as (_ & Hc2 & _); [|intros; simplify_eq/=; lia..].
  case_bool_decide.
  { intros; simplify_eq/=; lia. }
  intros [[-> ?]|[-> ?]]%union_roots_count; simpl; lia.
Qed.

Lemma link_length s rx ry : length (parent (link s rx ry)) = length (parent s).
Proof. unfold link. repeat case_bool_decide; simpl; by rewrite length_insert. Qed.

Lemma repr_root_of p x r : repr p x r → 0 ≤ r < Z.of_nat (length p).
Proof. intros H. eapply parent_of_lt, repr_is_root, H. Qed.

(** A finished call of [union] keeps the invariant and the length. *)
Lemma union_spec s fuel x y o s' :
  uf_inv s → union fuel x y s = (o, s') → o ≠ OutOfFuel →
  uf_inv s' ∧ length (parent s') = length (parent s).
Proof.
  intros Hinv. rewrite union_unfold.
  destruct (find fuel x s) as [[rx| |] s1] eqn:H1;
    [| |intros; by simplify_eq].
  2:{ apply find_spec in H1 as (? & [? _] & _); [|done..]. intros; by simplify_eq. }
  apply find_spec in H1 as (Hinv1 & Hp1 & _ & _ & i & _ & Hrx & _); [|done..].
  destruct (find fuel y s1) as [[ry| |] s2] eqn:H2;
    [| |intros; by simplify_eq].
  2:{ apply find_spec in H2 as (? & [? _] & _); [|done..].
      destruct Hp1. intros; simplify_eq. split; [done|congruence]. }
  apply find_spec in H2 as (Hinv2 & Hp2 & _ & _ & j & _ & Hry & _); [|done..].
  pose proof (same_partition_trans _ _ _ Hp1 Hp2) as Hp.
  assert (length (parent s2) = length (parent s)) as Hlen by apply Hp.
  case_bool_decide as Hne.
  { intros; by simplify_eq. }
  assert (is_root (parent s2) rx).
  { apply (same_partition_root _ _ _ Hp). by eapply repr_is_root. }
  assert (is_root (parent s2) ry).
  { apply (same_partition_root _ _ _ Hp2). by eapply repr_is_root. }
  rewrite union_roots_link;
    [|apply Hinv2|by eapply parent_of_lt|by eapply parent_of_lt].
  intros; simplify_eq. split; [by apply link_inv|].
  by rewrite link_length.
Qed.

(** [union] on two indices in range, with enough fuel. *)
Lemma union_valid s fuel x y i j :
  uf_inv s →
  py_index (length (parent s)) x = Some i →
  py_index (length (parent s)) y = Some j →
  (length (parent s) + 2 ≤ fuel)%nat →
  ∃ rx s1 ry s2,
    find fuel x s = (Ret rx, s1) ∧ find fuel y s1 = (Ret ry, s2) ∧
    repr (parent s) (Z.of_nat i) rx ∧ repr (parent s) (Z.of_nat j) ry ∧
    uf_inv s2 ∧ same_partition (parent s) (parent s2) ∧
    rank s2 = rank s ∧ component_count s2 = component_count s ∧
    union fuel x y s =
      if bool_decide (rx = ry) then (Ret false, s2)
      else (Ret true, link s2 rx ry).
Proof.
  intros Hinv Hi Hj Hfuel.
  destruct (find_valid s fuel x i) as (rx & s1 & H1 & Hrx & _); [done..|].
  pose proof (find_spec _ _ _ _ _ Hinv H1) as (Hinv1 & Hp1 & Hr1 & Hc1 & _);
    [done|].
  pose proof Hp1 as [Hlen1 Hp1'].
  destruct (find_valid s1 fuel y j) as (ry & s2 & H2 & Hry & _);
    [done|by rewrite Hlen1|by rewrite Hlen1|].
  pose proof (find_spec _ _ _ _ _ Hinv1 H2) as (Hinv2 & Hp2 & Hr2 & Hc2 & _);
    [done|].
  pose proof (same_partition_trans _ _ _ Hp1 Hp2) as Hp.
  exists rx, s1, ry, s2. split_and!; try done; try congruence.
  { by apply Hp1'. }
  rewrite union_unfold, H1, H2. case_bool_decide; [done|].
  apply union_roots_link; [apply Hinv2|..].
  - rewrite (proj1 Hp). by eapply repr_root_of.
  - rewrite (proj1 Hp2). by eapply repr_root_of.
Qed.

(** *** The dictionary of [get_component_sizes] *)

Lemma dict_set_elem d k v k' : k' ∈ (dict_set d k v).*1 ↔ k' = k ∨ k' ∈ d.*1.
Proof.
  induction d as [|[k0 v0] d IH]; simpl.
  - rewrite list_elem_of_singleton. set_solver.
  - case_decide; simpl; rewrite !elem_of_cons; [|rewrite IH]; naive_solver.
Qed.

Lemma dict_set_NoDup d k v : NoDup d.*1 → NoDup (dict_set d k v).*1.
Proof.
  induction d as [|[k0 v0] d IH]; simpl; intros Hd.
  - apply NoDup_singleton.
  - apply NoDup_cons in Hd as [Hk0 Hd]. case_decide; simpl.
    + by apply NoDup_cons.
    + apply NoDup_cons. split; [|by apply IH].
      rewrite dict_set_elem. naive_solver.
Qed.

Lemma dict_set_sum d k :
  Zsum (dict_values (dict_set d k (dict_get d k 0 + 1))) = Zsum (dict_values d) + 1.
Proof.
  unfold dict_values, Zsum. induction d as [|[k0 v0] d IH]; [done|].
  cbn [dict_set dict_get]. case_decide; rewrite !fmap_cons; cbn [foldr snd];
    [lia|]. rewrite IH. lia.
Qed.

Lemma dict_values_length (d : dict) : length (dict_values d) = length d.*1.
Proof. unfold dict_values. by rewrite !length_fmap. Qed.

(** *** [get_component_sizes] *)

Lemma sizes_loop_inv fuel idx m s o s' :
  uf_inv s → sizes_loop fuel idx m s = (o, s') → o ≠ OutOfFuel →
  uf_inv s' ∧ length (parent s') = length (parent s).
Proof.
  revert m s. induction idx as [|i idx IH]; intros m s Hinv; simpl.
  { unfold mret, M_ret, ret. intros; by simplify_eq. }
  unfold mbind, M_bind, bind.
  destruct (find fuel i s) as [[r| |] s1] eqn:H1; [| |intros; by simplify_eq].
  - apply find_spec in H1 as (Hinv1 & [Hl _] & _); [|done..].
    intros H Ho. apply IH in H as [? ?]; [|done..]. split; [done|congruence].
  - apply find_spec in H1 as (Hinv1 & [Hl _] & _); [|done..].
    intros; by simplify_eq.
Qed.

Lemma sizes_loop_spec fuel idx : ∀ s m,
  uf_inv s →
  Forall (λ i, 0 ≤ i < Z.of_nat (length (parent s))) idx →
  (length (parent s) + 2 ≤ fuel)%nat →
  ∃ m' s', sizes_loop fuel idx m s = (Ret m', s') ∧
    uf_inv s' ∧ same_partition (parent s) (parent s') ∧
    rank s' = rank s ∧ component_count s' = component_count s ∧
    (NoDup m.*1 → NoDup m'.*1) ∧
    Zsum (dict_values m') = Zsum (dict_values m) + Z.of_nat (length idx) ∧
    (∀ r, r ∈ m'.*1 ↔ r ∈ m.*1 ∨ ∃ i, i ∈ idx ∧ repr (parent s) i r).
Proof.
  induction idx as [|i idx IH]; intros s m Hinv Hidx Hfuel.
  { exists m, s. simpl.
    split_and!; [done|done|apply same_partition_refl|done|done|done|lia|].
    intros r. split; [by left|]. intros [?|(i & Hi & _)]; [done|].
    by apply elem_of_nil in Hi. }
  apply Forall_cons in Hidx as [Hi Hidx]. simpl.
  unfold mbind, M_bind, bind.
  destruct (find_valid s fuel i (Z.to_nat i)) as (r & s1 & H1 & Hr & _);
    [done|by apply py_index_nonneg|done|].
  rewrite Z2Nat.id in Hr by lia.
  pose proof (find_spec _ _ _ _ _ Hinv H1) as (Hinv1 & Hp1 & Hr1 & Hc1 & _);
    [done|].
  rewrite H1. pose proof Hp1 as [Hlen1 Hp1'].
  destruct (IH s1 (dict_set m r (dict_get m r 0 + 1)))
    as (m' & s' & -> & Hinv' & Hp' & Hr' & Hc' & Hnd & Hsum & Hkeys);
    [done|by rewrite Hlen1|by rewrite Hlen1|].
  exists m', s'. split_and!; try done; try congruence.
  - by eapply same_partition_trans.
  - intros Hm. by apply Hnd, dict_set_NoDup.
  - rewrite Hsum, dict_set_sum. simpl length. lia.
  - intros r'. rewrite Hkeys, dict_set_elem. split.
    + intros [[->|?]|(i' & Hi' & Hr'')]; [right|by left|right].
      * exists i. split; [by left|done].
      * exists i'. split; [by right|by apply Hp1'].
    + intros [?|(i' & [->|Hi']%elem_of_cons & Hr'')]; [left; by right| |].
      * left; left. by eapply repr_det.
      * right. exists i'. split; [done|by apply Hp1'].
Qed.

Lemma get_component_sizes_unfold fuel s :
  get_component_sizes fuel s =
  match sizes_loop fuel (py_range 0 (Z.of_nat (length (parent s)))) [] s with
  | (Ret m, s') => (Ret (dict_values m), s')
  | (Raise e, s') => (Raise e, s')
  | (OutOfFuel, s') => (OutOfFuel, s')
  end.
Proof.
  unfold get_component_sizes, mbind, M_bind, bind, len_parent. simpl.
  by destruct (sizes_loop _ _ _ _) as [[m| |] s'].
Qed.

Lemma get_component_sizes_inv fuel s o s' :
  uf_inv s → get_component_sizes fuel s = (o, s') → o ≠ OutOfFuel →
  uf_inv s' ∧ length (parent s') = length (parent s).
Proof.
  intros Hinv. rewrite get_component_sizes_unfold.
  destruct (sizes_loop _ _ _ _) as [[m| |] s1] eqn:H1;
    [| |intros; by simplify_eq].
  - apply sizes_loop_inv in H1; [|done..]. intros; by simplify_eq.
  - apply sizes_loop_inv in H1; [|done..]. intros; by simplify_eq.
Qed.

Lemma py_range_Forall n : Forall (λ i, 0 ≤ i < n) (py_range 0 n).
Proof.
  apply Forall_forall. intros i. unfold py_range. rewrite elem_of_seqZ. lia.
Qed.

(** The keys of the final dictionary are the roots, each once, and the
    sizes add up to the number of elements. *)
Lemma get_component_sizes_spec s fuel :
  uf_inv s → (length (parent s) + 2 ≤ fuel)%nat →
  ∃ m s', get_component_sizes fuel s = (Ret (dict_values m), s') ∧
    uf_inv s' ∧ same_partition (parent s) (parent s') ∧
    rank s' = rank s ∧ component_count s' = component_count s ∧
    NoDup m.*1 ∧ (∀ r, r ∈ m.*1 ↔ is_root (parent s) r) ∧
    Zsum (dict_values m) = Z.of_nat (length (parent s)).
Proof.
  intros Hinv Hfuel. rewrite get_component_sizes_unfold.
  destruct (sizes_loop_spec fuel (py_range 0 (Z.of_nat (length (parent s)))) s [])
    as (m & s' & -> & Hinv' & Hp & Hr & Hc & Hnd & Hsum & Hkeys);
    [done|apply py_range_Forall|done|].
  exists m, s'. split_and!; try done.
  - apply Hnd, NoDup_nil_2.
  - intros r. rewrite Hkeys. split.
    + intros [Hr'|(i & _ & Hi)]; [by apply elem_of_nil in Hr'|].
      by eapply repr_is_root.
    + intros Hroot. right. exists r. split; [|by apply repr_root].
      unfold py_range. rewrite elem_of_seqZ.
      pose proof (parent_of_lt _ _ _ Hroot). lia.
  - rewrite Hsum. unfold py_range. rewrite length_seqZ. simpl. lia.
Qed.

(** *** Reachable states satisfy the invariant *)

Lemma filter_all {A} (P : A → Prop) `{!∀ x, Decision (P x)} (l : list A) :
  (∀ x, x ∈ l → P x) → filter P l = l.
Proof.
  induction l as [|x l IH]; intros Hall; [done|].
  rewrite filter_cons_True by (apply Hall; by left).
  rewrite IH; [done|]. intros y Hy. apply Hall. by right.
Qed.

Lemma Zsum_replicate n : Zsum (replicate n 0) = 0.
Proof. unfold Zsum. induction n as [|n IH]; [done|]. cbn [replicate foldr]. by rewrite IH. Qed.

Lemma init_length size : length (parent (init size)) = Z.to_nat size.
Proof. unfold init, py_range. simpl. rewrite length_seqZ. f_equal. lia. Qed.

Lemma init_lookup size (i : nat) v :
  parent (init size) !! i = Some v ↔ v = Z.of_nat i ∧ Z.of_nat i < size.
Proof.
  unfold init, py_range. simpl. rewrite lookup_seqZ. split; intros [-> ?]; split; lia.
Qed.

Lemma init_inv size : 0 ≤ size → uf_inv (init size).
Proof.
  intros Hsize.
  assert (count_roots (parent (init size)) = Z.to_nat size) as Hcnt.
  { unfold count_roots. rewrite filter_all, length_seq; [apply init_length|].
    intros i Hi%elem_of_seq. apply init_lookup. rewrite init_length in Hi. lia. }
  split; rewrite ?Hcnt, ?init_length.
  - simpl. by rewrite length_replicate.
  - intros i v [-> ?]%init_lookup. lia.
  - simpl. by apply Forall_replicate.
  - intros x y [[H0 Hxy%init_lookup] Hne]. lia.
  - simpl. rewrite Zsum_replicate. lia.
  - simpl. lia.
Qed.

Lemma run_op_inv fuel o s r s' :
  uf_inv s → run_op fuel o s = (r, s') → finished r →
  uf_inv s' ∧ length (parent s') = length (parent s).
Proof.
  intros Hinv. destruct o as [x|x y|]; simpl.
  - destruct (find fuel x s) as [o s1] eqn:H. intros [= <- <-] Ho.
    apply find_spec in H as (? & [? _] & _); done.
  - destruct (union fuel x y s) as [o s1] eqn:H. intros [= <- <-] Ho.
    by apply union_spec in H.
  - destruct (get_component_sizes fuel s) as [o s1] eqn:H. intros [= <- <-] Ho.
    by apply get_component_sizes_inv in H.
Qed.

Lemma reachable_inv size s :
  0 ≤ size → reachable size s →
  uf_inv s ∧ length (parent s) = Z.to_nat size.
Proof.
  intros Hsize. induction 1 as [|fuel o s r s' _ [IH1 IH2] Hrun Hfin].
  - split; [by apply init_inv|apply init_length].
  - apply run_op_inv in Hrun as [? ?]; [|done..]. split; [done|congruence].
Qed.

(** A structure built with a negative size has empty lists and never
    changes. *)
Lemma init_neg size : size < 0 → parent (init size) = [] ∧ rank (init size) = [].
Proof.
  intros H. unfold init, py_range, seqZ. simpl.
  by replace (Z.to_nat (size - 0)) with 0%nat by lia;
     replace (Z.to_nat size) with 0%nat by lia.
Qed.

Lemma find_empty fuel x s o s' :
  parent s = [] → find fuel x s = (o, s') → s' = s.
Proof.
  intros Hp. destruct fuel as [|fuel].
  - simpl. unfold diverge. intros; by simplify_eq.
  - rewrite find_invalid; [intros; by simplify_eq|].
    apply py_index_out. rewrite Hp. simpl. lia.
Qed.

Lemma run_op_empty fuel o s r s' :
  parent s = [] → run_op fuel o s = (r, s') → s' = s.
Proof.
  intros Hp. destruct o as [x|x y|]; simpl.
  - destruct (find fuel x s) as [o s1] eqn:H. intros; simplify_eq.
    by eapply find_empty.
  - rewrite union_unfold. destruct (find fuel x s) as [o s1] eqn:H.
    pose proof (find_empty _ _ _ _ _ Hp H) as ->.
    destruct o as [rx| |]; try (intros; by simplify_eq).
    destruct fuel as [|fuel]; [simpl in H; unfold diverge in H; by simplify_eq|].
    rewrite find_invalid in H
      by (apply py_index_out; rewrite Hp; simpl; lia).
    by simplify_eq.
  - rewrite get_component_sizes_unfold, Hp. simpl.
    unfold mret, M_ret, ret. intros; by simplify_eq.
Qed.

Lemma reachable_neg size s : size < 0 → reachable size s → s = init size.
Proof.
  intros Hsize. induction 1 as [|fuel o s r s' _ IH Hrun _]; [done|].
  subst s. apply run_op_empty in Hrun; [done|]. by apply init_neg.
Qed.

Lemma reachable_forest size s : reachable size s → forest (parent s).
Proof.
  intros Hs. destruct (decide (0 ≤ size)) as [Hsize|Hsize].
  - apply inv_forest. by apply (reachable_inv size).
  - apply reachable_neg in Hs as ->; [|lia].
    destruct (init_neg size) as [-> _]; [lia|]. split.
    + simpl. lia.
    + intros x H. assert (∀ y z, tc (edge []) y z → False) as Hno; [|by eapply Hno].
      induction 1 as [? ? [[_ H'] _]|? ? ? [[_ H'] _]]; by rewrite lookup_nil in H'.
Qed.

(** *** The structure with a chain *)

Lemma reachable_run_ops size fuel ops s :
  reachable size s → Forall finished (run_ops fuel ops s).1 →
  reachable size (run_ops fuel ops s).2.
Proof.
  revert s. induction ops as [|o ops IH]; intros s Hs; [done|].
  simpl. destruct (run_op fuel o s) as [r s1] eqn:H1.
  specialize (IH s1).
  destruct (run_ops fuel ops s1) as [rs s2] eqn:H2. simpl in *.
  intros [Hr Hrs]%Forall_cons. apply IH; [|done].
  by eapply reachable_step.
Qed.

Example chain_state_example :
  chain_state = mkUF [0; 0; 0; 2; 4] [2; 0; 1; 0; 0] 2 ∧
  flat_state = mkUF [0; 0; 0; 0; 4] [2; 0; 1; 0; 0] 2 ∧
  find 7 3 chain_state = (Ret 0, flat_state) ∧
  get_component_sizes 7 chain_state = (Ret [4; 1], flat_state).
Proof. split_and!; reflexivity. Qed.

Lemma chain_state_reachable : reachable 5 chain_state.
Proof.
  apply reachable_run_ops; [apply reachable_init|].
  repeat constructor; done.
Qed.

Lemma flat_state_reachable : reachable 5 flat_state.
Proof.
  apply reachable_run_ops; [apply reachable_init|].
  repeat constructor; done.
Qed.

Lemma chain_flat_partition :
  same_partition (parent chain_state) (parent flat_state).
Proof.
  destruct (reachable_inv 5 chain_state) as [Hinv _];
    [lia|apply chain_state_reachable|].
  by destruct (find_spec chain_state 7 3 (Ret 0) flat_state) as (_ & Hp & _).
Qed.

(** C8: in every state reachable from [UnionFind(size)] by calls of [find],
    [union] and [get_component_sizes] (whatever their arguments and whatever
    they returned or raised), the parent list is a forest: every index
    reaches a root along the parent pointers, and no chain of parent pointers
    that leaves an index returns to it.  Therefore [find(x)] returns, with
    the root of [x], for every index [0 <= x < size], as soon as the fuel
    exceeds [size + 1]. *)
Theorem find_terminates_on_reachable_states size s :
  reachable size s →
  forest (parent s) ∧
  ∀ x fuel, 0 ≤ x < size → (Z.to_nat size + 2 ≤ fuel)%nat →
    ∃ r s', find fuel x s = (Ret r, s') ∧ repr (parent s) x r ∧
            is_root (parent s) r ∧ reachable size s'.
Proof.
  intros Hs. split; [by eapply reachable_forest|].
  intros x fuel Hx Hfuel.
  destruct (reachable_inv size s) as [Hinv Hlen]; [lia|done|].
  destruct (find_valid s fuel x (Z.to_nat x)) as (r & s' & Hf & Hr & _);
    [done|apply py_index_nonneg; lia|lia|].
  rewrite Z2Nat.id in Hr by lia.
  exists r, s'. split_and!; [done|done|by eapply repr_is_root|].
  eapply (reachable_step size fuel (Find x)); [done| |].
  - simpl. by rewrite Hf.
  - done.
Qed.

Lemma find_terminates_witness :
  reachable 5 chain_state ∧
  (forest (parent chain_state) ∧
   ∀ x fuel, 0 ≤ x < 5 → (Z.to_nat 5 + 2 ≤ fuel)%nat →
     ∃ r s', find fuel x chain_state = (Ret r, s') ∧
             repr (parent chain_state) x r ∧
             is_root (parent chain_state) r ∧ reachable 5 s').
Proof.
  split; [apply chain_state_reachable|].
  apply (find_terminates_on_reachable_states 5 chain_state),
    chain_state_reachable.
Defined.

(** *** The component count along a run *)

Lemma sizes_loop_count fuel idx m s o s' :
  sizes_loop fuel idx m s = (o, s') → component_count s' = component_count s.
Proof.
  revert m s. induction idx as [|i idx IH]; intros m s; simpl.
  { unfold mret, M_ret, ret. intros; by simplify_eq. }
  unfold mbind, M_bind, bind.
  destruct (find fuel i s) as [[r| |] s1] eqn:H1;
    apply find_frame in H1 as (_ & Hc & _); [|intros; by simplify_eq..].
  intros H%IH. congruence.
Qed.

Lemma run_op_count fuel o s r s' :
  run_op fuel o s = (r, s') →
  component_count s' = component_count s - merged r.
Proof.
  destruct o as [x|x y|]; simpl.
  - destruct (find fuel x s) as [o s1] eqn:H. intros; simplify_eq/=.
    apply find_frame in H as (_ & -> & _). lia.
  - destruct (union fuel x y s) as [o s1] eqn:H. intros; simplify_eq.
    by eapply union_count.
  - rewrite get_component_sizes_unfold.
    destruct (sizes_loop _ _ _ _) as [[m| |] s1] eqn:H;
      apply sizes_loop_count in H; intros; simplify_eq/=; lia.
Qed.

Lemma run_ops_count fuel ops s :
  component_count (run_ops fuel ops s).2 =
  component_count s - successful_unions (run_ops fuel ops s).1.
Proof.
  revert s. induction ops as [|o ops IH]; intros s; simpl; [lia|].
  destruct (run_op fuel o s) as [r s1] eqn:H1.
  specialize (IH s1). destruct (run_ops fuel ops s1) as [rs s2]. simpl in *.
  apply run_op_count in H1. lia.
Qed.

Lemma run_ops_app fuel ops1 ops2 s :
  run_ops fuel (ops1 ++ ops2) s =
  ((run_ops fuel ops1 s).1 ++ (run_ops fuel ops2 (run_ops fuel ops1 s).2).1,
   (run_ops fuel ops2 (run_ops fuel ops1 s).2).2).
Proof.
  revert s. induction ops1 as [|o ops1 IH]; intros s; simpl.
  { by destruct (run_ops fuel ops2 s). }
  destruct (run_op fuel o s) as [r s1]. rewrite IH.
  by destruct (run_ops fuel ops1 s1).
Qed.

Lemma successful_unions_nonneg rs : 0 ≤ successful_unions rs.
Proof.
  induction rs as [|r rs IH]; simpl; [done|].
  assert (0 ≤ merged r); [|lia]. by destruct r as [| [[]| |] |].
Qed.

(** C3: a new structure of [n] elements has count [n]; after any sequence of
    operations the count is [n] minus the number of [union] calls that
    returned [True]; and the count never grows when the sequence is
    extended. *)
Theorem component_count_is_size_minus_unions fuel n ops :
  component_count (init n) = n ∧
  component_count (run_ops fuel ops (init n)).2 =
    n - successful_unions (run_ops fuel ops (init n)).1 ∧
  ∀ ops', component_count (run_ops fuel (ops ++ ops') (init n)).2
          ≤ component_count (run_ops fuel ops (init n)).2.
Proof.
  split_and!; [done|by rewrite run_ops_count|].
  intros ops'. rewrite run_ops_app. simpl. rewrite (run_ops_count _ ops').
  pose proof (successful_unions_nonneg
    (run_ops fuel ops' (run_ops fuel ops (init n)).2).1). lia.
Qed.

(** *** Component sizes *)

Lemma roots_length (p : list Z) (ks : list Z) :
  NoDup ks → (∀ r, r ∈ ks ↔ is_root p r) → length ks = count_roots p.
Proof.
  intros Hnd Hks. unfold count_roots.
  rewrite <-(length_fmap Z.of_nat (filter _ _)).
  apply Permutation_length, NoDup_Permutation; [done|..].
  - apply (NoDup_fmap_2 _), NoDup_filter, NoDup_seq.
  - intros r. rewrite Hks, list_elem_of_fmap. split.
    + intros Hr. pose proof (parent_of_lt _ _ _ Hr) as Hlt.
      destruct Hr as [H0 Hr]. exists (Z.to_nat r).
      rewrite list_elem_of_filter, elem_of_seq, Z2Nat.id by done.
      split_and!; [done|done|lia|lia].
    + intros (i & -> & [Hi _]%list_elem_of_filter). by apply parent_of_nat.
Qed.

(** C7: in every reachable state of a structure of [size] elements,
    [get_component_sizes] returns a list whose sum is [size]; the list holds
    the values of a dictionary whose keys are exactly the roots of the
    state, each once, so it has one entry per root, as many as the
    component count. *)
Theorem component_sizes_sum_to_size size s fuel :
  0 ≤ size → reachable size s → (Z.to_nat size + 2 ≤ fuel)%nat →
  ∃ size_map s',
    get_component_sizes fuel s = (Ret (dict_values size_map), s') ∧
    Zsum (dict_values size_map) = size ∧
    NoDup size_map.*1 ∧
    (∀ r, r ∈ size_map.*1 ↔ is_root (parent s) r) ∧
    length (dict_values size_map) = count_roots (parent s) ∧
    Z.of_nat (length (dict_values size_map)) = component_count s.
Proof.
  intros Hsize Hs Hfuel.
  destruct (reachable_inv size s) as [Hinv Hlen]; [done..|].
  destruct (get_component_sizes_spec s fuel) as
    (m & s' & Hg & _ & _ & _ & _ & Hnd & Hkeys & Hsum); [done|lia|].
  exists m, s'.
  assert (length (dict_values m) = count_roots (parent s)) as Hcnt.
  { rewrite dict_values_length. by apply roots_length. }
  split_and!; try done.
  - rewrite Hsum, Hlen. lia.
  - by rewrite Hcnt, (inv_count _ Hinv).
Qed.

Lemma component_sizes_witness :
  ∃ size_map s',
    get_component_sizes 7 chain_state = (Ret (dict_values size_map), s') ∧
    Zsum (dict_values size_map) = 5 ∧
    NoDup size_map.*1 ∧
    (∀ r, r ∈ size_map.*1 ↔ is_root (parent chain_state) r) ∧
    length (dict_values size_map) = count_roots (parent chain_state) ∧
    Z.of_nat (length (dict_values size_map)) = component_count chain_state.
Proof.
  apply (component_sizes_sum_to_size 5 chain_state 7);
    [lia|apply chain_state_reachable|simpl; lia].
Defined.

(** *** Union by rank *)

(** C1, as the specification states it, fails: in [UnionFind(2)] both roots
    have rank 0, and [union(0, 1)] makes 0, the root of the tree of the first
    argument, the new root with rank 1; 1, the root of the tree of the second
    argument, stops being a root and keeps rank 0. *)
Lemma union_tie_keeps_root_of_x :
  find 4 0 (init 2) = (Ret 0, init 2) ∧
  find 4 1 (init 2) = (Ret 1, init 2) ∧
  rk (init 2) 0 = rk (init 2) 1 ∧
  union 4 0 1 (init 2) = (Ret true, mkUF [0; 0] [1; 0] 1) ∧
  is_root [0; 0] 0 ∧ ¬ is_root [0; 0] 1.
Proof.
  split_and!; try reflexivity.
  - by split.
  - intros [_ H]. discriminate H.
Qed.

(** C1, amended: let [root_x] and [root_y] be the roots that the two [find]
    calls of [union(x, y)] return, and let them differ.  The call returns
    [True].  With different ranks the root of strictly smaller rank gets the
    other root as parent and no rank changes.  With equal ranks [root_y]
    gets [root_x] as parent: the new root is the root of the tree of [x], and
    its rank grows by exactly one. *)
Theorem union_by_rank size s x y fuel :
  0 ≤ size → reachable size s → 0 ≤ x < size → 0 ≤ y < size →
  (Z.to_nat size + 2 ≤ fuel)%nat →
  ∃ root_x s1 root_y s2,
    find fuel x s = (Ret root_x, s1) ∧ find fuel y s1 = (Ret root_y, s2) ∧
    is_root (parent s2) root_x ∧ is_root (parent s2) root_y ∧
    (root_x ≠ root_y →
     ∃ s', union fuel x y s = (Ret true, s') ∧
       (rk s2 root_x < rk s2 root_y →
        parent s' = <[Z.to_nat root_x:=root_y]> (parent s2) ∧
        rank s' = rank s2 ∧ is_root (parent s') root_y) ∧
       (rk s2 root_y < rk s2 root_x →
        parent s' = <[Z.to_nat root_y:=root_x]> (parent s2) ∧
        rank s' = rank s2 ∧ is_root (parent s') root_x) ∧
       (rk s2 root_x = rk s2 root_y →
        parent s' = <[Z.to_nat root_y:=root_x]> (parent s2) ∧
        rank s' = <[Z.to_nat root_x:=rk s2 root_x + 1]> (rank s2) ∧
        is_root (parent s') root_x ∧ rk s' root_x = rk s2 root_x + 1)).
Proof.
  intros Hsize Hs Hx Hy Hfuel.
  destruct (reachable_inv size s) as [Hinv Hlen]; [done..|].
  destruct (union_valid s fuel x y (Z.to_nat x) (Z.to_nat y))
    as (rx & s1 & ry & s2 & H1 & H2 & Hrx & Hry & Hinv2 & Hp & _ & _ & Hu);
    [done|apply py_index_nonneg; lia|apply py_index_nonneg; lia|lia|].
  assert (is_root (parent s2) rx) as Hrootx.
  { apply (same_partition_root _ _ _ Hp). by eapply repr_is_root. }
  assert (is_root (parent s2) ry) as Hrooty.
  { apply (same_partition_root _ _ _ Hp). by eapply repr_is_root. }
  exists rx, s1, ry, s2. split_and!; try done.
  intros Hne. rewrite bool_decide_false in Hu by done.
  exists (link s2 rx ry). split; [done|].
  pose proof (parent_of_lt _ _ _ Hrootx) as Hxlt.
  pose proof (inv_rank_len _ Hinv2) as Hrlen.
  unfold link. split_and!; intros Hrk.
  - rewrite bool_decide_true by done. simpl. split_and!; try done.
    apply attach_root; done.
  - rewrite bool_decide_false, bool_decide_true by lia. simpl.
    split_and!; try done. apply attach_root; done.
  - rewrite !bool_decide_false by lia. simpl. split_and!; try done.
    + apply attach_root; done.
    + unfold rk at 1. simpl. by rewrite list_lookup_insert_eq by lia.
Qed.

Lemma union_by_rank_witness :
  ∃ root_x s1 root_y s2,
    find 4 0 (init 2) = (Ret root_x, s1) ∧ find 4 1 s1 = (Ret root_y, s2) ∧
    is_root (parent s2) root_x ∧ is_root (parent s2) root_y ∧
    (root_x ≠ root_y →
     ∃ s', union 4 0 1 (init 2) = (Ret true, s') ∧
       (rk s2 root_x < rk s2 root_y →
        parent s' = <[Z.to_nat root_x:=root_y]> (parent s2) ∧
        rank s' = rank s2 ∧ is_root (parent s') root_y) ∧
       (rk s2 root_y < rk s2 root_x →
        parent s' = <[Z.to_nat root_y:=root_x]> (parent s2) ∧
        rank s' = rank s2 ∧ is_root (parent s') root_x) ∧
       (rk s2 root_x = rk s2 root_y →
        parent s' = <[Z.to_nat root_y:=root_x]> (parent s2) ∧
        rank s' = <[Z.to_nat root_x:=rk s2 root_x + 1]> (rank s2) ∧
        is_root (parent s') root_x ∧ rk s' root_x = rk s2 root_x + 1)).
Proof.
  apply (union_by_rank 2 (init 2) 0 1 4);
    [lia|apply reachable_init|lia|lia|simpl; lia].
Defined.

(** *** [union] joins, and a second [union] only compresses paths *)

Lemma union_joins s fuel x y :
  uf_inv s →
  0 ≤ x < Z.of_nat (length (parent s)) → 0 ≤ y < Z.of_nat (length (parent s)) →
  (length (parent s) + 2 ≤ fuel)%nat →
  ∃ b s1, union fuel x y s = (Ret b, s1) ∧ uf_inv s1 ∧
    length (parent s1) = length (parent s) ∧
    ∃ r, repr (parent s1) x r ∧ repr (parent s1) y r.
Proof.
  intros Hinv Hx Hy Hfuel.
  destruct (union_valid s fuel x y (Z.to_nat x) (Z.to_nat y))
    as (rx & s1 & ry & s2 & H1 & H2 & Hrx & Hry & Hinv2 & Hp & _ & _ & Hu);
    [done|apply py_index_nonneg; lia|apply py_index_nonneg; lia|lia|].
  rewrite Z2Nat.id in Hrx, Hry by lia.
  pose proof Hp as [Hlen Hp']. apply Hp' in Hrx, Hry.
  case_bool_decide as Heq.
  - subst ry. exists false, s2. split_and!; try done. by exists rx.
  - exists true, (link s2 rx ry).
    assert (is_root (parent s2) rx) by (by eapply repr_is_root).
    assert (is_root (parent s2) ry) by (by eapply repr_is_root).
    split_and!; [done|by apply link_inv|by rewrite link_length|].
    destruct (link_repr s2 rx ry) as (w & _ & Hw); [done..|].
    exists w. split.
    + specialize (Hw _ _ Hrx). rewrite decide_True in Hw by (by left). done.
    + specialize (Hw _ _ Hry). rewrite decide_True in Hw by (by right). done.
Qed.

Lemma union_same_component s fuel x y r :
  uf_inv s →
  0 ≤ x < Z.of_nat (length (parent s)) → 0 ≤ y < Z.of_nat (length (parent s)) →
  (length (parent s) + 2 ≤ fuel)%nat →
  repr (parent s) x r → repr (parent s) y r →
  ∃ s', union fuel x y s = (Ret false, s') ∧
    component_count s' = component_count s ∧ rank s' = rank s ∧
    same_partition (parent s) (parent s').
Proof.
  intros Hinv Hx Hy Hfuel Hxr Hyr.
  destruct (union_valid s fuel x y (Z.to_nat x) (Z.to_nat y))
    as (rx & s1 & ry & s2 & H1 & H2 & Hrx & Hry & Hinv2 & Hp & Hr & Hc & Hu);
    [done|apply py_index_nonneg; lia|apply py_index_nonneg; lia|lia|].
  rewrite Z2Nat.id in Hrx, Hry by lia.
  rewrite (repr_det _ _ _ _ Hrx Hxr), (repr_det _ _ _ _ Hry Hyr) in Hu.
  rewrite bool_decide_true in Hu by done. by exists s2.
Qed.

(** C4, as the specification states it, fails: in [UnionFind(4)] after
    [union(0, 1)] and [union(2, 3)], the call [union(1, 3)] returns [True];
    the repeated [union(1, 3)] returns [False] and keeps the count, but its
    [find(3)] compresses the path of 3, so the parent list changes from
    [[0, 0, 0, 2]] to [[0, 0, 0, 0]]. *)
Lemma repeated_union_changes_parents :
  let s := (run_ops 6 [Union 0 1; Union 2 3] (init 4)).2 in
  let s1 := mkUF [0; 0; 0; 2] [2; 0; 1; 0] 1 in
  let s2 := mkUF [0; 0; 0; 0] [2; 0; 1; 0] 1 in
  reachable 4 s1 ∧
  union 6 1 3 s = (Ret true, s1) ∧
  union 6 1 3 s1 = (Ret false, s2) ∧
  s2 ≠ s1.
Proof.
  split_and!; try reflexivity; [|discriminate].
  eapply (reachable_step 4 6 (Union 1 3) (mkUF [0; 0; 2; 2] [1; 0; 1; 0] 2));
    [|reflexivity|done].
  eapply (reachable_step 4 6 (Union 2 3) (mkUF [0; 0; 2; 3] [1; 0; 0; 0] 3));
    [|reflexivity|done].
  eapply (reachable_step 4 6 (Union 0 1) (init 4)); [|reflexivity|done].
  apply reachable_init.
Qed.

(** C4, amended: for indices [x] and [y] in range, [union(x, y)] returns,
    and afterwards [find(x)] and [find(y)] return the same root.  Whenever
    [x] and [y] have the same representative, as they do after
    [union(x, y)], [union(x, y)] returns [False] and leaves the component
    count, the ranks and the representative of every element unchanged;
    only parent pointers may be redirected to their roots by the path
    compression of the two [find] calls. *)
Theorem union_joins_and_repeats size s x y fuel :
  0 ≤ size → reachable size s → 0 ≤ x < size → 0 ≤ y < size →
  (Z.to_nat size + 2 ≤ fuel)%nat →
  (∃ b s1, union fuel x y s = (Ret b, s1) ∧
     (∃ r s2 s3, find fuel x s1 = (Ret r, s2) ∧ find fuel y s2 = (Ret r, s3)) ∧
     (∃ s1', union fuel x y s1 = (Ret false, s1') ∧
        component_count s1' = component_count s1 ∧ rank s1' = rank s1 ∧
        same_partition (parent s1) (parent s1'))) ∧
  (∀ r, repr (parent s) x r → repr (parent s) y r →
     ∃ s', union fuel x y s = (Ret false, s') ∧
       component_count s' = component_count s ∧ rank s' = rank s ∧
       same_partition (parent s) (parent s')).
Proof.
  intros Hsize Hs Hx Hy Hfuel.
  destruct (reachable_inv size s) as [Hinv Hlen]; [done..|].
  split; [|intros r; apply union_same_component; (done || lia)].
  destruct (union_joins s fuel x y) as (b & s1 & Hu & Hinv1 & Hlen1 & r & Hxr & Hyr);
    [done|lia|lia|lia|].
  exists b, s1. split_and!; [done| |].
  - destruct (find_valid s1 fuel x (Z.to_nat x)) as (r1 & s2 & H1 & Hr1 & _);
      [done|apply py_index_nonneg; lia|lia|].
    pose proof (find_spec _ _ _ _ _ Hinv1 H1) as (Hinv2 & Hp2 & _); [done|].
    destruct (find_valid s2 fuel y (Z.to_nat y)) as (r2 & s3 & H2 & Hr2 & _);
      [done|apply py_index_nonneg; rewrite (proj1 Hp2); lia
      |rewrite (proj1 Hp2); lia|].
    rewrite Z2Nat.id in Hr1, Hr2 by lia.
    apply (proj2 Hp2) in Hr2.
    rewrite <-(repr_det _ _ _ _ Hxr Hr1) in H1.
    rewrite <-(repr_det _ _ _ _ Hyr Hr2) in H2. eauto.
  - apply (union_same_component s1 fuel x y r); (done || lia).
Qed.

Lemma union_joins_and_repeats_witness :
  (∃ b s1, union 6 1 3 (init 4) = (Ret b, s1) ∧
     (∃ r s2 s3, find 6 1 s1 = (Ret r, s2) ∧ find 6 3 s2 = (Ret r, s3)) ∧
     (∃ s1', union 6 1 3 s1 = (Ret false, s1') ∧
        component_count s1' = component_count s1 ∧ rank s1' = rank s1 ∧
        same_partition (parent s1) (parent s1'))) ∧
  (∀ r, repr (parent (init 4)) 1 r → repr (parent (init 4)) 3 r →
     ∃ s', union 6 1 3 (init 4) = (Ret false, s') ∧
       component_count s' = component_count (init 4) ∧ rank s' = rank (init 4) ∧
       same_partition (parent (init 4)) (parent s')).
Proof.
  apply (union_joins_and_repeats 4 (init 4) 1 3 6);
    [lia|apply reachable_init|lia|lia|simpl; lia].
Defined.

(** *** Indices out of range *)

(** A negative index in range is the index counted from the end. *)
Lemma find_negative_index s fuel x :
  (∀ (i : nat) v, parent s !! i = Some v → 0 ≤ v) →
  - Z.of_nat (length (parent s)) ≤ x < 0 → (1 ≤ fuel)%nat →
  find (S fuel) x s = find (S fuel) (x + Z.of_nat (length (parent s))) s.
Proof.
  intros Hpos Hx Hfuel. set (n := length (parent s)).
  assert (py_index n x = Some (Z.to_nat (x + Z.of_nat n))) as Hi
    by (apply py_index_neg; lia).
  assert (py_index n (x + Z.of_nat n) = Some (Z.to_nat (x + Z.of_nat n))) as Hi'
    by (apply py_index_nonneg; lia).
  rewrite (find_unfold fuel x), (find_unfold fuel (x + Z.of_nat n)).
  unfold py_get at 1 3. fold n. rewrite Hi, Hi'. simpl.
  destruct (parent s !! Z.to_nat (x + Z.of_nat n)) as [y|] eqn:Hy; [|done].
  pose proof (Hpos _ _ Hy). rewrite bool_decide_true by lia.
  case_bool_decide as Hne.
  - destruct (find fuel y s) as [[r| |] s1] eqn:H1; [|done..].
    apply find_frame in H1 as (_ & _ & Hlen).
    unfold py_set, py_get. rewrite ?length_insert, Hlen. fold n.
    rewrite Hi, Hi'. simpl. rewrite !length_insert, Hlen. fold n.
    by rewrite Hi, Hi'.
  - subst y. destruct fuel as [|fuel]; [lia|].
    rewrite find_unfold. unfold py_get at 1. fold n. rewrite Hi'. simpl.
    rewrite Hy, bool_decide_false by (intros ?; done).
    unfold py_set, py_get. fold n. rewrite Hi. simpl.
    rewrite list_insert_id by done. fold n. rewrite Hi. simpl. rewrite Hy.
    by destruct s.
Qed.

(** C5, as the specification states it, fails: -1 is outside [0, 1), and
    [find(-1)] on [UnionFind(1)] returns the representative 0. *)
Lemma find_negative_index_returns :
  ¬ (0 ≤ -1 < 1) ∧ find 3 (-1) (init 1) = (Ret 0, init 1).
Proof. split; [lia|reflexivity]. Qed.

(** C5, amended: for a structure of [size] elements, [find(x)] raises
    [IndexError], without changing the structure, for every [x >= size] and
    every [x < -size]; for [-size <= x < 0] Python's indexing from the end
    makes [find(x)] behave as [find(x + size)] and return the representative
    of the element [x + size]. *)
Theorem find_index_error size s :
  0 ≤ size → reachable size s →
  (∀ x fuel, x < - size ∨ size ≤ x → find (S fuel) x s = (Raise IndexError, s)) ∧
  (∀ x fuel, - size ≤ x < 0 → (Z.to_nat size + 2 ≤ fuel)%nat →
     find fuel x s = find fuel (x + size) s ∧
     ∃ r s', find fuel x s = (Ret r, s') ∧ repr (parent s) (x + size) r).
Proof.
  intros Hsize Hs.
  destruct (reachable_inv size s) as [Hinv Hlen]; [done..|].
  split.
  - intros x fuel Hx. apply find_invalid, py_index_out. lia.
  - intros x fuel Hx Hfuel. split.
    + destruct fuel as [|fuel]; [lia|].
      replace size with (Z.of_nat (length (parent s))) at 1 by lia.
      apply find_negative_index; [|lia..].
      intros i v Hv. by apply (inv_parent_range _ Hinv) in Hv as [? _].
    + destruct (find_valid s fuel x (Z.to_nat (x + size)))
        as (r & s' & Hf & Hr & _); [done| |lia|].
      { rewrite py_index_neg by lia. do 2 f_equal. lia. }
      rewrite Z2Nat.id in Hr by lia. eauto.
Qed.

Lemma find_index_error_witness :
  (∀ x fuel, x < - 1 ∨ 1 ≤ x → find (S fuel) x (init 1) = (Raise IndexError, init 1)) ∧
  (∀ x fuel, - 1 ≤ x < 0 → (Z.to_nat 1 + 2 ≤ fuel)%nat →
     find fuel x (init 1) = find fuel (x + 1) (init 1) ∧
     ∃ r s', find fuel x (init 1) = (Ret r, s') ∧ repr (parent (init 1)) (x + 1) r).
Proof.
  apply (find_index_error 1 (init 1)); [lia|apply reachable_init].
Defined.

(** *** The degenerate structure of one element *)

(** C6, as the specification states it, fails: with one point and the empty
    pair list [solve_part2] does not complete, it raises [ValueError]. *)
Lemma solve_part2_single_point_raises :
  solve_part2 3 [(7, 0, 0)] ([] : list (Z * Z * Z)) = Raise ValueError.
Proof. reflexivity. Qed.

(** C6, amended: for a structure of one element [get_component_sizes]
    returns [[1]]; [solve_part2] on one point and the empty pair list calls
    [union] on no pair and reads no element of the pair list, and raises
    [ValueError] ("Failed to unify all coordinates into single component")
    instead of completing. *)
Theorem single_element_structure {float} fuel (c : Coordinate) :
  get_component_sizes (S fuel) (init 1) = (Ret [1], init 1) ∧
  scan_pairs fuel [c] ([] : list (float * Z * Z)) (init 1)
    = (Raise ValueError, init 1) ∧
  solve_part2 fuel [c] ([] : list (float * Z * Z)) = Raise ValueError.
Proof.
  split_and!; [|done..].
  rewrite get_component_sizes_unfold.
  change (py_range 0 (Z.of_nat (length (parent (init 1))))) with [0].
  cbn [sizes_loop]. unfold mbind, M_bind, bind. by rewrite find_unfold.
Qed.

(** *** The full scan of [solve_part2] *)

Lemma scan_pairs_cons {float} fuel coords (d : float) i j rest s :
  scan_pairs fuel coords ((d, i, j) :: rest) s =
  match union fuel i j s with
  | (Ret unified, s') =>
      if unified && bool_decide (component_count s' = 1) then
        match py_get coords i with
        | Some c1 =>
            match py_get coords j with
            | Some c2 => (Ret (coord_x c1 * coord_x c2), s')
            | None => (Raise IndexError, s')
            end
        | None => (Raise IndexError, s')
        end
      else scan_pairs fuel coords rest s'
  | (Raise e, s') => (Raise e, s')
  | (OutOfFuel, s') => (OutOfFuel, s')
  end.
Proof.
  cbn [scan_pairs]. unfold mbind, M_bind, bind, get_count.
  destruct (union fuel i j s) as [[b| |] s']; [|done..].
  destruct (b && bool_decide (component_count s' = 1)); [|done].
  unfold index_result.
  destruct (py_get coords i); [|done]. by destruct (py_get coords j).
Qed.

Lemma find_raise fuel x s e s' :
  find fuel x s = (Raise e, s') → e = IndexError.
Proof.
  revert x s e s'. induction fuel as [|fuel IH]; intros x s e s'; [done|].
  rewrite find_unfold. destruct (py_get (parent s) x) as [px|]; [|by intros [= <- _]].
  case_bool_decide; [|done].
  destruct (find fuel px s) as [[r| |] s1] eqn:H1; [| |done].
  - destruct (py_set _ _ _); [|by intros [= <- _]].
    destruct (py_get _ _); [done|by intros [= <- _]].
  - apply IH in H1 as ->. by intros [= <- _].
Qed.

Lemma union_raise fuel x y s e s' :
  union fuel x y s = (Raise e, s') → e = IndexError.
Proof.
  rewrite union_unfold.
  destruct (find fuel x s) as [[rx| |] s1] eqn:H1; [| |done].
  2:{ apply find_raise in H1 as ->. by intros [= <- _]. }
  destruct (find fuel y s1) as [[ry| |] s2] eqn:H2; [| |done].
  2:{ apply find_raise in H2 as ->. by intros [= <- _]. }
  case_bool_decide; [done|].
  intros [[? _]|[? _]]%union_roots_count; by simplify_eq.
Qed.

Section scan.
Context {float : Type} (fuel : nat) (coords : list Coordinate).
Implicit Types pairs : list (float * Z * Z).

(** The scan returns at the first pair whose [union] returns [True] and
    leaves one component. *)
Lemma scan_pairs_Ret pairs s v :
  (scan_pairs fuel coords pairs s).1 = Ret v ↔
  ∃ pre d i j post s1 s2 ci cj,
    pairs = pre ++ (d, i, j) :: post ∧
    scan_prefix fuel pre s = Some s1 ∧
    union fuel i j s1 = (Ret true, s2) ∧ component_count s2 = 1 ∧
    py_get coords i = Some ci ∧ py_get coords j = Some cj ∧
    v = coord_x ci * coord_x cj.
Proof.
  revert s. induction pairs as [|[[d i] j] rest IH]; intros s.
  { split; [done|]. intros (pre & ? & ? & ? & ? & ? & ? & ? & ? & H & _).
    by destruct pre. }
  rewrite scan_pairs_cons.
  destruct (union fuel i j s) as [[b| |] s'] eqn:Hu.
  - destruct (b && bool_decide (component_count s' = 1)) eqn:Hb.
    + apply andb_prop in Hb as [-> Hc%bool_decide_eq_true]. split.
      * destruct (py_get coords i) as [ci|] eqn:Hi; [|done].
        destruct (py_get coords j) as [cj|] eqn:Hj; [|done].
        simpl. intros [= <-]. by exists [], d, i, j, rest, s, s', ci, cj.
      * intros (pre & d' & i' & j' & post & s1 & s2 & ci & cj
                & Hp & Hpre & Hu' & Hc' & Hi & Hj & ->).
        destruct pre as [|[[d0 i0] j0] pre]; simplify_eq/=.
        -- by rewrite Hi, Hj.
        -- rewrite Hu in Hpre. simpl in Hpre.
           rewrite bool_decide_true in Hpre by done. done.
    + rewrite IH. split.
      * intros (pre & d' & i' & j' & post & s1 & s2 & ci & cj
                & -> & Hpre & Hrest).
        exists ((d, i, j) :: pre), d', i', j', post, s1, s2, ci, cj.
        split; [done|]. split; [|done]. simpl. by rewrite Hu, Hb.
      * intros (pre & d' & i' & j' & post & s1 & s2 & ci & cj
                & Hp & Hpre & Hu' & Hc' & Hrest).
        destruct pre as [|[[d0 i0] j0] pre]; simplify_eq/=.
        -- rewrite Hu' in Hu. simplify_eq/=.
           rewrite bool_decide_true in Hb by done. done.
        -- rewrite Hu, Hb in Hpre.
           by exists pre, d', i', j', post, s1, s2, ci, cj.
  - split; [done|].
    intros (pre & d' & i' & j' & post & s1 & s2 & ci & cj
            & Hp & Hpre & Hu' & _).
    destruct pre as [|[[d0 i0] j0] pre]; simplify_eq/=;
      try (by rewrite Hu in Hpre); congruence.
  - split; [done|].
    intros (pre & d' & i' & j' & post & s1 & s2 & ci & cj
            & Hp & Hpre & Hu' & _).
    destruct pre as [|[[d0 i0] j0] pre]; simplify_eq/=;
      try (by rewrite Hu in Hpre); congruence.
Qed.

(** The scan raises [ValueError] exactly when it exhausts the list. *)
Lemma scan_pairs_ValueError pairs s :
  (scan_pairs fuel coords pairs s).1 = Raise ValueError ↔
  is_Some (scan_prefix fuel pairs s).
Proof.
  revert s. induction pairs as [|[[d i] j] rest IH]; intros s.
  { simpl. split; [by eexists|done]. }
  rewrite scan_pairs_cons. cbn [scan_prefix].
  destruct (union fuel i j s) as [[b| |] s'] eqn:Hu.
  - destruct (b && bool_decide (component_count s' = 1)) eqn:Hb; [|apply IH].
    split; [|by intros [? ?]].
    destruct (py_get coords i); [|done]. by destruct (py_get coords j).
  - split; [|by intros [? ?]]. simpl. intros [= ->].
    by apply union_raise in Hu.
  - split; [done|by intros [? ?]].
Qed.

(** The scan raises nothing but the [IndexError] of an index out of range
    and its own [ValueError]. *)
Lemma scan_pairs_raise pairs s e :
  (scan_pairs fuel coords pairs s).1 = Raise e →
  e = IndexError ∨ e = ValueError.
Proof.
  revert s. induction pairs as [|[[d i] j] rest IH]; intros s.
  { simpl. intros [= <-]. by right. }
  rewrite scan_pairs_cons.
  destruct (union fuel i j s) as [[b| |] s'] eqn:Hu; [| |done].
  - destruct (b && bool_decide (component_count s' = 1)); [|apply IH].
    destruct (py_get coords i); [|intros [= <-]; by left].
    destruct (py_get coords j); [done|intros [= <-]; by left].
  - simpl. intros [= <-]. left. by apply union_raise in Hu.
Qed.
End scan.

Lemma find_finished s fuel x o s' :
  uf_inv s → (length (parent s) + 2 ≤ fuel)%nat →
  find fuel x s = (o, s') → o ≠ OutOfFuel.
Proof.
  intros Hinv Hfuel Hf.
  destruct (py_index (length (parent s)) x) as [i|] eqn:Hi.
  - destruct (find_valid s fuel x i) as (r & s1 & Hf' & _); [done..|].
    rewrite Hf' in Hf. by simplify_eq.
  - destruct fuel as [|fuel]; [lia|]. rewrite find_invalid in Hf by done.
    by simplify_eq.
Qed.

Lemma union_finished s fuel x y o s' :
  uf_inv s → (length (parent s) + 2 ≤ fuel)%nat →
  union fuel x y s = (o, s') → o ≠ OutOfFuel.
Proof.
  intros Hinv Hfuel. rewrite union_unfold.
  destruct (find fuel x s) as [[rx| |] s1] eqn:H1; [|by intros [= <- _]|].
  2:{ by apply find_finished in H1. }
  pose proof (find_spec _ _ _ _ _ Hinv H1) as (Hinv1 & [Hlen1 _] & _); [done|].
  destruct (find fuel y s1) as [[ry| |] s2] eqn:H2; [|by intros [= <- _]|].
  2:{ apply find_finished in H2; [done..|]. by rewrite Hlen1. }
  case_bool_decide; [by intros [= <- _]|].
  intros [[-> _]|[-> _]]%union_roots_count; done.
Qed.

Lemma scan_pairs_finished {float} fuel coords (pairs : list (float * Z * Z)) s :
  uf_inv s → length (parent s) = length coords →
  (length coords + 2 ≤ fuel)%nat →
  (scan_pairs fuel coords pairs s).1 ≠ OutOfFuel ∧
  (Forall (λ t, 0 ≤ t.1.2 < Z.of_nat (length coords) ∧
                0 ≤ t.2 < Z.of_nat (length coords)) pairs →
   (scan_pairs fuel coords pairs s).1 ≠ Raise IndexError).
Proof.
  revert s. induction pairs as [|[[d i] j] rest IH]; intros s Hinv Hlen Hfuel.
  { done. }
  rewrite scan_pairs_cons.
  destruct (union fuel i j s) as [[b| |] s'] eqn:Hu.
  - apply union_spec in Hu as [Hinv' Hlen']; [|done..].
    destruct (b && bool_decide (component_count s' = 1)).
    + split.
      * destruct (py_get coords i); [|done]. by destruct (py_get coords j).
      * intros [[Hi Hj] _]%Forall_cons. simpl in Hi, Hj.
        rewrite !py_get_nonneg by done.
        destruct (lookup_lt_is_Some_2 coords (Z.to_nat i)) as [ci ->]; [lia|].
        by destruct (lookup_lt_is_Some_2 coords (Z.to_nat j)) as [cj ->]; [lia|].
    + destruct (IH s') as [IH1 IH2]; [done|congruence|done|].
      split; [done|]. intros [_ Hrest]%Forall_cons. by apply IH2.
  - split; [done|]. intros [[Hi Hj] _]%Forall_cons. simpl in Hi, Hj.
    destruct (union_valid s fuel i j (Z.to_nat i) (Z.to_nat j))
      as (rx & s1 & ry & s2 & _ & _ & _ & _ & _ & _ & _ & _ & Hu');
      [done|apply py_index_nonneg; lia|apply py_index_nonneg; lia|lia|].
    rewrite Hu in Hu'. by case_bool_decide.
  - apply union_finished in Hu; [done..|lia].
Qed.

(** When the count is not 1 at the start, the scan exhausts the list exactly
    when every [union] call returns and the count is 1 after no prefix. *)
Lemma scan_prefix_count {float} fuel (pairs : list (float * Z * Z)) s :
  component_count s ≠ 1 →
  is_Some (scan_prefix fuel pairs s) ↔
  Forall returned (run_ops fuel (union_ops pairs) s).1 ∧
  ∀ pre post, pairs = pre ++ post →
    component_count (run_ops fuel (union_ops pre) s).2 ≠ 1.
Proof.
  revert s. induction pairs as [|[[d i] j] rest IH]; intros s Hs.
  { simpl. split; [|by eexists]. intros _. split; [constructor|].
    intros pre post Hp. symmetry in Hp. by apply app_nil in Hp as [-> _]. }
  cbn [scan_prefix union_ops fmap list_fmap run_ops run_op]. simpl.
  destruct (union fuel i j s) as [o s'] eqn:Hu.
  pose proof (union_count _ _ _ _ _ _ Hu) as Hc.
  fold (union_ops rest).
  destruct (run_ops fuel (union_ops rest) s') as [rs s''] eqn:Hrun. simpl.
  assert (∀ pre, component_count
            (run_ops fuel (union_ops ((d, i, j) :: pre)) s).2
          = component_count (run_ops fuel (union_ops pre) s').2) as Hcons.
  { intros pre. cbn [union_ops fmap list_fmap run_ops run_op]. simpl.
    rewrite Hu. fold (union_ops pre).
    by destruct (run_ops fuel (union_ops pre) s'). }
  destruct o as [b| |].
  - destruct (b && bool_decide (component_count s' = 1)) eqn:Hb.
    + apply andb_prop in Hb as [-> Hb%bool_decide_eq_true]. split.
      { by intros [? ?]. }
      intros [_ Hpre]. destruct (Hpre [(d, i, j)] rest eq_refl).
      by rewrite Hcons.
    + assert (component_count s' ≠ 1) as Hs'.
      { destruct b; simpl in *; [by apply bool_decide_eq_false in Hb|lia]. }
      rewrite (IH s' Hs'), Hrun. simpl. split.
      * intros [Hall Hpre]. split; [constructor; [by exists b|done]|].
        intros [|p pre] post Hp; [done|].
        simplify_eq/=. rewrite Hcons. by eapply Hpre.
      * intros [Hall Hpre]. apply Forall_cons in Hall as [_ Hall].
        split; [done|]. intros pre post ->.
        rewrite <-Hcons. by eapply (Hpre (_ :: pre)).
  - split; [by intros [? ?]|].
    intros [[[b ?] _]%Forall_cons _]. done.
  - split; [by intros [? ?]|].
    intros [[[b ?] _]%Forall_cons _]. done.
Qed.

(** C2: [solve_part2] calls [union] on the pairs in the order of the list.
    It returns [v] exactly when the list splits into a prefix on which every
    [union] call returned without being the unifying one, followed by a pair
    [(d, i, j)] whose [union] call returns [True] and leaves the component
    count 1, and [v] is the product of the x-coordinates of the points [i]
    and [j].  It raises [ValueError] exactly when the scan exhausts the whole
    list without such a pair; no default value is returned.  For any number
    of points other than one, that is: every [union] call returns and the
    component count is 1 after no prefix of the list.  With fuel
    [len(coordinates) + 2] the recursion of [find] never runs out, and on
    pairs of indices in range these are the only two outcomes. *)
Theorem solve_part2_first_unifying_pair {float} fuel coords
    (pairs : list (float * Z * Z)) :
  (∀ v, solve_part2 fuel coords pairs = Ret v ↔
     ∃ pre d i j post s1 s2 ci cj,
       pairs = pre ++ (d, i, j) :: post ∧
       scan_prefix fuel pre (init (Z.of_nat (length coords))) = Some s1 ∧
       union fuel i j s1 = (Ret true, s2) ∧ component_count s2 = 1 ∧
       py_get coords i = Some ci ∧ py_get coords j = Some cj ∧
       v = coord_x ci * coord_x cj) ∧
  (solve_part2 fuel coords pairs = Raise ValueError ↔
     is_Some (scan_prefix fuel pairs (init (Z.of_nat (length coords))))) ∧
  (length coords ≠ 1%nat →
     solve_part2 fuel coords pairs = Raise ValueError ↔
     Forall returned
       (run_ops fuel (union_ops pairs) (init (Z.of_nat (length coords)))).1 ∧
     ∀ pre post, pairs = pre ++ post →
       component_count
         (run_ops fuel (union_ops pre) (init (Z.of_nat (length coords)))).2 ≠ 1) ∧
  ((length coords + 2 ≤ fuel)%nat →
     solve_part2 fuel coords pairs ≠ OutOfFuel ∧
     (Forall (λ t, 0 ≤ t.1.2 < Z.of_nat (length coords) ∧
                   0 ≤ t.2 < Z.of_nat (length coords)) pairs →
      solve_part2 fuel coords pairs = Raise ValueError ∨
      ∃ v, solve_part2 fuel coords pairs = Ret v)).
Proof.
  unfold solve_part2. split_and!.
  - intros v. apply scan_pairs_Ret.
  - apply scan_pairs_ValueError.
  - intros Hn. rewrite scan_pairs_ValueError. apply scan_prefix_count.
    simpl. lia.
  - intros Hfuel.
    destruct (scan_pairs_finished fuel coords pairs
                (init (Z.of_nat (length coords)))) as [H1 H2];
      [apply init_inv; lia|rewrite init_length; lia|done|].
    split; [done|]. intros Hvalid. specialize (H2 Hvalid).
    pose proof (scan_pairs_raise fuel coords pairs
                  (init (Z.of_nat (length coords)))) as H3.
    destruct (scan_pairs fuel coords pairs _) as [[v|e|] s']; simpl in *;
      [by eauto| |done].
    destruct (H3 e) as [-> | ->]; [done|done|by left].
Qed.

Lemma solve_part2_witness :
  ∃ pre d i j post s1 s2 ci cj,
    [(1, 0, 1); (4, 1, 2); (5, 0, 2)] = pre ++ (d, i, j) :: post ∧
    scan_prefix 5 pre (init (Z.of_nat (length [(0, 0, 0); (1, 0, 0); (5, 0, 0)])))
      = Some s1 ∧
    union 5 i j s1 = (Ret true, s2) ∧ component_count s2 = 1 ∧
    py_get [(0, 0, 0); (1, 0, 0); (5, 0, 0)] i = Some ci ∧
    py_get [(0, 0, 0); (1, 0, 0); (5, 0, 0)] j = Some cj ∧
    5 = coord_x ci * coord_x cj.
Proof.
  apply (proj1 (solve_part2_first_unifying_pair 5
           [(0, 0, 0); (1, 0, 0); (5, 0, 0)]
           [(1, 0, 1); (4, 1, 2); (5, 0, 2)]) 5).
  reflexivity.
Defined.

(** *** The enumeration of the index pairs *)

Lemma seqZ_succ_nat (m : nat) a :
  seqZ a (Z.of_nat (S m)) = a :: seqZ (a + 1) (Z.of_nat m).
Proof.
  rewrite seqZ_cons by lia. f_equal.
  by replace (Z.pred (Z.of_nat (S m))) with (Z.of_nat m) by lia.
Qed.

Lemma seqZ_to_nat a k : seqZ a k = seqZ a (Z.of_nat (Z.to_nat k)).
Proof.
  destruct (decide (0 ≤ k)); [by rewrite Z2Nat.id|].
  rewrite !seqZ_nil; [done|lia..].
Qed.

Lemma row_sorted i b k :
  StronglySorted pair_lt ((λ j, (i, j)) <$> seqZ b k).
Proof.
  rewrite seqZ_to_nat. generalize (Z.to_nat k). intros m. revert b.
  induction m as [|m IH]; intros b; [constructor|].
  rewrite seqZ_succ_nat, fmap_cons. constructor; [apply IH|].
  apply Forall_forall. intros [i' j] (j' & [= -> ->] & Hj%elem_of_seqZ)%list_elem_of_fmap.
  right. simpl. lia.
Qed.

Lemma index_pairs_elem n i j : (i, j) ∈ index_pairs n ↔ 0 ≤ i < j ∧ j < n.
Proof.
  unfold index_pairs, py_range. rewrite list_elem_of_bind. split.
  - intros (i' & (j' & [= -> ->] & Hj%elem_of_seqZ)%list_elem_of_fmap
               & Hi%elem_of_seqZ). lia.
  - intros H. exists i. rewrite list_elem_of_fmap, !elem_of_seqZ.
    split; [|lia]. exists j. rewrite elem_of_seqZ. split; [done|lia].
Qed.

Lemma index_pairs_sorted n : StronglySorted pair_lt (index_pairs n).
Proof.
  unfold index_pairs, py_range. rewrite (seqZ_to_nat 0).
  generalize (Z.to_nat (n - 0)). generalize 0 at 1. intros a m. revert a.
  induction m as [|m IH]; intros a; [constructor|].
  rewrite seqZ_succ_nat, bind_cons.
  apply StronglySorted_app_2; [|apply row_sorted|apply IH].
  intros [i1 j1] [i2 j2]
    (j & [= -> ->] & _)%list_elem_of_fmap
    (i & (j' & [= -> ->] & _)%list_elem_of_fmap & Hi%elem_of_seqZ)%list_elem_of_bind.
  left. simpl. lia.
Qed.

Lemma index_pairs_length n :
  0 ≤ n → Z.of_nat (length (index_pairs n)) = n * (n - 1) / 2.
Proof.
  intros Hn.
  assert (∀ (m : nat) a, a + Z.of_nat m = n →
    2 * Z.of_nat (length (seqZ a (Z.of_nat m) ≫=
                            λ i, (λ j, (i, j)) <$> seqZ (i + 1) (n - (i + 1))))
    = Z.of_nat m * (Z.of_nat m - 1)) as Hgen.
  { induction m as [|m IH]; intros a Ha; [done|].
    rewrite seqZ_succ_nat, bind_cons, length_app, length_fmap, length_seqZ.
    rewrite Nat2Z.inj_add, Z.mul_add_distr_l, IH by lia. nia. }
  unfold index_pairs, py_range. specialize (Hgen (Z.to_nat n) 0).
  rewrite Z2Nat.id in Hgen by done. rewrite Z.sub_0_r.
  apply Z.div_unique_exact; [done|]. rewrite <-Hgen by lia. lia.
Qed.

(** *** [calculate_all_distances] *)

Lemma fmap_bind {A B C} (f : B → C) (g : A → list B) (l : list A) :
  f <$> (l ≫= g) = l ≫= λ x, f <$> g x.
Proof.
  induction l as [|x l IH]; [done|]. by rewrite !bind_cons, fmap_app, IH.
Qed.

Lemma pair_lt_sorted_NoDup l : StronglySorted pair_lt l → NoDup l.
Proof.
  induction 1 as [|[i j] l _ IH Hall]; [constructor|].
  apply NoDup_cons. split; [|done]. intros Hin.
  rewrite Forall_forall in Hall. specialize (Hall _ Hin).
  destruct Hall as [?|[? ?]]; simpl in *; lia.
Qed.

Lemma sum_squares_nonneg (a b c : Z) : 0 ≤ a * a + b * b + c * c.
Proof.
  pose proof (Z.square_nonneg a). pose proof (Z.square_nonneg b).
  pose proof (Z.square_nonneg c). lia.
Qed.

(** [mapM] over outcomes: the results in order, or the first failure. *)
Lemma mapM_outcome {A B} (f : A → outcome B) (l : list A) :
  match mapM f l with
  | Ret k => Forall2 (λ x y, f x = Ret y) l k
  | Raise e => ∃ x, x ∈ l ∧ f x = Raise e
  | OutOfFuel => ∃ x, x ∈ l ∧ f x = OutOfFuel
  end.
Proof.
  induction l as [|x l IH]; [constructor|]. cbn [mapM].
  unfold mbind at 1, outcome_bind.
  destruct (f x) as [y|e|] eqn:Hx;
    [|exists x; split; [by left|done]..].
  unfold mbind, outcome_bind.
  destruct (mapM f l) as [k|e|]; simpl.
  - by constructor.
  - destruct IH as (x' & Hin & Hx'). exists x'. split; [by right|done].
  - destruct IH as (x' & Hin & Hx'). exists x'. split; [by right|done].
Qed.

(** C9, as the specification states it, fails: [math.sqrt] raises
    [OverflowError] on an integer that does not fit a float, and
    [calculate_distance] passes the squared distance to it unguarded.  For
    the two points [(0, 0, 0)] and [(10^155, 0, 0)] the squared distance is
    [10^310], beyond the float range, and [calculate_all_distances] raises
    instead of returning the one pair. *)
Lemma calculate_all_distances_overflow :
  calculate_all_distances example_sqrt [(0, 0, 0); (10 ^ 155, 0, 0)]
  = Raise OverflowError ∧
  ¬ ∃ l, calculate_all_distances example_sqrt [(0, 0, 0); (10 ^ 155, 0, 0)]
         = Ret l.
Proof.
  assert (calculate_all_distances example_sqrt [(0, 0, 0); (10 ^ 155, 0, 0)]
          = Raise OverflowError) as H by (vm_compute; reflexivity).
  split; [done|]. rewrite H. by intros [l Hl].
Qed.

Section distance_properties.
Context {float : Type} (math_sqrt : Z → option float).

Lemma calculate_distance_sym c1 c2 :
  calculate_distance math_sqrt c1 c2 = calculate_distance math_sqrt c2 c1.
Proof.
  unfold calculate_distance. cbv zeta.
  set (a := _ + _ + _). set (b := _ + _ + _).
  by assert (a = b) as -> by (unfold a, b; lia).
Qed.

Lemma calculate_distance_raise c1 c2 e :
  calculate_distance math_sqrt c1 c2 = Raise e → e = OverflowError.
Proof.
  unfold calculate_distance. cbv zeta.
  destruct (math_sqrt _); [done|]. by intros [= <-].
Qed.

Lemma calculate_distance_nonneg (nonneg : float → Prop) c1 c2 d :
  (∀ z d, 0 ≤ z → math_sqrt z = Some d → nonneg d) →
  calculate_distance math_sqrt c1 c2 = Ret d → nonneg d.
Proof.
  intros Hsqrt. unfold calculate_distance. cbv zeta.
  destruct (math_sqrt _) as [d'|] eqn:Hd; [|done].
  intros [= <-]. eapply Hsqrt; [|done]. apply sum_squares_nonneg.
Qed.

(** One step of the inner loop: the triple of the pair, or the
    [OverflowError] of its distance. *)
Lemma distance_entry_cases coords i j :
  0 ≤ i < j → j < Z.of_nat (length coords) →
  match distance_entry math_sqrt coords i j with
  | Ret t => pair_indices t = (i, j) ∧ distance_of math_sqrt coords t
  | Raise e => e = OverflowError ∧ overflowing math_sqrt coords
  | OutOfFuel => False
  end.
Proof.
  intros Hi Hj. unfold distance_entry.
  rewrite !py_get_nonneg by lia.
  destruct (lookup_lt_is_Some_2 coords (Z.to_nat i)) as [ci Hci]; [lia|].
  destruct (lookup_lt_is_Some_2 coords (Z.to_nat j)) as [cj Hcj]; [lia|].
  rewrite Hci, Hcj. simpl. unfold mbind, outcome_bind.
  destruct (calculate_distance math_sqrt ci cj) as [d|e|] eqn:Hd; simpl.
  - split; [done|]. by exists ci, cj.
  - apply calculate_distance_raise in Hd as Heq. subst e.
    split; [done|]. by exists i, j, ci, cj.
  - unfold calculate_distance in Hd. cbv zeta in Hd.
    by destruct (math_sqrt _).
Qed.

Lemma distance_row coords i js row :
  0 ≤ i → Forall (λ j, i < j < Z.of_nat (length coords)) js →
  Forall2 (λ j t, distance_entry math_sqrt coords i j = Ret t) js row →
  pair_indices <$> row = (λ j, (i, j)) <$> js ∧
  Forall (distance_of math_sqrt coords) row.
Proof.
  intros Hi Hjs Hrow. induction Hrow as [|j t js row Ht _ IH]; [done|].
  apply Forall_cons in Hjs as [Hj Hjs].
  destruct (IH Hjs) as [IH1 IH2].
  pose proof (distance_entry_cases coords i j) as Hc.
  rewrite Ht in Hc. destruct Hc as [Hp Hd]; [lia..|].
  split; [|by constructor]. by rewrite !fmap_cons, Hp, IH1.
Qed.

Lemma distance_rows coords idx rows :
  Forall (λ i, 0 ≤ i) idx →
  Forall2 (λ i row,
             mapM (distance_entry math_sqrt coords i)
                  (py_range (i + 1) (Z.of_nat (length coords))) = Ret row)
          idx rows →
  pair_indices <$> mjoin rows
  = (idx ≫= λ i, (λ j, (i, j)) <$> py_range (i + 1) (Z.of_nat (length coords))) ∧
  Forall (distance_of math_sqrt coords) (mjoin rows).
Proof.
  intros His Hrows. induction Hrows as [|i row idx rows Hrow _ IH]; [done|].
  apply Forall_cons in His as [Hi His].
  destruct (IH His) as [IH1 IH2].
  pose proof (mapM_outcome (distance_entry math_sqrt coords i)
                (py_range (i + 1) (Z.of_nat (length coords)))) as Hm.
  rewrite Hrow in Hm.
  apply distance_row in Hm as [Hm1 Hm2]; [|done|].
  2:{ apply Forall_forall. intros j Hj%elem_of_seqZ. lia. }
  change (mjoin (row :: rows)) with (row ++ mjoin rows).
  rewrite fmap_app, bind_cons.
  split; [f_equal; [exact Hm1|exact IH1]|]. by apply Forall_app.
Qed.

(** [calculate_all_distances] returns the triples of the index pairs in
    their order, or raises the [OverflowError] of some pair. *)
Lemma calculate_all_distances_cases coords :
  match calculate_all_distances math_sqrt coords with
  | Ret l =>
      pair_indices <$> l = index_pairs (Z.of_nat (length coords)) ∧
      Forall (distance_of math_sqrt coords) l
  | Raise e => e = OverflowError ∧ overflowing math_sqrt coords
  | OutOfFuel => False
  end.
Proof.
  unfold calculate_all_distances. cbv zeta.
  set (n := Z.of_nat (length coords)).
  pose proof (mapM_outcome
    (λ i, mapM (distance_entry math_sqrt coords i) (py_range (i + 1) n))
    (py_range 0 n)) as Hrows.
  unfold mbind, outcome_bind.
  destruct (mapM _ (py_range 0 n)) as [rows|e|]; simpl.
  - apply distance_rows; [|done].
    apply Forall_forall. intros i Hi%elem_of_seqZ. lia.
  - destruct Hrows as (i & Hi%elem_of_seqZ & Hrow).
    pose proof (mapM_outcome (distance_entry math_sqrt coords i)
                  (py_range (i + 1) n)) as Hm.
    rewrite Hrow in Hm. destruct Hm as (j & Hj%elem_of_seqZ & Hij).
    pose proof (distance_entry_cases coords i j) as Hc.
    rewrite Hij in Hc. apply Hc; lia.
  - destruct Hrows as (i & Hi%elem_of_seqZ & Hrow).
    pose proof (mapM_outcome (distance_entry math_sqrt coords i)
                  (py_range (i + 1) n)) as Hm.
    rewrite Hrow in Hm. destruct Hm as (j & Hj%elem_of_seqZ & Hij).
    pose proof (distance_entry_cases coords i j) as Hc.
    rewrite Hij in Hc. apply Hc; lia.
Qed.

Lemma calculate_all_distances_Ret coords l :
  calculate_all_distances math_sqrt coords = Ret l →
  pair_indices <$> l = index_pairs (Z.of_nat (length coords)) ∧
  Forall (distance_of math_sqrt coords) l.
Proof.
  intros Hl. pose proof (calculate_all_distances_cases coords) as Hc.
  by rewrite Hl in Hc.
Qed.

(** A returned list has a triple for every pair, so no pair overflows. *)
Lemma calculate_all_distances_in_range coords l :
  calculate_all_distances math_sqrt coords = Ret l →
  ¬ overflowing math_sqrt coords.
Proof.
  intros [Hidx Hdist]%calculate_all_distances_Ret
         (i & j & ci & cj & Hij & Hci & Hcj & Hover).
  assert ((i, j) ∈ pair_indices <$> l) as Hin.
  { rewrite Hidx. apply index_pairs_elem. split; [done|].
    apply lookup_lt_Some in Hcj. lia. }
  apply list_elem_of_fmap in Hin as ([[d i'] j'] & [= <- <-] & Ht).
  rewrite Forall_forall in Hdist.
  destruct (Hdist _ Ht) as (ci' & cj' & Hci' & Hcj' & Hd).
  simpl in *. congruence.
Qed.

Lemma calculate_all_distances_outcomes coords :
  (calculate_all_distances math_sqrt coords = Raise OverflowError ∧
   overflowing math_sqrt coords) ∨
  ∃ l, calculate_all_distances math_sqrt coords = Ret l.
Proof.
  pose proof (calculate_all_distances_cases coords) as Hc.
  destruct (calculate_all_distances math_sqrt coords) as [l|e|];
    [right; by exists l| |done].
  destruct Hc as [-> Hover]. by left.
Qed.

Lemma calculate_all_distances_length coords l :
  calculate_all_distances math_sqrt coords = Ret l →
  Z.of_nat (length l)
  = Z.of_nat (length coords) * (Z.of_nat (length coords) - 1) / 2.
Proof.
  intros [Hidx _]%calculate_all_distances_Ret.
  rewrite <-(length_fmap (@pair_indices float)), Hidx.
  apply index_pairs_length. lia.
Qed.

(** C9, amended: for [n] points [calculate_all_distances] raises
    [OverflowError] when [math.sqrt] does so on the squared distance of
    some pair of the points, and raises nothing else.  Otherwise it returns
    a list of [n (n - 1) / 2] triples; their index pairs are strictly
    increasing in the order "first index, then second index", and they are
    exactly the pairs [0 <= i < j < n], so each unordered pair of distinct
    indices occurs once; the first component of the triple of [(i, j)] is
    [calculate_distance] of point [i] and point [j], which is the same in
    both directions; and it is non-negative, [math.sqrt] being non-negative
    on the non-negative integers. *)
Theorem calculate_all_distances_pairs
    (nonneg : float → Prop) (coords : list Coordinate) :
  (∀ z d, 0 ≤ z → math_sqrt z = Some d → nonneg d) →
  (overflowing math_sqrt coords ∧
   calculate_all_distances math_sqrt coords = Raise OverflowError) ∨
  (¬ overflowing math_sqrt coords ∧
   ∃ l, calculate_all_distances math_sqrt coords = Ret l ∧
     Z.of_nat (length l)
       = Z.of_nat (length coords) * (Z.of_nat (length coords) - 1) / 2 ∧
     StronglySorted pair_lt (pair_indices <$> l) ∧
     NoDup (pair_indices <$> l) ∧
     (∀ i j, (i, j) ∈ pair_indices <$> l ↔
             0 ≤ i < j ∧ j < Z.of_nat (length coords)) ∧
     (∀ d i j, (d, i, j) ∈ l →
        ∃ ci cj, coords !! Z.to_nat i = Some ci ∧ coords !! Z.to_nat j = Some cj ∧
          calculate_distance math_sqrt ci cj = Ret d ∧
          calculate_distance math_sqrt cj ci = Ret d ∧ nonneg d)).
Proof.
  intros Hsqrt.
  destruct (calculate_all_distances_outcomes coords) as [[Hraise Hover]|[l Hl]];
    [by left|right].
  split; [by eapply calculate_all_distances_in_range|].
  exists l. split; [done|].
  pose proof (calculate_all_distances_Ret coords l Hl) as [Hidx Hdist].
  rewrite Hidx. split_and!.
  - by apply calculate_all_distances_length.
  - apply index_pairs_sorted.
  - apply pair_lt_sorted_NoDup, index_pairs_sorted.
  - apply index_pairs_elem.
  - intros d i j Ht. rewrite Forall_forall in Hdist.
    destruct (Hdist _ Ht) as (ci & cj & Hci & Hcj & Hd). simpl in *.
    exists ci, cj. split_and!; try done.
    + by rewrite calculate_distance_sym.
    + by eapply calculate_distance_nonneg.
Qed.
End distance_properties.

Lemma calculate_all_distances_witness :
  ¬ overflowing example_sqrt [(0, 0, 0); (3, 4, 0); (3, 4, 12)] ∧
  ∃ l, calculate_all_distances example_sqrt [(0, 0, 0); (3, 4, 0); (3, 4, 12)]
       = Ret l ∧
    Z.of_nat (length l)
      = Z.of_nat (length [(0, 0, 0); (3, 4, 0); (3, 4, 12)])
        * (Z.of_nat (length [(0, 0, 0); (3, 4, 0); (3, 4, 12)]) - 1) / 2 ∧
    StronglySorted pair_lt (pair_indices <$> l) ∧
    NoDup (pair_indices <$> l) ∧
    (∀ i j, (i, j) ∈ pair_indices <$> l ↔
            0 ≤ i < j ∧ j < Z.of_nat (length [(0, 0, 0); (3, 4, 0); (3, 4, 12)])) ∧
    (∀ d i j, (d, i, j) ∈ l →
       ∃ ci cj, [(0, 0, 0); (3, 4, 0); (3, 4, 12)] !! Z.to_nat i = Some ci ∧
         [(0, 0, 0); (3, 4, 0); (3, 4, 12)] !! Z.to_nat j = Some cj ∧
         calculate_distance example_sqrt ci cj = Ret d ∧
         calculate_distance example_sqrt cj ci = Ret d ∧ 0 ≤ d).
Proof.
  destruct (calculate_all_distances_pairs example_sqrt (λ d, 0 ≤ d)
              [(0, 0, 0); (3, 4, 0); (3, 4, 12)]) as [[_ H]|H].
  - intros z d _. unfold example_sqrt. case_bool_decide; [|done].
    intros [= <-]. apply Z.sqrt_nonneg.
  - vm_compute in H. discriminate H.
  - exact H.
Defined.

Example calculate_all_distances_example :
  calculate_all_distances example_sqrt [(0, 0, 0); (3, 4, 0); (3, 4, 12)]
  = Ret [(5, 0, 1); (13, 0, 2); (12, 1, 2)].
Proof. vm_compute. reflexivity. Qed.

(** *** The number of connections of part 1 *)

Lemma parse_args_debug_free args filename debug :
  (parse_args args filename debug).1 = (parse_args args filename false).1.
Proof.
  revert filename debug. induction args as [|a args IH]; intros f d; [done|].
  simpl. case_decide; [|apply IH]. by rewrite (IH f true).
Qed.

(** C10: the number of connections of part 1 is 10 for 20 points, 1000 for
    1000 points and [n // 2] for every other number [n] of points; [main]
    computes it from the number of parsed coordinates alone, the command
    line only selecting the input file and the debug flag. *)
Theorem part1_connections_from_input_size :
  determine_part1_connections 20 = 10 ∧
  determine_part1_connections 1000 = 1000 ∧
  (∀ n, n ≠ 20 → n ≠ 1000 → determine_part1_connections n = n / 2) ∧
  (∀ read argv,
     main_connections read argv =
     determine_part1_connections
       (Z.of_nat (length (read (parse_args (tail argv) "input"%string false).1)))).
Proof.
  split_and!; [done|done| |].
  - intros n H20 H1000. unfold determine_part1_connections.
    by rewrite !bool_decide_false.
  - intros read argv. unfold main_connections.
    by destruct (parse_args _ _ _).
Qed.

Lemma part1_connections_witness :
  determine_part1_connections 5 = 5 / 2 ∧
  main_connections (λ _, [(0, 0, 0); (1, 0, 0); (2, 0, 0); (10, 10, 10); (11, 10, 10)])
    ["solution.py"; "--debug"; "example"]%string = 2.
Proof.
  destruct part1_connections_from_input_size as (_ & _ & Hn & Hmain).
  split; [apply Hn; lia|]. rewrite Hmain. reflexivity.
Defined.


(** ** Further properties of the code *)

(** *** A new structure *)

Lemma count_roots_pos p r : is_root p r → (1 ≤ count_roots p)%nat.
Proof.
  intros Hr. pose proof (parent_of_lt _ _ _ Hr) as Hlt. destruct Hr as [H0 Hr].
  unfold count_roots.
  assert (Z.to_nat r ∈ filter (λ i : nat, p !! i = Some (Z.of_nat i))
                         (seq 0 (length p))) as Hin.
  { apply list_elem_of_filter. rewrite Z2Nat.id by done. split; [done|].
    apply elem_of_seq. lia. }
  destruct (filter _ _); [by apply elem_of_nil in Hin|simpl; lia].
Qed.

Lemma count_roots_le p : (count_roots p ≤ length p)%nat.
Proof.
  unfold count_roots. etrans; [apply length_filter|]. by rewrite length_seq.
Qed.

(** X1: [UnionFind(size)] with [size >= 0] has [size] components, all ranks
    0 and every element its own root: [find(i)] returns [i] without
    changing the structure, and [i] is the only element of its component. *)
Theorem new_structure_is_discrete size :
  0 ≤ size →
  component_count (init size) = size ∧
  Z.of_nat (count_roots (parent (init size))) = size ∧
  length (parent (init size)) = Z.to_nat size ∧
  rank (init size) = replicate (Z.to_nat size) 0 ∧
  ∀ i, 0 ≤ i < size →
    (∀ fuel, find (S fuel) i (init size) = (Ret i, init size)) ∧
    is_root (parent (init size)) i ∧
    (∀ j r, repr (parent (init size)) j r → r = j).
Proof.
  intros Hsize. pose proof (init_inv size Hsize) as Hinv.
  split_and!; [done| |apply init_length|done|].
  - rewrite <-(inv_count _ Hinv). done.
  - intros i Hi.
    assert (is_root (parent (init size)) i) as Hroot.
    { split; [lia|]. apply init_lookup. lia. }
    split_and!; [|done|].
    + intros fuel. rewrite find_unfold, py_get_nonneg
        by (rewrite init_length; lia).
      destruct Hroot as [_ ->]. by rewrite bool_decide_false by (intros ?; done).
    + intros j r Hr. destruct Hr as [r Hr|x y r [[H0 Hxy] Hne] _]; [done|].
      apply init_lookup in Hxy as [-> _]. lia.
Qed.

Lemma new_structure_witness :
  component_count (init 3) = 3 ∧
  Z.of_nat (count_roots (parent (init 3))) = 3 ∧
  length (parent (init 3)) = Z.to_nat 3 ∧
  rank (init 3) = replicate (Z.to_nat 3) 0 ∧
  ∀ i, 0 ≤ i < 3 →
    (∀ fuel, find (S fuel) i (init 3) = (Ret i, init 3)) ∧
    is_root (parent (init 3)) i ∧
    (∀ j r, repr (parent (init 3)) j r → r = j).
Proof. apply (new_structure_is_discrete 3). lia. Defined.

(** *** The count and the ranks in reachable states *)

(** X2: in every reachable state of a structure of [size >= 0] elements the
    component count is the number of roots of the parent list, and the two
    lists keep the length [size]; with at least one element the count stays
    between 1 and [size]. *)
Theorem count_is_number_of_roots size s :
  0 ≤ size → reachable size s →
  component_count s = Z.of_nat (count_roots (parent s)) ∧
  length (parent s) = Z.to_nat size ∧ length (rank s) = Z.to_nat size ∧
  (1 ≤ size → 1 ≤ component_count s ≤ size).
Proof.
  intros Hsize Hs. destruct (reachable_inv size s) as [Hinv Hlen]; [done..|].
  split_and!; [apply Hinv|done|by rewrite (inv_rank_len _ Hinv)|].
  intros H1. rewrite (inv_count _ Hinv).
  pose proof (count_roots_le (parent s)).
  destruct (proj1 (inv_forest s Hinv) 0) as [r Hr]; [lia|].
  pose proof (count_roots_pos _ _ (repr_is_root _ _ _ Hr)). lia.
Qed.

Lemma count_is_number_of_roots_witness :
  component_count chain_state = Z.of_nat (count_roots (parent chain_state)) ∧
  length (parent chain_state) = Z.to_nat 5 ∧
  length (rank chain_state) = Z.to_nat 5 ∧
  (1 ≤ 5 → 1 ≤ component_count chain_state ≤ 5).
Proof.
  apply (count_is_number_of_roots 5 chain_state);
    [lia|apply chain_state_reachable].
Defined.

(** X3: union by rank keeps, in every reachable state, the rank of each
    element that is not a root strictly below the rank of its parent; every
    rank lies between 0 and [size - component_count], the number of
    successful unions. *)
Theorem ranks_increase_towards_roots size s :
  0 ≤ size → reachable size s →
  (∀ x y, edge (parent s) x y → rk s x < rk s y) ∧
  (∀ x r, repr (parent s) x r → x ≠ r → rk s x < rk s r) ∧
  (∀ x, 0 ≤ rk s x ≤ size - component_count s).
Proof.
  intros Hsize Hs. destruct (reachable_inv size s) as [Hinv Hlen]; [done..|].
  split_and!.
  - apply (inv_rank_edge _ Hinv).
  - apply (repr_rank_lt _ Hinv).
  - intros x. unfold rk.
    destruct (rank s !! Z.to_nat x) as [v|] eqn:Hv; simpl.
    + pose proof (Zsum_lookup_le _ _ _ (inv_rank_nonneg _ Hinv) Hv).
      pose proof (inv_rank_sum _ Hinv). rewrite (inv_count _ Hinv). lia.
    + pose proof (count_roots_le (parent s)). rewrite (inv_count _ Hinv). lia.
Qed.

Lemma ranks_increase_witness :
  (∀ x y, edge (parent chain_state) x y → rk chain_state x < rk chain_state y) ∧
  (∀ x r, repr (parent chain_state) x r → x ≠ r →
          rk chain_state x < rk chain_state r) ∧
  (∀ x, 0 ≤ rk chain_state x ≤ 5 - component_count chain_state).
Proof.
  apply (ranks_increase_towards_roots 5 chain_state);
    [lia|apply chain_state_reachable].
Defined.

(** *** Path compression *)

Lemma rtc_edge_nonneg s x z :
  uf_inv s → 0 ≤ x → rtc (edge (parent s)) x z → 0 ≤ z.
Proof.
  intros Hinv Hx Hp. induction Hp as [|x y z [Hxy _] _ IH]; [done|].
  apply IH. apply (parent_of_range s Hinv) in Hxy. lia.
Qed.

Lemma rtc_edge_root p x z : is_root p x → rtc (edge p) x z → z = x.
Proof.
  intros Hx Hp. destruct Hp as [|x y z [Hxy Hne] _]; [done|].
  destruct Hne. eapply parent_of_det; eauto.
Qed.

Lemma rtc_edge_step p x y z :
  edge p x y → rtc (edge p) x z → z = x ∨ rtc (edge p) y z.
Proof.
  intros [Hxy _] Hp. destruct Hp as [|x y' z [Hxy' _] Hp]; [by left|].
  right. by rewrite (parent_of_det _ _ _ _ Hxy Hxy').
Qed.

(** [find] on an index in range redirects exactly the elements on the path
    from the index to its root. *)
Lemma find_path s fuel x :
  uf_inv s →
  0 ≤ x < Z.of_nat (length (parent s)) →
  Z.of_nat (length (parent s)) - rk s x < Z.of_nat fuel →
  ∃ r s', find fuel x s = (Ret r, s') ∧ repr (parent s) x r ∧
    length (parent s') = length (parent s) ∧
    (∀ z, rtc (edge (parent s)) x z → parent s' !! Z.to_nat z = Some r) ∧
    (∀ z, 0 ≤ z → ¬ rtc (edge (parent s)) x z →
          parent s' !! Z.to_nat z = parent s !! Z.to_nat z).
Proof.
  intros Hinv. revert x. induction fuel as [|fuel IH]; intros x Hx Hfuel.
  { pose proof (rk_bounds s Hinv x). lia. }
  rewrite find_unfold, py_get_nonneg by done.
  destruct (lookup_lt_is_Some_2 (parent s) (Z.to_nat x)) as [y Hy]; [lia|].
  rewrite Hy. assert (Hxy : parent_of (parent s) x y) by (split; [lia|done]).
  case_bool_decide as Hne.
  - pose proof (inv_rank_edge _ Hinv x y (conj Hxy Hne)).
    destruct (IH y) as (r & s1 & -> & Hr & Hlen & Hon & Hoff);
      [by eapply parent_of_range|lia|].
    rewrite py_set_nonneg by lia.
    rewrite py_get_nonneg by (rewrite length_insert; lia).
    rewrite list_lookup_insert_eq by lia.
    eexists _, _. split; [done|]. simpl. split_and!.
    + eapply repr_step; [split|]; eauto.
    + by rewrite length_insert.
    + intros z Hz. pose proof (rtc_edge_nonneg _ _ _ Hinv (proj1 Hx) Hz).
      destruct (decide (z = x)) as [->|Hzx].
      { by rewrite list_lookup_insert_eq by lia. }
      rewrite list_lookup_insert_ne by lia. apply Hon.
      by destruct (rtc_edge_step _ _ _ _ (conj Hxy Hne) Hz).
    + intros z Hz0 Hz.
      assert (z ≠ x) by (intros ->; by apply Hz).
      rewrite list_lookup_insert_ne by lia. apply Hoff; [done|].
      intros Hyz. apply Hz. eapply rtc_l; [|done]. by split.
  - subst y. eexists _, _. split_and!; [done|by apply repr_root|done| |done].
    intros z Hz. by rewrite (rtc_edge_root _ _ _ Hxy Hz).
Qed.

(** X4: path compression.  In a reachable state [find(x)], for [x] in range,
    returns the root [r] of [x]; afterwards every element on the path from
    [x] to [r] (both included) has parent [r], every other entry of the
    parent list is unchanged, and so are the ranks, the count and the
    representative of every element. *)
Theorem find_compresses_the_path size s x fuel :
  0 ≤ size → reachable size s → 0 ≤ x < size →
  (Z.to_nat size + 2 ≤ fuel)%nat →
  ∃ r s', find fuel x s = (Ret r, s') ∧ repr (parent s) x r ∧
    (∀ z, rtc (edge (parent s)) x z → parent s' !! Z.to_nat z = Some r) ∧
    (∀ z, 0 ≤ z → ¬ rtc (edge (parent s)) x z →
          parent s' !! Z.to_nat z = parent s !! Z.to_nat z) ∧
    rank s' = rank s ∧ component_count s' = component_count s ∧
    same_partition (parent s) (parent s') ∧ reachable size s'.
Proof.
  intros Hsize Hs Hx Hfuel.
  destruct (reachable_inv size s) as [Hinv Hlen]; [done..|].
  destruct (find_path s fuel x) as (r & s' & Hf & Hr & _ & Hon & Hoff);
    [done|lia|pose proof (rk_bounds s Hinv x); lia|].
  pose proof (find_spec _ _ _ _ _ Hinv Hf) as (_ & Hp & Hrk & Hcc & _); [done|].
  exists r, s'. split_and!; try done.
  eapply (reachable_step size fuel (Find x)); [done|simpl; by rewrite Hf|done].
Qed.

Lemma find_compresses_witness :
  ∃ r s', find 7 3 chain_state = (Ret r, s') ∧ repr (parent chain_state) 3 r ∧
    (∀ z, rtc (edge (parent chain_state)) 3 z → parent s' !! Z.to_nat z = Some r) ∧
    (∀ z, 0 ≤ z → ¬ rtc (edge (parent chain_state)) 3 z →
          parent s' !! Z.to_nat z = parent chain_state !! Z.to_nat z) ∧
    rank s' = rank chain_state ∧
    component_count s' = component_count chain_state ∧
    same_partition (parent chain_state) (parent s') ∧ reachable 5 s'.
Proof.
  apply (find_compresses_the_path 5 chain_state 3 7);
    [lia|apply chain_state_reachable|lia|simpl; lia].
Defined.

(** X5: a second [find(x)] directly after the first returns the same root
    and changes nothing. *)
Theorem find_twice size s x fuel :
  0 ≤ size → reachable size s → 0 ≤ x < size →
  (Z.to_nat size + 2 ≤ fuel)%nat →
  ∃ r s', find fuel x s = (Ret r, s') ∧ find fuel x s' = (Ret r, s').
Proof.
  intros Hsize Hs Hx Hfuel.
  destruct (reachable_inv size s) as [Hinv Hlen]; [done..|].
  destruct (find_valid s fuel x (Z.to_nat x)) as (r & s' & Hf & Hr & Hc & Hp);
    [done|apply py_index_nonneg; lia|lia|].
  rewrite Z2Nat.id in Hr by lia.
  exists r, s'. split; [done|].
  pose proof (proj2 (compressed_root _ _ r Hc) (repr_is_root _ _ _ Hr)) as [Hr0 Hroot].
  pose proof Hc as [Hlen' _].
  destruct fuel as [|[|fuel]]; [lia..|].
  rewrite find_unfold, py_get_nonneg, Hp by lia.
  case_bool_decide as Hne; [|done].
  rewrite find_unfold, py_get_nonneg, Hroot
    by (apply lookup_lt_Some in Hroot; lia).
  rewrite bool_decide_false by (intros ?; done).
  rewrite py_set_nonneg, list_insert_id by (done || lia).
  rewrite py_get_nonneg, Hp by lia. by destruct s'.
Qed.

Lemma find_twice_witness :
  ∃ r s', find 7 3 chain_state = (Ret r, s') ∧ find 7 3 s' = (Ret r, s').
Proof.
  apply (find_twice 5 chain_state 3 7);
    [lia|apply chain_state_reachable|lia|simpl; lia].
Defined.

(** *** What [union] merges *)

Lemma link_count s rx ry :
  component_count (link s rx ry) = component_count s - 1.
Proof. unfold link. by repeat case_bool_decide. Qed.

(** X6: in a reachable state, for [x] and [y] in range with representatives
    [rx] and [ry], [union(x, y)] returns [True] exactly when [rx] and [ry]
    differ.  If they are equal the partition, the ranks and the count are
    unchanged.  If they differ the count drops by one and exactly the two
    components are merged: one of [rx], [ry] becomes the representative of
    every element of both, and every other element keeps its
    representative. *)
Theorem union_merges_two_components size s x y rx ry fuel :
  0 ≤ size → reachable size s → 0 ≤ x < size → 0 ≤ y < size →
  (Z.to_nat size + 2 ≤ fuel)%nat →
  repr (parent s) x rx → repr (parent s) y ry →
  ∃ s', union fuel x y s = (Ret (bool_decide (rx ≠ ry)), s') ∧
    reachable size s' ∧
    (rx = ry →
       same_partition (parent s) (parent s') ∧ rank s' = rank s ∧
       component_count s' = component_count s) ∧
    (rx ≠ ry →
       component_count s' = component_count s - 1 ∧
       ∃ w, (w = rx ∨ w = ry) ∧
         ∀ z r, repr (parent s) z r →
           repr (parent s') z (if decide (r = rx ∨ r = ry) then w else r)).
Proof.
  intros Hsize Hs Hx Hy Hfuel Hrx Hry.
  destruct (reachable_inv size s) as [Hinv Hlen]; [done..|].
  destruct (union_valid s fuel x y (Z.to_nat x) (Z.to_nat y))
    as (rx' & s1 & ry' & s2 & H1 & H2 & Hrx' & Hry' & Hinv2 & Hp & Hr & Hc & Hu);
    [done|apply py_index_nonneg; lia|apply py_index_nonneg; lia|lia|].
  rewrite Z2Nat.id in Hrx', Hry' by lia.
  rewrite (repr_det _ _ _ _ Hrx' Hrx), (repr_det _ _ _ _ Hry' Hry) in Hu.
  assert (∀ s', union fuel x y s = (Ret (bool_decide (rx ≠ ry)), s') →
                reachable size s') as Hreach.
  { intros s' Hu'.
    eapply (reachable_step size fuel (Union x y)); [done|simpl; by rewrite Hu'|done]. }
  destruct (decide (rx = ry)) as [Heq|Heq].
  - exists s2. rewrite bool_decide_true in Hu by done.
    rewrite bool_decide_false in Hreach |- * by (intros ?; done).
    split_and!; [done|by apply Hreach|done|done].
  - exists (link s2 rx ry). rewrite bool_decide_false in Hu by done.
    rewrite bool_decide_true in Hreach |- * by done.
    split_and!; [done|by apply Hreach|done|]. intros _.
    split; [by rewrite link_count, Hc|].
    pose proof Hp as [_ Hp'].
    destruct (link_repr s2 rx ry) as (w & Hw & Hall);
      [eapply repr_is_root; by apply Hp'|eapply repr_is_root; by apply Hp'|done|].
    exists w. split; [done|]. intros z r Hz. apply Hall. by apply Hp'.
Qed.

Lemma union_merges_witness :
  ∃ s', union 5 0 2 (init 3) = (Ret (bool_decide (0 ≠ 2)), s') ∧
    reachable 3 s' ∧
    (0 = 2 →
       same_partition (parent (init 3)) (parent s') ∧ rank s' = rank (init 3) ∧
       component_count s' = component_count (init 3)) ∧
    (0 ≠ 2 →
       component_count s' = component_count (init 3) - 1 ∧
       ∃ w, (w = 0 ∨ w = 2) ∧
         ∀ z r, repr (parent (init 3)) z r →
           repr (parent s') z (if decide (r = 0 ∨ r = 2) then w else r)).
Proof.
  apply (union_merges_two_components 3 (init 3) 0 2 0 2 5);
    [lia|apply reachable_init|lia|lia|simpl; lia|..];
    apply repr_root; by split.
Defined.

(** X7: [union] with an index out of range raises [IndexError] and never
    merges.  If the first index is out of range (beyond [size - 1] or below
    [-size]) nothing changes at all; if only the second one is, the [find]
    of the first may have compressed its path, but the count, the ranks and
    the representative of every element are unchanged. *)
Theorem union_index_error size s :
  0 ≤ size → reachable size s →
  (∀ x y fuel, x < - size ∨ size ≤ x →
     union (S fuel) x y s = (Raise IndexError, s)) ∧
  (∀ x y fuel, - size ≤ x < size → y < - size ∨ size ≤ y →
     (Z.to_nat size + 2 ≤ fuel)%nat →
     ∃ s', union fuel x y s = (Raise IndexError, s') ∧
       component_count s' = component_count s ∧ rank s' = rank s ∧
       same_partition (parent s) (parent s')).
Proof.
  intros Hsize Hs. destruct (reachable_inv size s) as [Hinv Hlen]; [done..|].
  split.
  - intros x y fuel Hx. rewrite union_unfold, find_invalid; [done|].
    apply py_index_out. lia.
  - intros x y fuel Hx Hy Hfuel.
    assert (∃ i, py_index (length (parent s)) x = Some i) as [i Hi].
    { destruct (decide (0 ≤ x)).
      - eexists. apply py_index_nonneg. lia.
      - eexists. apply py_index_neg. lia. }
    destruct (find_valid s fuel x i) as (r & s1 & H1 & _); [done|done|lia|].
    pose proof (find_spec _ _ _ _ _ Hinv H1) as (_ & Hp & Hrk & Hcc & _); [done|].
    exists s1. rewrite union_unfold, H1.
    destruct fuel as [|fuel]; [lia|].
    rewrite find_invalid; [done|]. apply py_index_out.
    rewrite (proj1 Hp). lia.
Qed.

Lemma union_index_error_witness :
  (∀ x y fuel, x < - 2 ∨ 2 ≤ x →
     union (S fuel) x y (init 2) = (Raise IndexError, init 2)) ∧
  (∀ x y fuel, - 2 ≤ x < 2 → y < - 2 ∨ 2 ≤ y →
     (Z.to_nat 2 + 2 ≤ fuel)%nat →
     ∃ s', union fuel x y (init 2) = (Raise IndexError, s') ∧
       component_count s' = component_count (init 2) ∧ rank s' = rank (init 2) ∧
       same_partition (parent (init 2)) (parent s')).
Proof. apply (union_index_error 2 (init 2)); [lia|apply reachable_init]. Defined.

(** *** What [get_component_sizes] returns and leaves behind *)

Lemma dict_get_set_eq d k v dflt : dict_get (dict_set d k v) k dflt = v.
Proof.
  induction d as [|[k0 v0] d IH]; simpl; [by rewrite decide_True|].
  destruct (decide (k0 = k)) as [->|Hne]; simpl.
  - by rewrite decide_True.
  - by rewrite decide_False.
Qed.

Lemma dict_get_set_ne d k v k' dflt :
  k' ≠ k → dict_get (dict_set d k v) k' dflt = dict_get d k' dflt.
Proof.
  intros Hne. induction d as [|[k0 v0] d IH]; simpl; [by rewrite decide_False|].
  destruct (decide (k0 = k)) as [->|Hne0]; simpl.
  - by rewrite !decide_False by done.
  - by rewrite IH.
Qed.

Lemma dict_get_elem (d : dict) k v dflt :
  NoDup d.*1 → (k, v) ∈ d → dict_get d k dflt = v.
Proof.
  induction d as [|[k0 v0] d IH]; intros Hnd Hin; [by apply elem_of_nil in Hin|].
  apply NoDup_cons in Hnd as [Hk0 Hnd]. simpl.
  apply elem_of_cons in Hin as [[= <- <-]|Hin]; [by rewrite decide_True|].
  rewrite decide_False; [by apply IH|]. intros ->. apply Hk0.
  apply list_elem_of_fmap. by exists (k, v).
Qed.

Lemma compressed_direct p p' (z : nat) r :
  compressed p p' → p !! z = Some r → is_root p r → p' !! z = Some r.
Proof.
  intros [Hlen Hc] Hz Hr.
  destruct (lookup_lt_is_Some_2 p' z) as [v Hv].
  { rewrite Hlen. by eapply lookup_lt_Some. }
  rewrite Hv. f_equal. destruct (Hc _ _ Hv) as [H|H]; [congruence|].
  eapply repr_det; [done|]. destruct (decide (r = Z.of_nat z)) as [->|Hne].
  - by apply repr_root.
  - eapply repr_step; [|by apply repr_root]. split; [|done].
    by apply parent_of_nat.
Qed.

(** The loop leaves every visited element, and every element that already
    pointed at its root, pointing at its root. *)
Lemma sizes_loop_flat fuel idx : ∀ s m m' s',
  uf_inv s →
  Forall (λ i, 0 ≤ i < Z.of_nat (length (parent s))) idx →
  (length (parent s) + 2 ≤ fuel)%nat →
  sizes_loop fuel idx m s = (Ret m', s') →
  (∀ (z : nat) r, parent s !! z = Some r → is_root (parent s) r →
                  parent s' !! z = Some r) ∧
  (∀ i r, i ∈ idx → repr (parent s) i r → parent s' !! Z.to_nat i = Some r).
Proof.
  induction idx as [|i idx IH]; intros s m m' s' Hinv Hidx Hfuel.
  { simpl. unfold mret, M_ret, ret. intros [= <- <-].
    split; [done|]. intros i r Hi. by apply elem_of_nil in Hi. }
  apply Forall_cons in Hidx as [Hi Hidx]. simpl.
  unfold mbind, M_bind, bind.
  destruct (find_valid s fuel i (Z.to_nat i)) as (r & s1 & H1 & Hr & Hc & Hpi);
    [done|by apply py_index_nonneg|done|].
  rewrite Z2Nat.id in Hr by lia.
  pose proof (find_spec _ _ _ _ _ Hinv H1) as (Hinv1 & Hp1 & _); [done|].
  rewrite H1. pose proof Hp1 as [Hlen1 Hp1']. intros Hloop.
  eapply IH in Hloop as [Hkeep Hvis];
    [|done|by rewrite Hlen1|by rewrite Hlen1].
  split.
  - intros z r' Hz Hr'. apply Hkeep.
    + by eapply compressed_direct.
    + by apply (same_partition_root _ _ _ Hp1).
  - intros i' r' [->|Hi']%elem_of_cons Hr''.
    + rewrite (repr_det _ _ _ _ Hr'' Hr). apply Hkeep; [done|].
      apply (same_partition_root _ _ _ Hp1). by eapply repr_is_root.
    + apply Hvis; [done|]. by apply Hp1'.
Qed.

(** X8: [get_component_sizes] flattens the forest.  In a reachable state it
    returns, and afterwards the parent of every element is the root of its
    component; the ranks, the count and the representative of every element
    are unchanged. *)
Theorem component_sizes_flattens size s fuel :
  0 ≤ size → reachable size s → (Z.to_nat size + 2 ≤ fuel)%nat →
  ∃ sizes s', get_component_sizes fuel s = (Ret sizes, s') ∧
    (∀ x r, repr (parent s) x r → parent s' !! Z.to_nat x = Some r) ∧
    same_partition (parent s) (parent s') ∧
    rank s' = rank s ∧ component_count s' = component_count s.
Proof.
  intros Hsize Hs Hfuel.
  destruct (reachable_inv size s) as [Hinv Hlen]; [done..|].
  destruct (get_component_sizes_spec s fuel) as
    (m & s' & Hg & _ & Hp & Hrk & Hcc & _); [done|lia|].
  exists (dict_values m), s'. split_and!; try done.
  intros x r Hr. rewrite get_component_sizes_unfold in Hg.
  destruct (sizes_loop _ _ _ _) as [[m0| |] s0] eqn:Hloop; simplify_eq.
  eapply sizes_loop_flat in Hloop as [_ Hvis];
    [|done|apply py_range_Forall|lia].
  apply Hvis; [|done]. unfold py_range. rewrite elem_of_seqZ.
  pose proof (repr_lt _ _ _ Hr). lia.
Qed.

Lemma component_sizes_flattens_witness :
  ∃ sizes s', get_component_sizes 7 chain_state = (Ret sizes, s') ∧
    (∀ x r, repr (parent chain_state) x r → parent s' !! Z.to_nat x = Some r) ∧
    same_partition (parent chain_state) (parent s') ∧
    rank s' = rank chain_state ∧
    component_count s' = component_count chain_state.
Proof.
  apply (component_sizes_flattens 5 chain_state 7);
    [lia|apply chain_state_reachable|simpl; lia].
Defined.

(** The dictionary counts, for every root, the visited elements of its
    component. *)
Lemma sizes_loop_members fuel (R : Z → Z → Prop) idx : ∀ s m done_ m' s',
  uf_inv s → (∀ x r, R x r ↔ repr (parent s) x r) →
  Forall (λ i, 0 ≤ i < Z.of_nat (length (parent s))) idx →
  NoDup idx → (∀ x, x ∈ idx → x ∉ done_) →
  (length (parent s) + 2 ≤ fuel)%nat →
  (∀ r, ∃ mem : list Z, NoDup mem ∧ (∀ x, x ∈ mem ↔ x ∈ done_ ∧ R x r) ∧
        dict_get m r 0 = Z.of_nat (length mem)) →
  sizes_loop fuel idx m s = (Ret m', s') →
  ∀ r, ∃ mem : list Z, NoDup mem ∧ (∀ x, x ∈ mem ↔ x ∈ done_ ++ idx ∧ R x r) ∧
       dict_get m' r 0 = Z.of_nat (length mem).
Proof.
  induction idx as [|i idx IH];
    intros s m done_ m' s' Hinv HR Hidx Hnd Hfresh Hfuel Hm.
  { simpl. unfold mret, M_ret, ret. intros [= <- <-]. by rewrite app_nil_r. }
  apply Forall_cons in Hidx as [Hi Hidx].
  apply NoDup_cons in Hnd as [Hi_idx Hnd]. simpl.
  unfold mbind, M_bind, bind.
  destruct (find_valid s fuel i (Z.to_nat i)) as (r0 & s1 & H1 & Hr0 & _);
    [done|by apply py_index_nonneg|done|].
  rewrite Z2Nat.id in Hr0 by lia.
  pose proof (find_spec _ _ _ _ _ Hinv H1) as (Hinv1 & Hp1 & _); [done|].
  rewrite H1. pose proof Hp1 as [Hlen1 Hp1']. intros Hloop r.
  assert (∀ r, ∃ mem : list Z, NoDup mem ∧
            (∀ x, x ∈ mem ↔ x ∈ (done_ ++ [i]) ++ idx ∧ R x r) ∧
            dict_get m' r 0 = Z.of_nat (length mem)) as Hres;
    [eapply (IH s1 _ (done_ ++ [i]) m' s');
       [done|by intros; rewrite HR|by rewrite Hlen1|done| |by rewrite Hlen1
       | |done]|].
  3:{ destruct (Hres r) as (mem & ? & Hmem & ?). exists mem.
      split_and!; [done| |done]. intros x. rewrite Hmem.
      by rewrite <-app_assoc. }
  - intros x Hx [Hd| ->%list_elem_of_singleton]%elem_of_app; [|done].
    eapply Hfresh; [by right|done].
  - intros r'. destruct (Hm r') as (mem & Hmnd & Hmem & Hget).
    destruct (decide (r' = r0)) as [->|Hne].
    + exists (mem ++ [i]). split_and!.
      * apply NoDup_app. split_and!; [done| |apply NoDup_singleton].
        intros x [Hx _]%Hmem ->%list_elem_of_singleton.
        eapply Hfresh; [by left|done].
      * intros x. rewrite !elem_of_app, Hmem, list_elem_of_singleton.
        split; [|tauto]. intros [[? ?]| ->]; [tauto|].
        split; [by right|by apply HR].
      * rewrite dict_get_set_eq, Hget, length_app. simpl. lia.
    + exists mem. split_and!; [done| |by rewrite dict_get_set_ne].
      intros x. rewrite Hmem, elem_of_app, list_elem_of_singleton.
      split; [tauto|]. intros [[?| ->] Hx]; [done|].
      destruct Hne. apply HR in Hx. by eapply repr_det.
Qed.

(** X9: every size that [get_component_sizes] returns is the number of
    elements of one component.  The returned list holds the values of a
    dictionary; for each of its entries [(r, v)], [r] is a root and [v] is
    the number of elements whose representative is [r], which is at least
    one. *)
Theorem component_sizes_count_members size s fuel :
  0 ≤ size → reachable size s → (Z.to_nat size + 2 ≤ fuel)%nat →
  ∃ size_map s',
    get_component_sizes fuel s = (Ret (dict_values size_map), s') ∧
    ∀ r v, (r, v) ∈ size_map →
      is_root (parent s) r ∧ 1 ≤ v ∧
      ∃ members : list Z,
        NoDup members ∧ (∀ x, x ∈ members ↔ repr (parent s) x r) ∧
        v = Z.of_nat (length members).
Proof.
  intros Hsize Hs Hfuel.
  destruct (reachable_inv size s) as [Hinv Hlen]; [done..|].
  rewrite get_component_sizes_unfold.
  destruct (sizes_loop_spec fuel (py_range 0 (Z.of_nat (length (parent s)))) s [])
    as (m & s' & Hloop & _ & _ & _ & _ & Hnd & _ & Hkeys);
    [done|apply py_range_Forall|lia|].
  rewrite Hloop. exists m, s'. split; [done|]. intros r v Hrv.
  specialize (Hnd (NoDup_nil_2)).
  assert (is_root (parent s) r) as Hroot.
  { assert (r ∈ m.*1) as Hr by (apply list_elem_of_fmap; by exists (r, v)).
    apply Hkeys in Hr as [Hr|(i & _ & Hi)]; [by apply elem_of_nil in Hr|].
    by eapply repr_is_root. }
  pose proof (sizes_loop_members fuel (repr (parent s))
                (py_range 0 (Z.of_nat (length (parent s)))) s [] [] m s') as Hmem.
  destruct (Hmem Hinv) with (r := r) as (mem & Hmnd & Hmem' & Hget);
    [done|apply py_range_Forall|apply NoDup_seqZ
    |intros ? _ H; by apply elem_of_nil in H|lia| |done|].
  { intros r'. exists []. split_and!; [constructor| |done].
    intros x. split; [intros H; by apply elem_of_nil in H|].
    intros [H _]. by apply elem_of_nil in H. }
  rewrite (dict_get_elem _ _ _ _ Hnd Hrv) in Hget. subst v.
  assert (∀ x, x ∈ mem ↔ repr (parent s) x r) as Hall.
  { intros x. rewrite Hmem'. simpl. split; [by intros [_ ?]|]. intros Hx.
    split; [|done]. unfold py_range. rewrite elem_of_seqZ.
    pose proof (repr_lt _ _ _ Hx). lia. }
  split_and!; [done| |by exists mem].
  assert (r ∈ mem) as Hin by (by apply Hall, repr_root).
  destruct mem; [by apply elem_of_nil in Hin|simpl; lia].
Qed.

Lemma component_sizes_count_witness :
  ∃ size_map s',
    get_component_sizes 7 chain_state = (Ret (dict_values size_map), s') ∧
    ∀ r v, (r, v) ∈ size_map →
      is_root (parent chain_state) r ∧ 1 ≤ v ∧
      ∃ members : list Z,
        NoDup members ∧ (∀ x, x ∈ members ↔ repr (parent chain_state) x r) ∧
        v = Z.of_nat (length members).
Proof.
  apply (component_sizes_count_members 5 chain_state 7);
    [lia|apply chain_state_reachable|simpl; lia].
Defined.

(** *** [solve_part2] on a connected list of pairs *)

Lemma same_partition_joined p p' a b :
  same_partition p p' → joined p a b → joined p' a b.
Proof. intros [_ H] (r & Ha & Hb). exists r. split; by apply H. Qed.

(** [union] joins its arguments and separates nothing. *)
Lemma union_joined s fuel x y :
  uf_inv s →
  0 ≤ x < Z.of_nat (length (parent s)) → 0 ≤ y < Z.of_nat (length (parent s)) →
  (length (parent s) + 2 ≤ fuel)%nat →
  ∃ b s', union fuel x y s = (Ret b, s') ∧ uf_inv s' ∧
    length (parent s') = length (parent s) ∧
    joined (parent s') x y ∧
    ∀ a c, joined (parent s) a c → joined (parent s') a c.
Proof.
  intros Hinv Hx Hy Hfuel.
  destruct (union_valid s fuel x y (Z.to_nat x) (Z.to_nat y))
    as (rx & s1 & ry & s2 & H1 & H2 & Hrx & Hry & Hinv2 & Hp & _ & _ & Hu);
    [done|apply py_index_nonneg; lia|apply py_index_nonneg; lia|lia|].
  rewrite Z2Nat.id in Hrx, Hry by lia.
  pose proof Hp as [Hlen Hp']. apply Hp' in Hrx, Hry.
  case_bool_decide as Heq.
  - subst ry. exists false, s2. split_and!; try done.
    + by exists rx.
    + intros a c. by apply same_partition_joined.
  - exists true, (link s2 rx ry).
    assert (is_root (parent s2) rx) by (by eapply repr_is_root).
    assert (is_root (parent s2) ry) by (by eapply repr_is_root).
    destruct (link_repr s2 rx ry) as (w & _ & Hw); [done..|].
    split_and!; [done|by apply link_inv|by rewrite link_length| |].
    + exists w. split.
      * specialize (Hw _ _ Hrx). by rewrite decide_True in Hw by (by left).
      * specialize (Hw _ _ Hry). by rewrite decide_True in Hw by (by right).
    + intros a c (r & Ha%Hp' & Hc%Hp'). eexists. split; by apply Hw.
Qed.

Lemma scan_prefix_joined {float} fuel (pairs : list (float * Z * Z)) : ∀ s s',
  uf_inv s →
  Forall (λ t, 0 ≤ t.1.2 < Z.of_nat (length (parent s)) ∧
               0 ≤ t.2 < Z.of_nat (length (parent s))) pairs →
  (length (parent s) + 2 ≤ fuel)%nat →
  scan_prefix fuel pairs s = Some s' →
  uf_inv s' ∧ length (parent s') = length (parent s) ∧
  (component_count s ≠ 1 → component_count s' ≠ 1) ∧
  (∀ a c, joined (parent s) a c → joined (parent s') a c) ∧
  (∀ t, t ∈ pairs → joined (parent s') t.1.2 t.2).
Proof.
  induction pairs as [|[[d i] j] rest IH]; intros s s' Hinv Hvalid Hfuel.
  { simpl. intros [= <-]. split_and!; try done.
    intros t Ht. by apply elem_of_nil in Ht. }
  apply Forall_cons in Hvalid as [[Hi Hj] Hvalid]. simpl in Hi, Hj.
  cbn [scan_prefix].
  destruct (union_joined s fuel i j) as (b & s1 & Hu & Hinv1 & Hlen1 & Hij & Hkeep);
    [done..|].
  rewrite Hu. pose proof (union_count _ _ _ _ _ _ Hu) as Hc.
  destruct (b && bool_decide (component_count s1 = 1)) eqn:Hb; [done|].
  intros Hscan. apply IH in Hscan as (Hinv' & Hlen' & Hcnt & Hkeep' & Hall);
    [|done|by rewrite Hlen1|by rewrite Hlen1].
  split_and!; [done|congruence| |by eauto|].
  - intros Hs. apply Hcnt.
    destruct b; simpl in *; [by apply bool_decide_eq_false in Hb|lia].
  - intros t [->|Ht]%elem_of_cons; [by apply Hkeep'|by apply Hall].
Qed.

Lemma joined_to_one_root p a :
  (∀ x, 0 ≤ x < Z.of_nat (length p) → joined p a x) →
  0 ≤ a < Z.of_nat (length p) → count_roots p = 1%nat.
Proof.
  intros Hall Ha. destruct (Hall a Ha) as (r0 & Hr0 & _).
  symmetry. apply (roots_length p [r0]); [apply NoDup_singleton|].
  intros r. rewrite list_elem_of_singleton. split.
  - intros ->. by eapply repr_is_root.
  - intros Hr. destruct (Hall r (parent_of_lt _ _ _ Hr)) as (r' & Ha' & Hr').
    rewrite (repr_root_inv _ _ _ Hr Hr') in Ha'. by eapply repr_det.
Qed.

Lemma joined_sym p a b : joined p a b → joined p b a.
Proof. intros (r & ? & ?). by exists r. Qed.

(** With indices in range and enough fuel [solve_part2] returns or raises
    [ValueError]. *)
Lemma solve_part2_valid_outcomes {float} fuel coords
    (pairs : list (float * Z * Z)) :
  (length coords + 2 ≤ fuel)%nat →
  Forall (λ t, 0 ≤ t.1.2 < Z.of_nat (length coords) ∧
               0 ≤ t.2 < Z.of_nat (length coords)) pairs →
  solve_part2 fuel coords pairs = Raise ValueError ∨
  ∃ v, solve_part2 fuel coords pairs = Ret v.
Proof.
  intros Hfuel Hvalid. set (n := Z.of_nat (length coords)).
  destruct (scan_pairs_finished fuel coords pairs (init n)) as [Hfin Hidx];
    [apply init_inv; lia|pose proof (init_length n); lia|done|].
  specialize (Hidx Hvalid). unfold solve_part2. fold n.
  pose proof (scan_pairs_raise fuel coords pairs (init n)) as Hexn.
  destruct (scan_pairs fuel coords pairs (init n)) as [[v|e|] s'];
    simpl in *; [by eauto| |done].
  destruct (Hexn e) as [-> | ->]; [done|done|by left].
Qed.

(** On a list that joins every point to point 0 the scan is not
    exhausted. *)
Lemma solve_part2_connected_no_ValueError {float} fuel coords
    (pairs : list (float * Z * Z)) :
  (2 ≤ length coords)%nat → (length coords + 2 ≤ fuel)%nat →
  Forall (λ t, 0 ≤ t.1.2 < Z.of_nat (length coords) ∧
               0 ≤ t.2 < Z.of_nat (length coords)) pairs →
  (∀ j, 0 < j < Z.of_nat (length coords) →
        ∃ d, (d, 0, j) ∈ pairs ∨ (d, j, 0) ∈ pairs) →
  solve_part2 fuel coords pairs ≠ Raise ValueError.
Proof.
  intros Hn Hfuel Hvalid Hstar Hraise. unfold solve_part2 in Hraise.
  set (n := Z.of_nat (length coords)) in Hraise.
  assert (uf_inv (init n)) as Hinv by (apply init_inv; lia).
  assert (length (parent (init n)) = length coords) as Hlen
    by (pose proof (init_length n); lia).
  apply scan_pairs_ValueError in Hraise as [s1 Hpre].
  apply scan_prefix_joined in Hpre as (Hinv1 & Hlen1 & Hcnt & _ & Hall);
    [|done|by rewrite Hlen|lia].
  apply Hcnt; [simpl; lia|].
  rewrite (inv_count _ Hinv1).
  rewrite (joined_to_one_root _ 0); [done| |lia].
  intros x Hx. destruct (decide (x = 0)) as [->|Hx0].
  - destruct (proj1 (inv_forest s1 Hinv1) 0) as [r Hr]; [lia|]. by exists r.
  - destruct (Hstar x) as [d [Hd|Hd]]; [lia| |].
    + apply (Hall _ Hd).
    + apply joined_sym, (Hall _ Hd).
Qed.

(** X10: [solve_part2] returns on a connected input.  For at least two
    points and a list of pairs of indices in range that contains, for every
    point [j] other than point 0, a pair of 0 and [j] (in either order, as
    every arrangement of the list of all pairs does), [solve_part2] returns
    a value: the [ValueError] after the loop is not reached. *)
Theorem solve_part2_returns_on_connected_pairs {float} fuel coords
    (pairs : list (float * Z * Z)) :
  (2 ≤ length coords)%nat → (length coords + 2 ≤ fuel)%nat →
  Forall (λ t, 0 ≤ t.1.2 < Z.of_nat (length coords) ∧
               0 ≤ t.2 < Z.of_nat (length coords)) pairs →
  (∀ j, 0 < j < Z.of_nat (length coords) →
        ∃ d, (d, 0, j) ∈ pairs ∨ (d, j, 0) ∈ pairs) →
  solve_part2 fuel coords pairs ≠ Raise ValueError ∧
  ∃ v, solve_part2 fuel coords pairs = Ret v.
Proof.
  intros Hn Hfuel Hvalid Hstar.
  pose proof (solve_part2_connected_no_ValueError fuel coords pairs
                Hn Hfuel Hvalid Hstar) as Hno.
  split; [done|].
  by destruct (solve_part2_valid_outcomes fuel coords pairs Hfuel Hvalid).
Qed.

Lemma solve_part2_returns_witness :
  solve_part2 5 [(0, 0, 0); (1, 0, 0); (5, 0, 0)]
    [(1, 0, 1); (4, 1, 2); (5, 0, 2)] ≠ Raise ValueError ∧
  ∃ v, solve_part2 5 [(0, 0, 0); (1, 0, 0); (5, 0, 0)]
         [(1, 0, 1); (4, 1, 2); (5, 0, 2)] = Ret v.
Proof.
  apply (solve_part2_returns_on_connected_pairs 5
           [(0, 0, 0); (1, 0, 0); (5, 0, 0)] [(1, 0, 1); (4, 1, 2); (5, 0, 2)]).
  - simpl. lia.
  - simpl. lia.
  - repeat constructor; simpl; lia.
  - intros j Hj. simpl in Hj.
    assert (j = 1 ∨ j = 2) as [-> | ->] by lia.
    + exists 1. left. set_solver.
    + exists 5. left. set_solver.
Defined.

(** Every rearrangement of the list of all pairs has its indices in range
    and joins every point to point 0. *)
Lemma all_distances_connected {float} (math_sqrt : Z → option float) coords l
    (sorted_distances : list (float * Z * Z)) :
  calculate_all_distances math_sqrt coords = Ret l →
  sorted_distances ≡ₚ l →
  Forall (λ t, 0 ≤ t.1.2 < Z.of_nat (length coords) ∧
               0 ≤ t.2 < Z.of_nat (length coords)) sorted_distances ∧
  (∀ j, 0 < j < Z.of_nat (length coords) →
        ∃ d, (d, 0, j) ∈ sorted_distances ∨ (d, j, 0) ∈ sorted_distances).
Proof.
  intros [Hidx _]%calculate_all_distances_Ret Hperm. split.
  - rewrite Hperm. apply Forall_forall. intros [[d i] j] Ht.
    assert ((i, j) ∈ pair_indices <$> l) as Hin
      by (apply list_elem_of_fmap; by exists (d, i, j)).
    rewrite Hidx in Hin. apply index_pairs_elem in Hin. simpl. lia.
  - intros j Hj.
    assert ((0, j) ∈ pair_indices <$> l) as Hin
      by (rewrite Hidx; apply index_pairs_elem; lia).
    apply list_elem_of_fmap in Hin as ([[d i'] j'] & [= <- <-] & Ht).
    exists d. left. by rewrite Hperm.
Qed.

(** X11: part 2 of the pipeline always finds the unifying pair.  For at
    least two points, [solve_part2] applied to any rearrangement (such as
    the sort by distance in [main]) of the list that
    [calculate_all_distances] returns for these points returns a value. *)
Theorem solve_part2_returns_on_all_distances {float}
    (math_sqrt : Z → option float)
    fuel coords l (sorted_distances : list (float * Z * Z)) :
  (2 ≤ length coords)%nat → (length coords + 2 ≤ fuel)%nat →
  calculate_all_distances math_sqrt coords = Ret l →
  sorted_distances ≡ₚ l →
  ∃ v, solve_part2 fuel coords sorted_distances = Ret v.
Proof.
  intros Hn Hfuel Hl Hperm.
  destruct (all_distances_connected math_sqrt coords l sorted_distances)
    as [Hvalid Hstar]; [done..|].
  destruct (solve_part2_valid_outcomes fuel coords sorted_distances)
    as [Hraise|Hret]; [done..| |done].
  by apply solve_part2_connected_no_ValueError in Hraise.
Qed.

Lemma solve_part2_returns_on_all_distances_witness :
  ∃ v, solve_part2 5 [(0, 0, 0); (3, 4, 0); (3, 4, 12)]
         [(12, 1, 2); (5, 0, 1); (13, 0, 2)] = Ret v.
Proof.
  apply (solve_part2_returns_on_all_distances example_sqrt 5
           [(0, 0, 0); (3, 4, 0); (3, 4, 12)]
           [(5, 0, 1); (13, 0, 2); (12, 1, 2)]).
  - simpl. lia.
  - simpl. lia.
  - reflexivity.
  - by rewrite (Permutation_cons_append [(5, 0, 1); (13, 0, 2)] (12, 1, 2)).
Defined.

(** *** Part 1 *)

Lemma connect_loop_cons {float} fuel (sorted : list (float * Z * Z)) i idx s :
  connect_loop fuel sorted (i :: idx) s =
  match py_get sorted i with
  | None => (Raise IndexError, s)
  | Some t =>
      match union fuel t.1.2 t.2 s with
      | (Ret _, s1) => connect_loop fuel sorted idx s1
      | (Raise e, s1) => (Raise e, s1)
      | (OutOfFuel, s1) => (OutOfFuel, s1)
      end
  end.
Proof.
  cbn [connect_loop]. unfold mbind, M_bind, bind, index_result.
  destruct (py_get sorted i) as [t|]; [|done]. cbn.
  by destruct (union fuel t.1.2 t.2 s) as [[b| |] s1].
Qed.


(** The loop returns or raises [IndexError], and keeps the invariant. *)
Lemma connect_loop_spec {float} fuel (sorted : list (float * Z * Z)) idx :
  ∀ s o s', uf_inv s → (length (parent s) + 2 ≤ fuel)%nat →
  connect_loop fuel sorted idx s = (o, s') →
  uf_inv s' ∧ length (parent s') = length (parent s) ∧
  (o = Ret () ∨ o = Raise IndexError).
Proof.
  induction idx as [|i idx IH]; intros s o s' Hinv Hfuel.
  { cbn. unfold mret, M_ret, ret. intros [= <- <-]. auto. }
  rewrite connect_loop_cons.
  destruct (py_get sorted i) as [t|]; [|intros [= <- <-]; auto].
  destruct (union fuel t.1.2 t.2 s) as [[b| |] s1] eqn:Hu.
  - apply union_spec in Hu as [Hinv1 Hlen1]; [|done..].
    intros H. apply IH in H as (? & ? & ?); [|done|lia].
    split_and!; [done|congruence|done].
  - pose proof (union_raise _ _ _ _ _ _ Hu) as ->.
    apply union_spec in Hu as [Hinv1 Hlen1]; [|done..].
    intros [= <- <-]. auto.
  - by apply union_finished in Hu.
Qed.

(** On pairs of indices in range the loop is the run of the [union] calls
    on the selected pairs. *)
Lemma connect_loop_run {float} fuel (sorted : list (float * Z * Z)) idx ps :
  Forall2 (λ i t, py_get sorted i = Some t) idx ps →
  ∀ s, uf_inv s → (length (parent s) + 2 ≤ fuel)%nat →
  Forall (λ t, 0 ≤ t.1.2 < Z.of_nat (length (parent s)) ∧
               0 ≤ t.2 < Z.of_nat (length (parent s))) ps →
  connect_loop fuel sorted idx s
  = (Ret (), (run_ops fuel (union_ops ps) s).2).
Proof.
  induction 1 as [|i t idx ps Hi _ IH]; intros s Hinv Hfuel Hvalid; [done|].
  apply Forall_cons in Hvalid as [[Hx Hy] Hvalid].
  rewrite connect_loop_cons, Hi.
  cbn [union_ops fmap list_fmap run_ops run_op]. fold (union_ops ps).
  destruct (union_joined s fuel t.1.2 t.2) as (b & s1 & Hu & Hinv1 & Hlen1 & _);
    [done..|].
  rewrite Hu, IH by (done || by rewrite Hlen1).
  by destruct (run_ops fuel (union_ops ps) s1).
Qed.

Lemma py_range_take {A} (l : list A) k :
  k ≤ Z.of_nat (length l) →
  Forall2 (λ i t, py_get l i = Some t) (py_range 0 k) (take (Z.to_nat k) l).
Proof.
  intros Hk. apply Forall2_same_length_lookup. split.
  - unfold py_range. rewrite length_seqZ, length_take. lia.
  - intros i x t Hx Ht. unfold py_range in Hx.
    apply lookup_seqZ in Hx as [-> Hi].
    apply lookup_take_Some in Ht as [Ht _].
    rewrite py_get_nonneg by (apply lookup_lt_Some in Ht; lia).
    by rewrite Z.add_0_l, Nat2Z.id.
Qed.

Lemma sorted_reverse_Permutation l : sorted_reverse l ≡ₚ l.
Proof. apply merge_sort_Permutation. Qed.

Lemma sorted_reverse_sorted l : StronglySorted descending (sorted_reverse l).
Proof.
  apply StronglySorted_merge_sort.
  - intros a b c. unfold descending. lia.
  - intros a b. unfold descending. lia.
Qed.

Lemma solve_part1_body_unfold {float} fuel (sorted : list (float * Z * Z)) k s :
  solve_part1_body fuel sorted k false s =
  match connect_loop fuel sorted (py_range 0 k) s with
  | (Ret _, s1) =>
      match get_component_sizes fuel s1 with
      | (Ret sizes, s2) =>
          match sorted_reverse sizes with
          | a :: b :: c :: _ => (Ret (a * b * c), s2)
          | _ => (Raise IndexError, s2)
          end
      | (Raise e, s2) => (Raise e, s2)
      | (OutOfFuel, s2) => (OutOfFuel, s2)
      end
  | (Raise e, s1) => (Raise e, s1)
  | (OutOfFuel, s1) => (OutOfFuel, s1)
  end.
Proof.
  unfold solve_part1_body, mbind, M_bind, bind, mret, M_ret, ret.
  destruct (connect_loop _ _ _ _) as [[[]| |] s1]; [|done..].
  destruct (get_component_sizes fuel s1) as [[sizes| |] s2]; [|done..].
  unfold index_result, raise.
  destruct (sorted_reverse sizes) as [|a [|b [|c rest]]];
    repeat first [ rewrite py_get_nonneg by (simpl; lia)
                 | rewrite py_get_out by (simpl; lia)
                 | progress simpl ]; done.
Qed.


Lemma solve_part1_unfold {float} fuel coords (sorted : list (float * Z * Z)) k :
  solve_part1 fuel coords sorted k false =
  (solve_part1_body fuel sorted k false (init (Z.of_nat (length coords)))).1.
Proof. done. Qed.

(** The sizes list of a state that satisfies the invariant has one entry
    per component. *)
Lemma get_component_sizes_length s fuel :
  uf_inv s → (length (parent s) + 2 ≤ fuel)%nat →
  ∃ sizes s', get_component_sizes fuel s = (Ret sizes, s') ∧
    Z.of_nat (length sizes) = component_count s ∧
    (length sizes ≤ length (parent s))%nat.
Proof.
  intros Hinv Hfuel.
  destruct (get_component_sizes_spec s fuel) as
    (m & s' & Hg & _ & _ & _ & _ & Hnd & Hkeys & _); [done..|].
  exists (dict_values m), s'. split; [done|].
  rewrite dict_values_length, (roots_length (parent s)) by done.
  split; [by rewrite (inv_count _ Hinv)|apply count_roots_le].
Qed.

(** X12: [solve_part1] without [debug], on pairs of indices in range and
    with [n_connections] at most the number of pairs, unites the first
    [n_connections] pairs (none if the number is negative) and then looks
    at the component sizes: with fewer than three components it raises
    [IndexError]; otherwise it returns the product [a * b * c] of the first
    three entries of the sizes in descending order, so [a >= b >= c] and
    no other component is larger than [c]. *)
Theorem solve_part1_three_largest {float} fuel coords
    (sorted : list (float * Z * Z)) k :
  (length coords + 2 ≤ fuel)%nat →
  Forall (λ t, 0 ≤ t.1.2 < Z.of_nat (length coords) ∧
               0 ≤ t.2 < Z.of_nat (length coords)) sorted →
  k ≤ Z.of_nat (length sorted) →
  ∃ sizes s',
    get_component_sizes fuel
      (run_ops fuel (union_ops (take (Z.to_nat k) sorted))
               (init (Z.of_nat (length coords)))).2 = (Ret sizes, s') ∧
    ((length sizes < 3)%nat →
       solve_part1 fuel coords sorted k false = Raise IndexError) ∧
    ((3 ≤ length sizes)%nat →
       ∃ a b c rest,
         a :: b :: c :: rest ≡ₚ sizes ∧ c ≤ b ∧ b ≤ a ∧
         Forall (λ v, v ≤ c) rest ∧
         solve_part1 fuel coords sorted k false = Ret (a * b * c)).
Proof.
  intros Hfuel Hvalid Hk. set (n := Z.of_nat (length coords)).
  assert (uf_inv (init n)) as Hinv by (apply init_inv; lia).
  assert (length (parent (init n)) = length coords) as Hlen
    by (pose proof (init_length n); lia).
  pose proof (connect_loop_run fuel sorted _ _ (py_range_take sorted k Hk)
                (init n) Hinv) as Hloop.
  rewrite Hlen in Hloop. specialize (Hloop Hfuel (Forall_take _ _ _ Hvalid)).
  assert (length (parent (init n)) + 2 ≤ fuel)%nat as Hfuel'
    by (by rewrite Hlen).
  destruct (connect_loop_spec _ _ _ _ _ _ Hinv Hfuel' Hloop)
    as (Hinv1 & Hlen1 & _).
  destruct (get_component_sizes_length _ fuel Hinv1) as (sizes & s' & Hg & _);
    [lia|].
  exists sizes, s'. split; [done|].
  rewrite solve_part1_unfold, solve_part1_body_unfold. fold n.
  rewrite Hloop, Hg.
  pose proof (sorted_reverse_Permutation sizes) as Hperm.
  pose proof (sorted_reverse_sorted sizes) as Hsorted.
  pose proof (Permutation_length Hperm) as Hplen.
  destruct (sorted_reverse sizes) as [|a [|b [|c rest]]]; simpl in Hplen;
    (split; [intros ?|intros ?]); try done; try lia.
  exists a, b, c, rest.
  apply StronglySorted_cons in Hsorted as [Ha Hsorted].
  apply StronglySorted_cons in Hsorted as [Hb Hsorted].
  apply StronglySorted_cons in Hsorted as [Hc _].
  apply Forall_cons in Ha as [Hab _]. apply Forall_cons in Hb as [Hbc _].
  by split_and!.
Qed.

Lemma solve_part1_three_largest_witness :
  ∃ sizes s',
    get_component_sizes 6
      (run_ops 6 (union_ops (take (Z.to_nat 1)
                    [(1, 0, 1); (1, 2, 3); (4, 1, 2); (5, 0, 2)]))
               (init (Z.of_nat (length [(0, 0, 0); (1, 0, 0); (5, 0, 0); (6, 0, 0)])))).2
      = (Ret sizes, s') ∧
    ((length sizes < 3)%nat →
       solve_part1 6 [(0, 0, 0); (1, 0, 0); (5, 0, 0); (6, 0, 0)]
         [(1, 0, 1); (1, 2, 3); (4, 1, 2); (5, 0, 2)] 1 false
       = Raise IndexError) ∧
    ((3 ≤ length sizes)%nat →
       ∃ a b c rest,
         a :: b :: c :: rest ≡ₚ sizes ∧ c ≤ b ∧ b ≤ a ∧
         Forall (λ v, v ≤ c) rest ∧
         solve_part1 6 [(0, 0, 0); (1, 0, 0); (5, 0, 0); (6, 0, 0)]
           [(1, 0, 1); (1, 2, 3); (4, 1, 2); (5, 0, 2)] 1 false
         = Ret (a * b * c)).
Proof.
  apply (solve_part1_three_largest 6 [(0, 0, 0); (1, 0, 0); (5, 0, 0); (6, 0, 0)]
           [(1, 0, 1); (1, 2, 3); (4, 1, 2); (5, 0, 2)] 1).
  - simpl. lia.
  - repeat constructor; simpl; lia.
  - simpl. lia.
Defined.

Example solve_part1_example :
  solve_part1 6 [(0, 0, 0); (1, 0, 0); (5, 0, 0); (6, 0, 0)]
    [(1, 0, 1); (1, 2, 3); (4, 1, 2); (5, 0, 2)] 1 false = Ret 2 ∧
  solve_part1 6 [(0, 0, 0); (1, 0, 0); (5, 0, 0); (6, 0, 0)]
    [(1, 0, 1); (1, 2, 3); (4, 1, 2); (5, 0, 2)] 2 true = Raise IndexError ∧
  solve_part1 6 [(0, 0, 0); (1, 0, 0); (5, 0, 0); (6, 0, 0)]
    [(1, 0, 1); (1, 2, 3); (4, 1, 2); (5, 0, 2)] 0 true = Ret 1.
Proof. split_and!; reflexivity. Qed.






(** *** The pipeline of [main] *)

Lemma determine_part1_connections_bound n :
  2 ≤ n → 1 ≤ determine_part1_connections n ≤ n * (n - 1) / 2.
Proof.
  intros Hn. unfold determine_part1_connections.
  repeat case_bool_decide; subst; [done..|].
  split.
  - apply Z.div_le_lower_bound; lia.
  - apply Z.div_le_mono; [lia|nia].
Qed.



(** Equal keys keep their order: the sort is stable. *)
Example sort_by_distance_example :
  sort_by_distance [(1, 0, 1); (2, 0, 2); (1, 1, 2); (0, 2, 3); (2, 1, 3)]
  = [(0, 2, 3); (1, 0, 1); (1, 1, 2); (2, 0, 2); (2, 1, 3)].
Proof. reflexivity. Qed.

(** X15: in [main] the number of connections of part 1 fits the pair list.
    [calculate_all_distances] raises [OverflowError], which needs two
    points, or returns the pair list; then, for [n >= 2] points,
    [determine_part1_connections] gives a number between 1 and the length
    of the list, and for fewer points the list is empty and the number
    is 0. *)
Theorem part1_connections_within_pairs {float} (math_sqrt : Z → option float)
    coords :
  (calculate_all_distances math_sqrt coords = Raise OverflowError ∧
   (2 ≤ length coords)%nat) ∨
  ∃ l, calculate_all_distances math_sqrt coords = Ret l ∧
    ((2 ≤ length coords)%nat →
       1 ≤ determine_part1_connections (Z.of_nat (length coords))
         ≤ Z.of_nat (length l)) ∧
    ((length coords < 2)%nat →
       l = [] ∧ determine_part1_connections (Z.of_nat (length coords)) = 0).
Proof.
  destruct (calculate_all_distances_outcomes math_sqrt coords)
    as [[Hraise Hover]|[l Hl]]; [left|right].
  { split; [done|].
    destruct Hover as (i & j & ci & cj & Hij & _ & Hcj%lookup_lt_Some & _).
    lia. }
  exists l. split; [done|].
  pose proof (calculate_all_distances_length math_sqrt coords l Hl) as Hlen.
  split.
  - intros Hn. rewrite Hlen. apply determine_part1_connections_bound. lia.
  - intros Hn. split.
    + apply length_zero_iff_nil.
      assert (Z.of_nat (length coords) * (Z.of_nat (length coords) - 1) / 2 = 0)
        as Hzero; [|lia].
      by assert (length coords = 0 ∨ length coords = 1)%nat as [-> | ->] by lia.
    + assert (length coords = 0 ∨ length coords = 1)%nat as [-> | ->] by lia;
        done.
Qed.

Lemma part1_connections_within_pairs_witness :
  ∃ l, calculate_all_distances example_sqrt
         [(0, 0, 0); (3, 4, 0); (3, 4, 12); (0, 0, 12); (7, 7, 7)] = Ret l ∧
    ((2 ≤ length [(0, 0, 0); (3, 4, 0); (3, 4, 12); (0, 0, 12); (7, 7, 7)])%nat →
       1 ≤ determine_part1_connections
             (Z.of_nat (length [(0, 0, 0); (3, 4, 0); (3, 4, 12); (0, 0, 12); (7, 7, 7)]))
         ≤ Z.of_nat (length l)) ∧
    ((length [(0, 0, 0); (3, 4, 0); (3, 4, 12); (0, 0, 12); (7, 7, 7)] < 2)%nat →
       l = [] ∧
       determine_part1_connections
         (Z.of_nat (length [(0, 0, 0); (3, 4, 0); (3, 4, 12); (0, 0, 12); (7, 7, 7)])) = 0).
Proof.
  destruct (part1_connections_within_pairs example_sqrt
              [(0, 0, 0); (3, 4, 0); (3, 4, 12); (0, 0, 12); (7, 7, 7)])
    as [[H _]|H].
  - vm_compute in H. discriminate H.
  - exact H.
Defined.





Example main_results_example :
  main_results example_sqrt sort_by_distance 8
    [(0, 0, 0); (1, 0, 0); (2, 0, 0); (10, 10, 10); (11, 10, 10); (50, 0, 0)]
    true = Ret (6, 550) ∧
  main_results example_sqrt sort_by_distance 4 [(0, 0, 0); (1, 0, 0)] false
  = Raise IndexError ∧
  main_results example_sqrt sort_by_distance 4 [(0, 0, 0); (10 ^ 155, 0, 0)] true
  = Raise OverflowError.
Proof. split_and!; vm_compute; reflexivity. Qed.

(** *** The command line *)

(** X18: the argument loop of [main].  The debug flag is set exactly when
    some argument is ["--debug"] (or it was set before), wherever it stands;
    the file name is the last argument that is not ["--debug"], and the
    given default if there is none. *)
Theorem parse_args_last_wins args filename debug :
  parse_args args filename debug =
  (default filename (last (filter (λ a, a ≠ "--debug"%string) args)),
   debug || bool_decide ("--debug"%string ∈ args)).
Proof.
  revert filename debug. induction args as [|a args IH]; intros f d.
  { simpl. by rewrite orb_false_r. }
  cbn [parse_args]. destruct (decide (a = "--debug"%string)) as [->|Hne].
  - rewrite IH, filter_cons_False by (intros H; by apply H).
    rewrite (bool_decide_true (_ ∈ _ :: _)) by (by left).
    by rewrite orb_true_r.
  - rewrite IH, filter_cons_True by done. f_equal.
    + rewrite last_cons. by destruct (last _).
    + f_equal. apply bool_decide_ext. rewrite elem_of_cons. naive_solver.
Qed.

(** *** The pair that [solve_part2] reports *)

Lemma scan_prefix_run {float} fuel (pairs : list (float * Z * Z)) s s1 :
  scan_prefix fuel pairs s = Some s1 →
  (run_ops fuel (union_ops pairs) s).2 = s1.
Proof.
  revert s. induction pairs as [|[[d i] j] rest IH]; intros s.
  { simpl. by intros [= <-]. }
  cbn [scan_prefix union_ops fmap list_fmap run_ops run_op]. simpl.
  fold (union_ops rest).
  destruct (union fuel i j s) as [[b| |] s'] eqn:Hu; [|done..].
  destruct (b && bool_decide (component_count s' = 1)); [done|].
  intros H%IH. by destruct (run_ops fuel (union_ops rest) s').
Qed.

(** X19: the pair that [solve_part2] reports is the one whose [union] is
    the [(n - 1)]-th successful one.  If [solve_part2] returns [v] for [n]
    points, the pair list splits at a pair [(d, i, j)] with [v] the product
    of the x-coordinates of the points [i] and [j], such that exactly
    [n - 2] of the [union] calls on the pairs before it returned [True] and
    the call on [(i, j)] returned [True] as well. *)
Theorem solve_part2_reports_last_merge {float} fuel coords
    (pairs : list (float * Z * Z)) v :
  solve_part2 fuel coords pairs = Ret v →
  ∃ pre d i j post ci cj,
    pairs = pre ++ (d, i, j) :: post ∧
    successful_unions
      (run_ops fuel (union_ops pre) (init (Z.of_nat (length coords)))).1
    = Z.of_nat (length coords) - 2 ∧
    (run_ops fuel (union_ops (pre ++ [(d, i, j)]))
             (init (Z.of_nat (length coords)))).1
    = (run_ops fuel (union_ops pre) (init (Z.of_nat (length coords)))).1
      ++ [RUnion (Ret true)] ∧
    py_get coords i = Some ci ∧ py_get coords j = Some cj ∧
    v = coord_x ci * coord_x cj.
Proof.
  unfold solve_part2. intros Hret.
  apply scan_pairs_Ret in Hret
    as (pre & d & i & j & post & s1 & s2 & ci & cj
        & -> & Hpre & Hu & Hc & Hi & Hj & ->).
  exists pre, d, i, j, post, ci, cj. apply scan_prefix_run in Hpre.
  pose proof (run_ops_count fuel (union_ops pre)
                (init (Z.of_nat (length coords)))) as Hcount.
  rewrite Hpre in Hcount. pose proof (union_count _ _ _ _ _ _ Hu) as Hcu.
  simpl in Hcount, Hcu. split_and!; [done|lia| |done..].
  unfold union_ops. rewrite fmap_app, run_ops_app.
  fold (union_ops pre). rewrite Hpre. simpl. by rewrite Hu.
Qed.

Lemma solve_part2_reports_witness :
  ∃ pre d i j post ci cj,
    [(1, 0, 1); (4, 1, 2); (5, 0, 2)] = pre ++ (d, i, j) :: post ∧
    successful_unions
      (run_ops 5 (union_ops pre)
         (init (Z.of_nat (length [(0, 0, 0); (1, 0, 0); (5, 0, 0)])))).1
    = Z.of_nat (length [(0, 0, 0); (1, 0, 0); (5, 0, 0)]) - 2 ∧
    (run_ops 5 (union_ops (pre ++ [(d, i, j)]))
             (init (Z.of_nat (length [(0, 0, 0); (1, 0, 0); (5, 0, 0)])))).1
    = (run_ops 5 (union_ops pre)
         (init (Z.of_nat (length [(0, 0, 0); (1, 0, 0); (5, 0, 0)])))).1
      ++ [RUnion (Ret true)] ∧
    py_get [(0, 0, 0); (1, 0, 0); (5, 0, 0)] i = Some ci ∧
    py_get [(0, 0, 0); (1, 0, 0); (5, 0, 0)] j = Some cj ∧
    5 = coord_x ci * coord_x cj.
Proof.
  apply (solve_part2_reports_last_merge 5 [(0, 0, 0); (1, 0, 0); (5, 0, 0)]
           [(1, 0, 1); (4, 1, 2); (5, 0, 2)] 5).
  reflexivity.
Defined.

(** *** The sizes depend on the partition only *)

(** The dictionary is built from the roots of the visited elements, in the
    order of the visit. *)
Lemma sizes_loop_roots fuel idx : ∀ s m,
  uf_inv s →
  Forall (λ i, 0 ≤ i < Z.of_nat (length (parent s))) idx →
  (length (parent s) + 2 ≤ fuel)%nat →
  ∃ roots s',
    sizes_loop fuel idx m s
    = (Ret (foldl (λ d r, dict_set d r (dict_get d r 0 + 1)) m roots), s') ∧
    Forall2 (repr (parent s)) idx roots.
Proof.
  induction idx as [|i idx IH]; intros s m Hinv Hidx Hfuel.
  { exists [], s. by split; [|constructor]. }
  apply Forall_cons in Hidx as [Hi Hidx]. simpl.
  unfold mbind, M_bind, bind.
  destruct (find_valid s fuel i (Z.to_nat i)) as (r & s1 & H1 & Hr & _);
    [done|by apply py_index_nonneg|done|].
  rewrite Z2Nat.id in Hr by lia.
  pose proof (find_spec _ _ _ _ _ Hinv H1) as (Hinv1 & [Hlen1 Hp1] & _); [done|].
  rewrite H1.
  destruct (IH s1 (dict_set m r (dict_get m r 0 + 1)))
    as (roots & s' & -> & Hroots); [done|by rewrite Hlen1|by rewrite Hlen1|].
  exists (r :: roots), s'. split; [done|]. constructor; [done|].
  eapply Forall2_impl; [done|]. intros x y. apply Hp1.
Qed.

Lemma Forall2_repr_det p idx roots1 roots2 :
  Forall2 (repr p) idx roots1 → Forall2 (repr p) idx roots2 → roots1 = roots2.
Proof.
  intros H1. revert roots2. induction H1 as [|i r idx roots1 Hr _ IH];
    intros roots2 H2; inv H2; [done|].
  f_equal; [by eapply repr_det|by apply IH].
Qed.

(** X20: the list that [get_component_sizes] returns, order included,
    depends only on the partition: two reachable states of structures of
    the same size in which every element has the same representative give
    the same list, however far their paths are compressed. *)
Theorem component_sizes_depend_on_partition size s t fuel :
  0 ≤ size → reachable size s → reachable size t →
  same_partition (parent s) (parent t) →
  (Z.to_nat size + 2 ≤ fuel)%nat →
  ∃ sizes s' t',
    get_component_sizes fuel s = (Ret sizes, s') ∧
    get_component_sizes fuel t = (Ret sizes, t').
Proof.
  intros Hsize Hs Ht [Hlen Hp] Hfuel.
  destruct (reachable_inv size s) as [Hinvs Hlens]; [done..|].
  destruct (reachable_inv size t) as [Hinvt Hlent]; [done..|].
  rewrite !get_component_sizes_unfold, Hlen.
  destruct (sizes_loop_roots fuel (py_range 0 (Z.of_nat (length (parent s)))) s [])
    as (roots1 & s' & -> & Hr1); [done|apply py_range_Forall|lia|].
  destruct (sizes_loop_roots fuel (py_range 0 (Z.of_nat (length (parent s)))) t [])
    as (roots2 & t' & -> & Hr2);
    [done|rewrite <-Hlen; apply py_range_Forall|lia|].
  assert (roots2 = roots1) as ->.
  { eapply Forall2_repr_det; [done|].
    eapply Forall2_impl; [done|]. intros x y. apply Hp. }
  by eexists _, s', t'.
Qed.

Lemma component_sizes_depend_witness :
  ∃ sizes s' t',
    get_component_sizes 7 chain_state = (Ret sizes, s') ∧
    get_component_sizes 7 flat_state = (Ret sizes, t').
Proof.
  apply (component_sizes_depend_on_partition 5 chain_state flat_state 7);
    [lia|apply chain_state_reachable|apply flat_state_reachable
    |apply chain_flat_partition|simpl; lia].
Defined.

(** *** A second call of [get_component_sizes] *)

(** [find] on an element that points at its root changes nothing. *)
Lemma find_direct s fuel x r :
  0 ≤ x → parent s !! Z.to_nat x = Some r → is_root (parent s) r →
  (2 ≤ fuel)%nat → find fuel x s = (Ret r, s).
Proof.
  intros Hx Hp [Hr0 Hroot] Hfuel.
  pose proof (lookup_lt_Some _ _ _ Hp) as Hlt.
  destruct fuel as [|[|fuel]]; [lia..|].
  rewrite find_unfold, py_get_nonneg, Hp by lia.
  case_bool_decide as Hne; [|by simplify_eq].
  rewrite find_unfold, py_get_nonneg, Hroot
    by (apply lookup_lt_Some in Hroot; lia).
  rewrite bool_decide_false by (intros ?; done).
  rewrite py_set_nonneg, list_insert_id by (done || lia).
  rewrite py_get_nonneg, Hp by lia. by destruct s.
Qed.

(** On a flattened structure the loop does not write. *)
Lemma sizes_loop_fixed fuel idx s : ∀ m,
  Forall (λ i, 0 ≤ i ∧ ∃ r, parent s !! Z.to_nat i = Some r ∧
                            is_root (parent s) r) idx →
  (2 ≤ fuel)%nat →
  ∃ m', sizes_loop fuel idx m s = (Ret m', s).
Proof.
  induction idx as [|i idx IH]; intros m Hidx Hfuel.
  { by exists m. }
  apply Forall_cons in Hidx as [(Hi & r & Hp & Hr) Hidx]. simpl.
  unfold mbind, M_bind, bind.
  rewrite (find_direct s fuel i r) by done. by apply IH.
Qed.

(** X21: calling [get_component_sizes] a second time, directly after the
    first call, returns the same list in the same order and writes nothing:
    the first call has flattened every path. *)
Theorem component_sizes_twice size s fuel :
  0 ≤ size → reachable size s → (Z.to_nat size + 2 ≤ fuel)%nat →
  ∃ sizes s',
    get_component_sizes fuel s = (Ret sizes, s') ∧
    get_component_sizes fuel s' = (Ret sizes, s').
Proof.
  intros Hsize Hs Hfuel.
  destruct (reachable_inv size s) as [Hinv Hlen]; [done..|].
  set (idx := py_range 0 (Z.of_nat (length (parent s)))).
  assert (Forall (λ i, 0 ≤ i < Z.of_nat (length (parent s))) idx) as Hidx
    by apply py_range_Forall.
  destruct (sizes_loop_roots fuel idx s []) as (roots & s' & Hloop & Hroots);
    [done|done|lia|].
  assert (length (parent s) + 2 ≤ fuel)%nat as Hfuel' by lia.
  destruct (sizes_loop_spec fuel idx s []) as
    (m0 & s0 & Hloop0 & Hinv' & Hp & _); [done|done|done|].
  rewrite Hloop in Hloop0. simplify_eq.
  pose proof Hp as [Hlen' _].
  pose proof (sizes_loop_flat _ _ _ _ _ _ Hinv Hidx Hfuel' Hloop)
    as [_ Hflat].
  assert (Forall (λ i, 0 ≤ i ∧ ∃ r, parent s0 !! Z.to_nat i = Some r ∧
                                    is_root (parent s0) r) idx) as Hdirect.
  { apply Forall_forall. intros i Hi.
    pose proof (proj1 (Forall_forall _ _) Hidx i Hi) as Hi'. simpl in Hi'.
    destruct (proj1 (inv_forest s Hinv) i Hi') as [r Hr].
    split; [lia|]. exists r. split; [by apply Hflat|].
    apply (same_partition_root _ _ _ Hp). by eapply repr_is_root. }
  destruct (sizes_loop_fixed fuel idx s0 [] Hdirect) as [m' Hfix]; [lia|].
  destruct (sizes_loop_roots fuel idx s0 []) as (roots' & s1 & Hloop' & Hroots');
    [done|by rewrite Hlen'|lia|].
  rewrite Hfix in Hloop'. simplify_eq.
  assert (roots' = roots) as ->.
  { eapply Forall2_repr_det; [done|].
    eapply Forall2_impl; [done|]. intros x y. apply Hp. }
  exists (dict_values (foldl (λ d r, dict_set d r (dict_get d r 0 + 1)) [] roots)), s1.
  rewrite !get_component_sizes_unfold, Hlen'. fold idx.
  by rewrite Hloop, Hfix.
Qed.

Lemma component_sizes_twice_witness :
  ∃ sizes s',
    get_component_sizes 7 chain_state = (Ret sizes, s') ∧
    get_component_sizes 7 s' = (Ret sizes, s').
Proof.
  apply (component_sizes_twice 5 chain_state 7);
    [lia|apply chain_state_reachable|simpl; lia].
Defined.
